(** * RequestServer: the spatial cache and the request router

    A shallow embedding of [C++/src/CacheProvider.cpp] (class
    [game_server::cache_provider]) and [C++/src/ProcessorNode.cpp] (class
    [game_server::processor_node]), and the properties of the design
    document checked against them.

    Conventions of the embedding.
    - An object of the cache is heap allocated and reached through raw
      pointers kept in several indices.  The cache never writes to an object
      it stores, so a pointer is modelled by the record it points to; the
      record carries the address of the object, and pointer comparison
      ([std::find] on a vector of pointers) is comparison of addresses: a
      copy of an object has its members and another address.
    - [dynamic_cast<updatable*>] and [dynamic_cast<map_obj*>] are the
      capability tests of the class hierarchy: the former is the flag
      [is_updatable], the latter the constructor [on_map] of [base_obj].
    - [coord], [dimension], [obj_id], [owner_id] and [word] are typedefs of
      headers that are not part of the sources.  Coordinates and dimensions
      are integers ([Z], arithmetic without overflow), identifiers are
      unsigned ([N]), [word] indices are [nat].
    - A [std::recursive_mutex] is its owner and its depth; a call that would
      block or whose behaviour is undefined has no result ([None]). *)

From Stdlib Require Import ZArith List Lia.
From stdpp Require Import gmap list fin_maps.

Local Open Scope Z_scope.

(** ** Objects ([game_server::objects]) *)

Module objects.

(** The members every object has: [base_obj::id], [base_obj::owner], and
    whether the dynamic type also derives from [updatable]; with them,
    where the object is: the value of a pointer to it. *)
Record base_fields : Type := {
  id : N;
  owner : N;
  is_updatable : bool;
  address : positive
}.

(** [map_obj]: a [base_obj] with an axis-aligned rectangle. *)
Record map_obj : Type := {
  base : base_fields;
  x : Z;
  y : Z;
  width : Z;
  height : Z
}.

(** What a [base_obj*] points to: a plain object or a [map_obj]. *)
Inductive base_obj : Type :=
| plain (b : base_fields)
| on_map (m : map_obj).

Definition fields (o : base_obj) : base_fields :=
  match o with
  | plain b => b
  | on_map m => base m
  end.

(** [dynamic_cast<map_obj*>(object)] *)
Definition as_map_obj (o : base_obj) : option map_obj :=
  match o with
  | plain _ => None
  | on_map m => Some m
  end.

#[global] Instance base_fields_eq_dec : EqDecision base_fields.
Proof. solve_decision. Defined.
#[global] Instance map_obj_eq_dec : EqDecision map_obj.
Proof. solve_decision. Defined.
#[global] Instance base_obj_eq_dec : EqDecision base_obj.
Proof. solve_decision. Defined.

End objects.

(** ** Loops over coordinates *)

(** [for (c = lo; c < hi; c++)]: the values [c] takes, in order. *)
Definition range (lo hi : Z) : list Z := seqZ lo (hi - lo).

(** [for (x = x0; x < x1; x++) for (y = y0; y < y1; y++)]: the cells
    visited, in order. *)
Definition scan (x0 x1 y0 y1 : Z) : list (Z * Z) :=
  x ← range x0 x1; y ← range y0 y1; [(x, y)].

(** ** The cache ([game_server::cache_provider]) *)

Module cache_provider.
Import objects.

Inductive error : Type :=
| PlacementConflict
| SynchronizationViolation.

Record t : Type := {
  start_x : Z;
  start_y : Z;
  end_x : Z;
  end_y : Z;
  width : Z;
  height : Z;
  los_radius : Z;
  (** [mtx], a [std::recursive_mutex]: the owning thread and how many
      times it has locked it *)
  mtx_owner : option positive;
  mtx_depth : nat;
  (** [lock_holder], a [std::thread::id]; [None] is the default
      constructed id, which is no thread *)
  lock_holder : option positive;
  (** the Registry *)
  id_idx : gmap N base_obj;
  (** the Owner Index *)
  owner_idx : gmap N (list base_obj);
  (** the Grid *)
  loc_idx : gmap (Z * Z) map_obj;
  (** the objects that are [updatable], in insertion order *)
  updatable_idx : list base_obj
}.

Definition with_bounds (c : t) (sx sy ex ey w h r : Z) : t :=
  {| start_x := sx; start_y := sy; end_x := ex; end_y := ey;
     width := w; height := h; los_radius := r;
     mtx_owner := mtx_owner c; mtx_depth := mtx_depth c;
     lock_holder := lock_holder c;
     id_idx := id_idx c; owner_idx := owner_idx c; loc_idx := loc_idx c;
     updatable_idx := updatable_idx c |}.

Definition with_mtx (c : t) (o : option positive) (d : nat)
    (holder : option positive) : t :=
  {| start_x := start_x c; start_y := start_y c;
     end_x := end_x c; end_y := end_y c;
     width := width c; height := height c; los_radius := los_radius c;
     mtx_owner := o; mtx_depth := d; lock_holder := holder;
     id_idx := id_idx c; owner_idx := owner_idx c; loc_idx := loc_idx c;
     updatable_idx := updatable_idx c |}.

Definition with_indices (c : t) (ids : gmap N base_obj)
    (owners : gmap N (list base_obj)) (upd : list base_obj) : t :=
  {| start_x := start_x c; start_y := start_y c;
     end_x := end_x c; end_y := end_y c;
     width := width c; height := height c; los_radius := los_radius c;
     mtx_owner := mtx_owner c; mtx_depth := mtx_depth c;
     lock_holder := lock_holder c;
     id_idx := ids; owner_idx := owners; loc_idx := loc_idx c;
     updatable_idx := upd |}.

Definition with_loc (c : t) (g : gmap (Z * Z) map_obj) : t :=
  {| start_x := start_x c; start_y := start_y c;
     end_x := end_x c; end_y := end_y c;
     width := width c; height := height c; los_radius := los_radius c;
     mtx_owner := mtx_owner c; mtx_depth := mtx_depth c;
     lock_holder := lock_holder c;
     id_idx := id_idx c; owner_idx := owner_idx c; loc_idx := g;
     updatable_idx := updatable_idx c |}.

(** [cache_provider::set_bounds] *)
Definition set_bounds (c : t) (sx sy w h r : Z) : t :=
  with_bounds c sx sy (sx + w) (sy + h) w h r.

(** The constructor: empty indices, a free mutex, then [set_bounds]. *)
Definition new (sx sy w h r : Z) : t :=
  set_bounds
    {| start_x := 0; start_y := 0; end_x := 0; end_y := 0;
       width := 0; height := 0; los_radius := 0;
       mtx_owner := None; mtx_depth := 0; lock_holder := None;
       id_idx := ∅; owner_idx := ∅; loc_idx := ∅; updatable_idx := [] |}
    sx sy w h r.

(** Modelled from the spec: the declaration of [loc_idx] is in the
    missing [CacheProvider.h]; the Grid is "a two-level direct mapping"
    from a cell to the object occupying it.  A cell that holds [nullptr]
    and a cell that was never written are the same cell of the model.

    [cache_provider::get_loc], read as a value. *)
Definition get_loc (c : t) (x y : Z) : option map_obj :=
  loc_idx c !! (x, y).

(** [this->get_loc(x, y) = object] and [this->get_loc(x, y) = nullptr] *)
Definition set_loc (c : t) (x y : Z) (o : option map_obj) : t :=
  with_loc c
    match o with
    | Some m => <[(x, y) := m]> (loc_idx c)
    | None => delete (x, y) (loc_idx c)
    end.

(** The cells of an object's rectangle in the order in which
    [add_internal] and [remove_internal] visit them. *)
Definition footprint (m : map_obj) : list (Z * Z) :=
  scan (x m) (x m + objects.width m) (y m) (y m + objects.height m).

(** [cache_provider::add_internal], the overload taking a [base_obj*] *)
Definition add_internal (c : t) (object : base_obj) : t :=
  let f := fields object in
  with_indices c
    (<[id f := object]> (id_idx c))
    (<[owner f := default [] (owner_idx c !! owner f) ++ [object]]>
       (owner_idx c))
    (if is_updatable f then updatable_idx c ++ [object]
     else updatable_idx c).

(** [cache_provider::add_internal], the overload taking a [map_obj*]:
    the first pair of loops returns [false] at the first occupied cell;
    the second writes the object to every cell. *)
Definition add_internal_map (c : t) (object : map_obj) : bool * t :=
  if existsb (λ '(x, y), bool_decide (get_loc c x y ≠ None))
       (footprint object)
  then (false, c)
  else (true,
        foldl (λ c '(x, y), set_loc c x y (Some object)) c
          (footprint object)).

(** [v.erase(std::find(v.begin(), v.end(), o))] guarded by
    [iter != v.end()]: [std::find] compares the pointers, the first
    occurrence of the pointer goes, the order of the rest stays. *)
Fixpoint erase_first (o : base_obj) (v : list base_obj) : list base_obj :=
  match v with
  | [] => []
  | a :: v' =>
      if decide (address (fields a) = address (fields o)) then v'
      else a :: erase_first o v'
  end.

(** [cache_provider::remove_internal], the overload taking a [base_obj*].
    [this->owner_idx[object->owner]] is [operator[]] of the map: it
    creates an empty vector under a key that is absent.  The Registry
    entry goes by the id; the entries of the Owner Index and of the
    updatable index go where [std::find] meets the pointer [object]
    itself. *)
Definition remove_internal (c : t) (object : base_obj) : t :=
  let f := fields object in
  with_indices c
    (delete (id f) (id_idx c))
    (if decide (owner f ≠ 0%N)
     then <[owner f :=
              erase_first object (default [] (owner_idx c !! owner f))]>
            (owner_idx c)
     else owner_idx c)
    (if is_updatable f then erase_first object (updatable_idx c)
     else updatable_idx c).

(** [cache_provider::remove_internal], the overload taking a [map_obj*] *)
Definition remove_internal_map (c : t) (object : map_obj) : t :=
  foldl (λ c '(x, y), set_loc c x y None) c (footprint object).

(** [cache_provider::is_root_object] *)
Definition is_root_object (obj : map_obj) (x y : Z) : bool :=
  bool_decide (objects.x obj = x) && bool_decide (objects.y obj = y).

(** [cache_provider::clamp]: the four references, returned as
    [(start_x, start_y, end_x, end_y)]. *)
Definition clamp (c : t) (sx sy ex ey : Z) : Z * Z * Z * Z :=
  (if bool_decide (sx < start_x c) then start_x c else sx,
   if bool_decide (sy < start_y c) then start_y c else sy,
   if bool_decide (ex >= end_x c) then end_x c - 1 else ex,
   if bool_decide (ey >= end_y c) then end_y c - 1 else ey).

(** [result.emplace(k, v)] on an [unordered_map]: a key that is present
    keeps its value. *)
Definition emplace {V : Type} (k : N) (v : V) (result : gmap N V)
    : gmap N V :=
  match result !! k with
  | Some _ => result
  | None => <[k := v]> result
  end.

(** The body shared by the scans of [get_in_area] and
    [get_in_owner_los]: a root object found at the cell is emplaced under
    its id. *)
Definition collect_root (c : t) (result : gmap N map_obj) (cell : Z * Z)
    : gmap N map_obj :=
  let '(x, y) := cell in
  match get_loc c x y with
  | Some current =>
      if is_root_object current x y
      then emplace (id (base current)) current result
      else result
  | None => result
  end.

(** *** The queries

    A query holds the mutex from its first read to its return and leaves
    it as it found it; as a function of the state it is the lookup or the
    scan alone.  What the code returns is a clone of each object found:
    the record of the model names the object that was cloned. *)

(** [cache_provider::get_by_id] *)
Definition get_by_id (c : t) (search_id : N) : option base_obj :=
  id_idx c !! search_id.

(** [cache_provider::get_at_location] *)
Definition get_at_location (c : t) (x y : Z) : option map_obj :=
  get_loc c x y.

(** [cache_provider::get_in_area].  The inner loop starts again at
    [end_y - height], with [end_y] as [clamp] left it and [height] as
    passed. *)
Definition get_in_area (c : t) (x y width height : Z) : gmap N map_obj :=
  let end_x := x + width in
  let end_y := y + height in
  let '(x, y, end_x, end_y) := clamp c x y end_x end_y in
  foldl (collect_root c) ∅ (scan x end_x (end_y - height) end_y).

(** [cache_provider::get_by_owner] *)
Definition get_by_owner (c : t) (o : N) : gmap N base_obj :=
  match owner_idx c !! o with
  | Some objs => foldl (λ result i, emplace (id (fields i)) i result) ∅ objs
  | None => ∅
  end.

(** [cache_provider::get_in_owner_los(owner)] *)
Definition get_in_owner_los (c : t) (o : N) : gmap N map_obj :=
  match owner_idx c !! o with
  | None => ∅
  | Some owner_objects =>
      foldl
        (λ result object,
           match as_map_obj object with
           | None => result
           | Some current_object =>
               let '(sx, sy, ex, ey) :=
                 clamp c (objects.x current_object - los_radius c)
                         (objects.y current_object - los_radius c)
                         (objects.x current_object + los_radius c)
                         (objects.y current_object + los_radius c) in
               foldl (collect_root c) result (scan sx ex sy ey)
           end)
        ∅ owner_objects
  end.

(** [cache_provider::get_in_owner_los(owner, x, y, width, height)] *)
Definition get_in_owner_los_within (c : t) (o : N) (x y width height : Z)
    : gmap N map_obj :=
  filter
    (λ kv, objects.x kv.2 >= x ∧ objects.y kv.2 >= y
           ∧ objects.x kv.2 <= x + width ∧ objects.y kv.2 <= y + height)
    (get_in_owner_los c o).

(** The body of the scan of [get_users_with_los_at]: the owner of an
    object found at the cell is inserted unless it is 0. *)
Definition collect_owner (c : t) (result : gset N) (cell : Z * Z) : gset N :=
  let '(this_x, this_y) := cell in
  match get_loc c this_x this_y with
  | Some current =>
      if decide (owner (base current) ≠ 0%N)
      then {[owner (base current)]} ∪ result
      else result
  | None => result
  end.

(** [cache_provider::get_users_with_los_at] *)
Definition get_users_with_los_at (c : t) (x y : Z) : gset N :=
  let end_x := x + los_radius c in
  let end_y := y + los_radius c in
  let start_x := x - los_radius c in
  let start_y := y - los_radius c in
  let '(start_x, start_y, end_x, end_y) :=
    clamp c start_x start_y end_x end_y in
  foldl (collect_owner c) ∅ (scan start_x end_x start_y end_y).

(** [cache_provider::is_area_empty] *)
Definition is_area_empty (c : t) (x y width height : Z) : bool :=
  let end_x := x + width in
  let end_y := y + height in
  let '(x, y, end_x, end_y) := clamp c x y end_x end_y in
  negb (existsb (λ '(x, y), bool_decide (get_loc c x y ≠ None))
          (scan x end_x (end_y - height) end_y)).

(** [cache_provider::is_location_in_los] *)
Definition is_location_in_los (c : t) (x y : Z) (o : N) : bool :=
  let end_x := x + los_radius c in
  let end_y := y + los_radius c in
  let start_x := x - los_radius c in
  let start_y := y - los_radius c in
  let '(start_x, start_y, end_x, end_y) :=
    clamp c start_x start_y end_x end_y in
  existsb
    (λ '(x, y),
       match get_loc c x y with
       | Some current =>
           is_root_object current x y
           && bool_decide (owner (base current) = o)
       | None => false
       end)
    (scan start_x end_x start_y end_y).

(** [cache_provider::is_location_in_bounds] *)
Definition is_location_in_bounds (c : t) (x y width height : Z) : bool :=
  bool_decide (x >= start_x c) && bool_decide (y >= start_y c)
  && bool_decide (x + width <= end_x c)
  && bool_decide (y + height <= end_y c).

(** [cache_provider::is_user_present] *)
Definition is_user_present (c : t) (user_id : N) : bool :=
  bool_decide (owner_idx c !! user_id ≠ None).

(** *** The concurrency guard *)

(** [cache_provider::lock], called by thread [me]: [mtx.lock()] returns
    when the mutex is free or already owned by [me]; then the holder is
    recorded. *)
Definition lock (c : t) (me : positive) : option t :=
  match mtx_owner c with
  | None => Some (with_mtx c (Some me) 1 (Some me))
  | Some o =>
      if decide (o = me)
      then Some (with_mtx c (Some me) (S (mtx_depth c)) (Some me))
      else None
  end.

(** [cache_provider::unlock], called by thread [me]: the holder is reset
    to no thread, then [mtx.unlock()], which is defined only for the
    owner. *)
Definition unlock (c : t) (me : positive) : option t :=
  match mtx_owner c with
  | Some o =>
      if decide (o = me)
      then match mtx_depth c with
           | S (S d) => Some (with_mtx c (Some me) (S d) None)
           | _ => Some (with_mtx c None 0 None)
           end
      else None
  | None => None
  end.

(** [cache_provider::begin_update]: the region is not used. *)
Definition begin_update (c : t) (me : positive) (x y width height : Z)
    : option t :=
  lock c me.

(** [cache_provider::end_update] *)
Definition end_update (c : t) (me : positive) : option t :=
  unlock c me.

(** [cache_provider::get_next_updatable], called by thread [me] *)
Definition get_next_updatable (c : t) (me : positive) (position : nat)
    : error + option base_obj :=
  if decide (lock_holder c ≠ Some me)
  then inl SynchronizationViolation
  else inr (if decide (position < length (updatable_idx c))%nat
            then updatable_idx c !! position
            else None).

(** *** The public mutations *)

(** Modelled from the spec: the public [add] is a template of the
    missing [CacheProvider.h].  "addObject(object) inserts into Registry,
    Owner Index, and (if positioned) Grid.  Fails with PlacementConflict
    and leaves cache state unchanged if any covered cell is already
    occupied."  The two steps are the [add_internal] overloads above. *)
Definition add (c : t) (object : base_obj) : option error * t :=
  match as_map_obj object with
  | Some m =>
      match add_internal_map c m with
      | (true, c') => (None, add_internal c' object)
      | (false, c') => (Some PlacementConflict, c')
      end
  | None => (None, add_internal c object)
  end.

(** Modelled from the spec: the public [remove] is a template of the
    missing [CacheProvider.h].  "removeObject(object) deletes from
    Registry, Owner Index (if owned), and clears every covered Grid
    cell."  The two steps are the [remove_internal] overloads above. *)
Definition remove (c : t) (object : base_obj) : t :=
  let c' := remove_internal c object in
  match as_map_obj object with
  | Some m => remove_internal_map c' m
  | None => c'
  end.

End cache_provider.

(** ** The request router ([game_server::processor_node]) *)

Module result_codes.

(** Modelled from the spec: the constants of [result_codes] are in a
    missing header.  "Result codes (semantic set): Success, NoResponse,
    RetryLater, InvalidRequestType, InvalidParameters, and
    handler-defined business codes." *)
Inductive result_code : Type :=
| success
| no_response
| retry_later
| invalid_request_type
| invalid_parameters
| business (code : N).

#[global] Instance result_code_eq_dec : EqDecision result_code.
Proof. solve_decision. Defined.

End result_codes.

Module request_server.

(** [request_server::request_result], what [on_request] tells the
    transport to do with the response. *)
Inductive request_result : Type :=
| success
| no_response
| retry_later.

End request_server.

(** What has been written to a [util::data_stream], in order.  The byte
    layout of a value belongs to the stream class, which is not part of
    the sources. *)
Inductive datum : Type :=
| code_written (r : result_codes.result_code)
| id_written (i : N)
| byte_written (b : N).

Abbreviation data_stream := (list datum).

(** The outcome of a call that may throw [broker_node_down_exception] or
    run into undefined behaviour.  The exception is fatal: the state it
    leaves behind is not tracked. *)
Inductive outcome (A : Type) : Type :=
| returns (a : A)
| broker_node_down_exception
| undefined.

Arguments returns {A} a.
Arguments broker_node_down_exception {A}.
Arguments undefined {A}.

(** How [handler.deserialize(parameters)] ends; the handler is an object
    and keeps what it has read. *)
Inductive deserialized (H : Type) : Type :=
| parsed (h : H)
| read_past_end_exception (h : H).

(** How [handler.process(authenticated_id)] ends: a result code and the
    value it leaves in the reference [authenticated_id], or
    [sql::synchronization_exception]. *)
Inductive processed (H : Type) : Type :=
| finished (result : result_codes.result_code) (authenticated_id : N) (h : H)
| synchronization_exception (h : H).

Arguments parsed {H} h.
Arguments read_past_end_exception {H} h.
Arguments finished {H} result authenticated_id h.
Arguments synchronization_exception {H} h.

(** The interface [base_handler] of the handler collaborator. *)
Class base_handler (H : Type) : Type := {
  deserialize : H → data_stream → deserialized H;
  process : H → N → processed H;
  serialize : H → data_stream → data_stream
}.

Module processor_node.
Import result_codes.

Section node.
Context {H : Type} `{!base_handler H}.

Record t : Type := {
  workers : nat;
  area_id : N;
  (** [broker], a [shared_ptr<tcp_connection>]; [None] is null *)
  broker : option positive;
  (** [tcp_connection::state] of every connection, read as an
      [obj_id]; a connection without an entry has the null state *)
  state : gmap positive N;
  (** the client-authentication index *)
  authenticated_clients : gmap N (list positive);
  (** one handler instance per request type and worker *)
  authenticated_handlers : gmap N (list H);
  unauthenticated_handlers : gmap N (list H);
  (** what [server.enqueue_outgoing] was given, oldest first *)
  outgoing : list (option positive * data_stream)
}.

Definition with_clients (n : t) (st : gmap positive N)
    (clients : gmap N (list positive)) : t :=
  {| workers := workers n; area_id := area_id n; broker := broker n;
     state := st; authenticated_clients := clients;
     authenticated_handlers := authenticated_handlers n;
     unauthenticated_handlers := unauthenticated_handlers n;
     outgoing := outgoing n |}.

Definition with_outgoing (n : t)
    (out : list (option positive * data_stream)) : t :=
  {| workers := workers n; area_id := area_id n; broker := broker n;
     state := state n; authenticated_clients := authenticated_clients n;
     authenticated_handlers := authenticated_handlers n;
     unauthenticated_handlers := unauthenticated_handlers n;
     outgoing := out |}.

Definition with_broker (n : t) (b : option positive) : t :=
  {| workers := workers n; area_id := area_id n; broker := b;
     state := state n; authenticated_clients := authenticated_clients n;
     authenticated_handlers := authenticated_handlers n;
     unauthenticated_handlers := unauthenticated_handlers n;
     outgoing := outgoing n |}.

Definition with_handlers (n : t) (auth unauth : gmap N (list H)) : t :=
  {| workers := workers n; area_id := area_id n; broker := broker n;
     state := state n; authenticated_clients := authenticated_clients n;
     authenticated_handlers := auth;
     unauthenticated_handlers := unauth;
     outgoing := outgoing n |}.

(** The constructor, with the handler tables as they are once the
    handlers have been registered. *)
Definition new (workers : nat) (area_id : N)
    (auth unauth : gmap N (list H)) : t :=
  {| workers := workers; area_id := area_id; broker := None;
     state := ∅; authenticated_clients := ∅;
     authenticated_handlers := auth; unauthenticated_handlers := unauth;
     outgoing := [] |}.

(** [reinterpret_cast<obj_id>(client->state)] *)
Definition state_of (n : t) (conn : positive) : N :=
  default 0%N (state n !! conn).

(** [processor_node::create_message] *)
Definition create_message (category type : N) : data_stream :=
  [byte_written 0; byte_written category; byte_written type].

(** [processor_node::send_to_broker] *)
Definition send_to_broker (n : t) (target_id : N) (message : data_stream)
    : t :=
  with_outgoing n
    (outgoing n ++ [(broker n, message ++ [id_written target_id])]).

(** [processor_node::start]; [conn] is the connection that
    [server.adopt] returns. *)
Definition start (n : t) (conn : positive) : t :=
  if decide (area_id n ≠ 0%N)
  then
    let n := with_broker n (Some conn) in
    let n :=
      with_clients n (<[conn := area_id n]> (state n))
        (<[area_id n :=
             default [] (authenticated_clients n !! area_id n) ++ [conn]]>
           (authenticated_clients n)) in
    send_to_broker n (area_id n) (create_message 0 0)
  else n.

(** [processor_node::add_client] *)
Definition add_client (n : t) (id : N) (conn : positive) : t :=
  if decide (id = 0%N) then n
  else
    with_clients n (<[conn := id]> (state n))
      (<[id := default [] (authenticated_clients n !! id) ++ [conn]]>
         (authenticated_clients n)).

(** [list.erase(find(list.begin(), list.end(), conn))]: erasing the
    end iterator is undefined. *)
Fixpoint erase_found (conn : positive) (l : list positive)
    : option (list positive) :=
  match l with
  | [] => None
  | a :: l' =>
      if decide (a = conn) then Some l'
      else cons a <$> erase_found conn l'
  end.

(** [processor_node::del_client] *)
Definition del_client (n : t) (id : N) (conn : positive) : outcome t :=
  if decide (id = 0%N) then returns n
  else if decide (id = area_id n) then broker_node_down_exception
  else
    match authenticated_clients n !! id with
    | Some list =>
        match erase_found conn list with
        | Some list =>
            returns
              (with_clients n (state n)
                 (if decide (length list = 0%nat)
                  then delete id (authenticated_clients n)
                  else <[id := list]> (authenticated_clients n)))
        | None => undefined
        end
    | None => returns n
    end.

(** [processor_node::send] *)
Definition send (n : t) (receipient_id : N) (notification : data_stream)
    : t :=
  match authenticated_clients n !! receipient_id with
  | Some conns =>
      with_outgoing n
        (outgoing n ++ ((λ i, (Some i, notification)) <$> conns))
  | None => n
  end.

(** [processor_node::on_disconnect] *)
Definition on_disconnect (n : t) (client : positive) : outcome t :=
  del_client n (state_of n client) client.

(** The handler table [on_request] reads for a connection with the
    given identity. *)
Definition handlers_for (n : t) (authenticated_id : N)
    : gmap N (list H) :=
  if decide (authenticated_id ≠ 0%N) then authenticated_handlers n
  else unauthenticated_handlers n.

(** The handler is used through a reference: what it becomes stays in
    the table. *)
Definition keep_handler (n : t) (authenticated_id type : N)
    (worker_num : nat) (h : H) : t :=
  if decide (authenticated_id ≠ 0%N)
  then with_handlers n
         (alter (λ l, <[worker_num := h]> l) type
            (authenticated_handlers n))
         (unauthenticated_handlers n)
  else with_handlers n (authenticated_handlers n)
         (alter (λ l, <[worker_num := h]> l) type
            (unauthenticated_handlers n)).

(** [uint16 type = (category << 8) | method], the operands being
    [uint8] values *)
Definition request_type (category method : N) : N :=
  (N.lor (N.shiftl category 8) method mod 65536)%N.

(** The end of [on_request]: an identity that the handler changed is
    carried to the client-authentication index. *)
Definition identity_changed (n : t) (start_id authenticated_id : N)
    (client : positive) : outcome t :=
  if decide (authenticated_id ≠ start_id)
  then
    if decide (authenticated_id ≠ 0%N)
    then returns (add_client n authenticated_id client)
    else del_client n start_id client
  else returns n.

(** [processor_node::on_request]: the request result, the response
    stream and the node afterwards. *)
Definition on_request (n : t) (client : positive) (worker_num : nat)
    (category method : N) (parameters response : data_stream)
    : outcome (request_server.request_result * data_stream * t) :=
  let authenticated_id := state_of n client in
  let start_id := authenticated_id in
  let type := request_type category method in
  match handlers_for n authenticated_id !! type with
  | None =>
      returns (request_server.success,
               response ++ [code_written invalid_request_type], n)
  | Some instances =>
      match instances !! worker_num with
      | None => undefined
      | Some handler =>
          match deserialize handler parameters with
          | read_past_end_exception h =>
              returns (request_server.success,
                       response ++ [code_written invalid_parameters],
                       keep_handler n start_id type worker_num h)
          | parsed h =>
              match process h authenticated_id with
              | synchronization_exception h =>
                  returns (request_server.retry_later, response,
                           keep_handler n start_id type worker_num h)
              | finished result authenticated_id h =>
                  let n := keep_handler n start_id type worker_num h in
                  let response := response ++ [code_written result] in
                  let response :=
                    if decide (result = result_codes.success)
                    then serialize h response else response in
                  if decide (result ≠ result_codes.success
                             ∧ result = result_codes.no_response)
                  then returns (request_server.no_response, response, n)
                  else
                    match identity_changed n start_id authenticated_id
                            client with
                    | returns n =>
                        returns (request_server.success, response, n)
                    | broker_node_down_exception =>
                        broker_node_down_exception
                    | undefined => undefined
                    end
              end
          end
      end
  end.

End node.

Arguments t H : clear implicits.

End processor_node.

(** ** Runs of the cache *)

Module run.
Import objects cache_provider.

(** The calls a thread makes on the cache within or around an update
    scope. *)
Inductive call : Type :=
| begin_update_call (x y width height : Z)
| end_update_call
| add_call (object : base_obj)
| remove_call (object : base_obj).

(** One call by thread [me]; [None] when the call blocks or is
    undefined.  A failed [add] returns to its caller and the run goes
    on. *)
Definition step (c : t) (me : positive) (k : call) : option t :=
  match k with
  | begin_update_call x y w h => begin_update c me x y w h
  | end_update_call => end_update c me
  | add_call o => Some (add c o).2
  | remove_call o => Some (remove c o)
  end.

(** A sequence of calls, each with the thread that makes it. *)
Fixpoint steps (c : t) (trace : list (positive * call)) : option t :=
  match trace with
  | [] => Some c
  | (me, k) :: trace =>
      match step c me k with
      | Some c => steps c trace
      | None => None
      end
  end.

Definition is_end_update (k : call) : bool :=
  match k with
  | end_update_call => true
  | _ => false
  end.

End run.

(** ** Invariants of the cache *)

Module invariant.
Import objects cache_provider.

(** The recorded holder, when there is one, owns the mutex. *)
Definition guard_consistent (c : t) : Prop :=
  ∀ thread, lock_holder c = Some thread → mtx_owner c = Some thread.

(** The objects the Owner Index lists under an owner. *)
Definition owned_by (c : t) (o : N) : list base_obj :=
  default [] (owner_idx c !! o).

(** Registry, Owner Index and Grid agree.
    - An object in the Registry is there under its own id, has an owner,
      is listed under that owner, and, when it has a position, is in
      every cell of its rectangle.
    - An object listed under an owner has that owner and is in the
      Registry; no object is listed twice.
    - An object in a cell covers that cell and is in the Registry. *)
Record consistent (c : t) : Prop := {
  registry_entry :
    ∀ i o, id_idx c !! i = Some o →
      id (fields o) = i ∧ owner (fields o) ≠ 0%N
      ∧ o ∈ owned_by c (owner (fields o))
      ∧ ∀ m, o = on_map m →
          ∀ cx cy, (cx, cy) ∈ footprint m → get_loc c cx cy = Some m;
  owner_entry :
    ∀ k o, o ∈ owned_by c k →
      owner (fields o) = k ∧ id_idx c !! id (fields o) = Some o;
  owner_entry_once : ∀ k, NoDup (owned_by c k);
  grid_entry :
    ∀ cx cy m, get_loc c cx cy = Some m →
      (cx, cy) ∈ footprint m
      ∧ id_idx c !! id (base m) = Some (on_map m)
}.

(** No two objects of the Registry are at one address. *)
Definition apart (c : t) : Prop :=
  ∀ i j o o', id_idx c !! i = Some o → id_idx c !! j = Some o' →
    address (fields o) = address (fields o') → o = o'.

(** The calls the design allows: an object that is added has an owner
    and an id that is not in use, and is a new object, at the address of
    no object of the Registry; an object that is removed is the one the
    Registry holds under its id, the pointer passed being the pointer
    stored. *)
Definition allowed (c : t) (k : run.call) : Prop :=
  match k with
  | run.add_call o =>
      owner (fields o) ≠ 0%N ∧ id_idx c !! id (fields o) = None
      ∧ map_Forall (λ _ o', address (fields o') ≠ address (fields o))
          (id_idx c)
  | run.remove_call o => id_idx c !! id (fields o) = Some o
  | _ => True
  end.

Fixpoint all_allowed (c : t) (trace : list (positive * run.call)) : Prop :=
  match trace with
  | [] => True
  | (me, k) :: trace =>
      allowed c k
      ∧ match run.step c me k with
        | Some c => all_allowed c trace
        | None => True
        end
  end.

#[global] Instance allowed_dec (c : t) (k : run.call) : Decision (allowed c k).
Proof. destruct k; simpl; apply _. Defined.

#[global] Instance all_allowed_dec (c : t)
    (trace : list (positive * run.call)) : Decision (all_allowed c trace).
Proof.
  revert c. induction trace as [| [me k] trace IH]; intros c; simpl;
    [apply _ |].
  destruct (run.step c me k); apply _.
Defined.

End invariant.

(** ** The cells a query visits *)

Module window.
Import cache_provider.

(** The cells [get_in_area] visits. *)
Definition get_in_area_cells (c : t) (x y width height : Z)
    : list (Z * Z) :=
  let '(x, y, end_x, end_y) := clamp c x y (x + width) (y + height) in
  scan x end_x (end_y - height) end_y.

(** The cells [get_users_with_los_at] and [is_location_in_los] visit
    around [(x, y)]. *)
Definition los_cells (c : t) (x y : Z) : list (Z * Z) :=
  let '(start_x, start_y, end_x, end_y) :=
    clamp c (x - los_radius c) (y - los_radius c)
            (x + los_radius c) (y + los_radius c) in
  scan start_x end_x start_y end_y.

End window.

(** ** Runs of the client-authentication index *)

Module clients.
Import processor_node.

Inductive call : Type :=
| add_client_call (id : N) (conn : positive)
| del_client_call (id : N) (conn : positive).

Section calls.
Context {H : Type}.

(** A sequence of [add_client] and [del_client] calls; it ends at the
    first call that throws or is undefined. *)
Fixpoint calls (n : t H) (l : list call) : outcome (t H) :=
  match l with
  | [] => returns n
  | add_client_call id conn :: l => calls (add_client n id conn) l
  | del_client_call id conn :: l =>
      match del_client n id conn with
      | returns n => calls n l
      | broker_node_down_exception => broker_node_down_exception
      | undefined => undefined
      end
  end.

(** The node as constructed, or after [start]. *)
Definition initial (started : bool) (workers : nat) (area_id : N)
    (auth unauth : gmap N (list H)) (conn : positive) : t H :=
  if started then start (new workers area_id auth unauth) conn
  else new workers area_id auth unauth.

End calls.

End clients.

(** ** Upkeep of the updatable index and of scopes *)

Module upkeep.
Import objects cache_provider.

(** The updatable index lists, once each, the objects of the Registry
    that are [updatable]. *)
Record updatables_listed (c : t) : Prop := {
  updatable_once : NoDup (updatable_idx c);
  updatable_entry :
    ∀ o, o ∈ updatable_idx c ↔
         id_idx c !! id (fields o) = Some o ∧ is_updatable (fields o) = true
}.

(** Whether a call is a mutation, as opposed to the opening or closing of
    a scope. *)
Definition is_mutation (k : run.call) : bool :=
  match k with
  | run.add_call _ | run.remove_call _ => true
  | _ => false
  end.

(** How many update scopes of thread [me] are open after the calls of a
    trace, [n] of them being open before: a [begin_update] of the thread
    opens one, an [end_update] of the thread closes one. *)
Fixpoint open_scopes (me : positive) (trace : list (positive * run.call))
    (n : nat) : nat :=
  match trace with
  | [] => n
  | (thread, k) :: trace =>
      open_scopes me trace
        (if decide (thread = me)
         then match k with
              | run.begin_update_call _ _ _ _ => S n
              | run.end_update_call => pred n
              | _ => n
              end
         else n)
  end.

(** The mutex is held as often as its owner has scopes open, and no other
    thread has one. *)
Definition scopes_counted (c : t) (open : positive → nat) : Prop :=
  match mtx_owner c with
  | None => ∀ thread, open thread = 0%nat
  | Some o =>
      open o = mtx_depth c ∧ (0 < mtx_depth c)%nat
      ∧ ∀ thread, thread ≠ o → open thread = 0%nat
  end.

(** The objects of the cache in the order of their insertion, as the
    calls of a trace leave them, [sofar] being there before: an object
    goes to the end when its [add] succeeds, and the object at an address
    goes when it is removed.  This is the order the design speaks of; it
    is kept apart from the indices of the cache. *)
Fixpoint insertion_order (c : t) (trace : list (positive * run.call))
    (sofar : list base_obj) : list base_obj :=
  match trace with
  | [] => sofar
  | (me, k) :: trace =>
      let sofar :=
        match k with
        | run.add_call o =>
            match (add c o).1 with
            | None => sofar ++ [o]
            | Some _ => sofar
            end
        | run.remove_call o =>
            filter (λ a, address (fields a) ≠ address (fields o)) sofar
        | _ => sofar
        end in
      match run.step c me k with
      | Some c => insertion_order c trace sofar
      | None => sofar
      end
  end.

(** The order of insertion and the indices agree: the objects inserted
    are in the Registry, each once, and the updatable index lists those of
    them that are [updatable], in the same order. *)
Record in_order (c : t) (l : list base_obj) : Prop := {
  inserted_once : NoDup l;
  inserted_entry : ∀ a, a ∈ l → id_idx c !! id (fields a) = Some a;
  inserted_updatable :
    updatable_idx c = filter (λ a, is_updatable (fields a) = true) l
}.

End upkeep.

(** ** Traffic of the router *)

Module traffic.
Import processor_node.

(** What reaches a node once it runs: requests and disconnects from the
    transport, and the calls of the public interface. *)
Inductive event : Type :=
| request_event (client : positive) (worker_num : nat) (category method : N)
    (parameters : data_stream)
| disconnect_event (client : positive)
| add_client_event (id : N) (conn : positive)
| del_client_event (id : N) (conn : positive)
| send_event (receipient_id : N) (notification : data_stream)
| send_to_broker_event (target_id : N) (message : data_stream).

Section handle.
Context {H : Type} `{!base_handler H}.

(** One event.  A request is given an empty response stream; the
    response goes to the transport and is not kept. *)
Definition handle_one (n : t H) (e : event) : outcome (t H) :=
  match e with
  | request_event client worker_num category method parameters =>
      match on_request n client worker_num category method parameters []
      with
      | returns (_, _, n) => returns n
      | broker_node_down_exception => broker_node_down_exception
      | undefined => undefined
      end
  | disconnect_event client => on_disconnect n client
  | add_client_event id conn => returns (add_client n id conn)
  | del_client_event id conn => del_client n id conn
  | send_event id notification => returns (send n id notification)
  | send_to_broker_event id message => returns (send_to_broker n id message)
  end.

(** A sequence of events; it ends at the first one that throws or is
    undefined. *)
Fixpoint handle (n : t H) (events : list event) : outcome (t H) :=
  match events with
  | [] => returns n
  | e :: events =>
      match handle_one n e with
      | returns n => handle n events
      | broker_node_down_exception => broker_node_down_exception
      | undefined => undefined
      end
  end.

(** The client-authentication index is tidy: identity 0 is no key and
    no key has an empty list of connections. *)
Definition tidy (n : t H) : Prop :=
  authenticated_clients n !! 0%N = None
  ∧ ∀ id conns, authenticated_clients n !! id = Some conns → conns ≠ [].

(** The connections registered under an identity. *)
Definition connections (n : t H) (id : N) : list positive :=
  default [] (authenticated_clients n !! id).

(** What stays true of a node whose broker connection is [conn]:
    the area id, a tidy index and, when [listed], the broker connection
    registered under the area id. *)
Definition kept (area : N) (listed : bool) (conn : positive) (n : t H)
    : Prop :=
  area_id n = area ∧ tidy n
  ∧ (listed = true → conn ∈ connections n area).

End handle.

End traffic.

(** ** The node instance ([GameServer::NodeInstance], [NodeInstance.h])

    The class of the earlier design: one database context per worker and
    a request callback that creates a handler per request and runs it in
    a transaction.  The handler class [BaseRequest], the database
    context, the result codes and the request server are declared in
    headers that are not part of the sources: they are the parameters of
    the embedding. *)

Module node_instance.

(** What has been written to the response [DataStream]: a result code or
    a byte of payload. *)
Inductive item : Type :=
| code (resultCode : N)
| byte (b : N).

(** [RequestServer::Client], as far as the callback reads it. *)
Record Client : Type := {
  authenticatedId : N;
  id : N;
  ipAddress : list N
}.

(** How [handler->process] ends: the result code, the value it leaves in
    [client.authenticatedId], the context and the handler. *)
Record processed (R T : Type) : Type := {
  resultCode : N;
  userId : N;
  after : T;
  handler : R
}.

Arguments resultCode {R T} _.
Arguments userId {R T} _.
Arguments after {R T} _.
Arguments handler {R T} _.

(** The interface [BaseRequest<T>]: [deserialize] has no result when it
    throws [ReadPastEndException]. *)
Class BaseRequest (R T : Type) : Type := {
  deserialize : R → list item → option R;
  process : R → N → N → list N → T → processed R T;
  serialize : R → list item → list item
}.

(** The database context: [commitTransaction] has its result on the
    right when it throws [SQLDatabase::Exception]. *)
Class DBContext (T : Type) : Type := {
  beginTransaction : T → T;
  commitTransaction : T → T + T;
  rollbackTransaction : T → T
}.

(** What [onRequest] leaves behind: its return value, the response, the
    context of the worker, the client, and whether the handler was
    deleted. *)
Record reply (T : Type) : Type := {
  returned : bool;
  response : list item;
  context : T;
  client : Client;
  handler_deleted : bool
}.

Arguments returned {T} _.
Arguments response {T} _.
Arguments context {T} _.
Arguments client {T} _.
Arguments handler_deleted {T} _.

Section instance.
Context {R T : Type} `{!BaseRequest R T} `{!DBContext T}.

(** [IResultCode::SUCCESS] and [IResultCode::SERVER_ERROR] *)
Variable SUCCESS SERVER_ERROR : N.

(** The loop of the constructor,
    [for (uint8 i = 0; i < this->workers; i++) dbConnections[i] = ...],
    with [workers] a [uint32]: [i] is incremented modulo 256.
    [contextCreator k] is the context that the call number [k] of the
    context creator returns.  The loop is run for at most [fuel]
    iterations; [None] when it has not ended by then. *)
Fixpoint create_contexts (fuel : nat) (contextCreator : N → T)
    (workers i calls : N) (dbConnections : gmap N T) : option (gmap N T) :=
  match fuel with
  | O => None
  | S fuel =>
      if decide (i < workers)%N
      then create_contexts fuel contextCreator workers ((i + 1) mod 256)%N
             (calls + 1)%N (<[i := contextCreator calls]> dbConnections)
      else Some dbConnections
  end.

(** [NodeInstance::onRequest].  [handlerCreator] gives the value it
    leaves in [resultCode], which holds [SUCCESS] when it is called, and
    the handler it returns, [None] for a null pointer; a null handler
    that is used is undefined. *)
Definition onRequest (handlerCreator : N → N → N → N * option R)
    (context : T) (client : Client) (requestCategory requestMethod : N)
    (parameters response : list item) : option (reply T) :=
  let '(resultCode, handler) :=
    handlerCreator requestCategory requestMethod (authenticatedId client) in
  if decide (resultCode ≠ SUCCESS)
  then Some {| returned := true; response := response ++ [code resultCode];
               context := context; client := client;
               handler_deleted := false |}
  else
    match handler with
    | None => None
    | Some handler =>
        match deserialize handler parameters with
        | None =>
            Some {| returned := true;
                    response := response ++ [code resultCode];
                    context := context; client := client;
                    handler_deleted := false |}
        | Some handler =>
            let context := beginTransaction context in
            let done :=
              process handler (authenticatedId client) (id client)
                (ipAddress client) context in
            let '(resultCode, context) :=
              match commitTransaction (after done) with
              | inl context => (node_instance.resultCode done, context)
              | inr context => (SERVER_ERROR, rollbackTransaction context)
              end in
            let response := response ++ [code resultCode] in
            let response :=
              if decide (resultCode = SUCCESS)
              then serialize (node_instance.handler done) response
              else response in
            Some {| returned := true; response := response;
                    context := context;
                    client := {| authenticatedId := userId done;
                                 id := id client;
                                 ipAddress := ipAddress client |};
                    handler_deleted := true |}
        end
    end.

End instance.

End node_instance.

(** ** Scenarios *)

Module scenario.
Import objects.

(** Bounds [(0, 0, 10, 10)] and a line-of-sight radius of 2. *)
Definition area : cache_provider.t := cache_provider.new 0 0 10 10 2.

Definition O1 : map_obj :=
  {| base := {| id := 1; owner := 7; is_updatable := false; address := 1 |};
     x := 5; y := 5; width := 1; height := 1 |}.

(** An object whose rectangle shares the cell [(5, 5)] with [O1]. *)
Definition O2 : map_obj :=
  {| base := {| id := 2; owner := 8; is_updatable := true; address := 2 |};
     x := 4; y := 4; width := 2; height := 2 |}.

(** An object in the last column and row of the area. *)
Definition corner : map_obj :=
  {| base := {| id := 3; owner := 7; is_updatable := false; address := 3 |};
     x := 9; y := 9; width := 1; height := 1 |}.

(** An object without owner and without position. *)
Definition unowned : base_obj :=
  plain {| id := 1; owner := 0; is_updatable := false; address := 4 |}.

(** An object that was never added. *)
Definition stranger : base_obj :=
  plain {| id := 9; owner := 7; is_updatable := false; address := 5 |}.

Definition ticking : base_obj :=
  plain {| id := 4; owner := 7; is_updatable := true; address := 6 |}.

Definition with_O1 : cache_provider.t :=
  (cache_provider.add area (on_map O1)).2.

Definition with_corner : cache_provider.t :=
  (cache_provider.add area (on_map corner)).2.

(** A handler that does what its fields say: whether the parameters can
    be read, whether processing meets a synchronization conflict, the
    result code, the identity it leaves, and the response it encodes. *)
Record scripted : Type := {
  readable : bool;
  conflict : bool;
  result : result_codes.result_code;
  identity : N;
  answer : data_stream
}.

#[global] Instance scripted_handler : base_handler scripted := {|
  deserialize h _ :=
    if readable h then parsed h else read_past_end_exception h;
  process h _ :=
    if conflict h then synchronization_exception h
    else finished (result h) (identity h) h;
  serialize h response := response ++ answer h
|}.

(** Logs in as 42 and asks for no response to be sent. *)
Definition quiet_login : scripted :=
  {| readable := true; conflict := false;
     result := result_codes.no_response; identity := 42; answer := [] |}.

Definition login : scripted :=
  {| readable := true; conflict := false;
     result := result_codes.success; identity := 42;
     answer := [byte_written 1] |}.

Definition logout : scripted :=
  {| readable := true; conflict := false;
     result := result_codes.success; identity := 0; answer := [] |}.

Definition contended : scripted :=
  {| readable := true; conflict := true;
     result := result_codes.success; identity := 42; answer := [] |}.

(** A node for area 5 with one worker; request type [(0, 1)] is the
    quiet login, [(0, 2)] the login, [(0, 3)] a contended handler for
    connections without identity; [(0, 1)] is the logout for the
    others. *)
Definition node : processor_node.t scripted :=
  processor_node.start
    (processor_node.new 1 5
       {[ 1%N := [logout] ]}
       {[ 1%N := [quiet_login]; 2%N := [login]; 3%N := [contended] ]})
    1%positive.

(** Thread 1 opens an update scope and adds an updatable object. *)
Definition scoped : cache_provider.t :=
  default area
    (run.steps area
       [(1%positive, run.begin_update_call 0 0 10 10);
        (1%positive, run.add_call ticking)]).

(** Thread 1 adds the unowned object and removes it again, all within
    one update scope. *)
Definition unowned_added_and_removed : option cache_provider.t :=
  run.steps area
    [(1%positive, run.begin_update_call 0 0 10 10);
     (1%positive, run.add_call unowned);
     (1%positive, run.remove_call unowned);
     (1%positive, run.end_update_call)].

(** Thread 1, within one update scope: [O1] is placed, [O2] is refused,
    an updatable object is added, [O1] is removed. *)
Definition busy_trace : list (positive * run.call) :=
  [(1%positive, run.begin_update_call 0 0 10 10);
   (1%positive, run.add_call (on_map O1));
   (1%positive, run.add_call (on_map O2));
   (1%positive, run.add_call ticking);
   (1%positive, run.remove_call (on_map O1));
   (1%positive, run.end_update_call)].

Definition busy : cache_provider.t :=
  default area (run.steps area busy_trace).

(** [O1] added and removed again. *)
Definition without_O1 : cache_provider.t :=
  cache_provider.remove with_O1 (on_map O1).

(** Thread 1 has opened an update scope on the empty area. *)
Definition opened : cache_provider.t :=
  cache_provider.with_mtx area (Some 1%positive) 1 (Some 1%positive).

(** The handler tables of [node]. *)
Definition for_clients : gmap N (list scripted) := {[ 1%N := [logout] ]}.

Definition for_guests : gmap N (list scripted) :=
  {[ 1%N := [quiet_login]; 2%N := [login]; 3%N := [contended] ]}.

(** Connection 2 logs in as 42, a notification is sent to 42, and
    connection 2 disconnects. *)
Definition session : list traffic.event :=
  [traffic.request_event 2 0 0 2 [];
   traffic.send_event 42 [byte_written 7];
   traffic.disconnect_event 2].

Definition after_session : processor_node.t scripted :=
  match traffic.handle node session with
  | returns n => n
  | _ => node
  end.

(** [node] once connection 2 has logged in as 42. *)
Definition logged_in : processor_node.t scripted :=
  match processor_node.on_request node 2 0 0 2 [] [] with
  | returns (_, _, n) => n
  | _ => node
  end.

(** A database context that keeps a journal of its transactions and
    refuses to commit when told so. *)
Inductive entry : Type :=
| began
| committed
| commit_refused
| rolled_back.

Record database : Type := {
  refusing : bool;
  journal : list entry
}.

#[global] Instance database_context : node_instance.DBContext database := {|
  node_instance.beginTransaction d :=
    {| refusing := refusing d; journal := journal d ++ [began] |};
  node_instance.commitTransaction d :=
    if refusing d
    then inr {| refusing := refusing d;
                journal := journal d ++ [commit_refused] |}
    else inl {| refusing := refusing d; journal := journal d ++ [committed] |};
  node_instance.rollbackTransaction d :=
    {| refusing := refusing d; journal := journal d ++ [rolled_back] |}
|}.

(** A request handler that reads its parameters when there are any and
    answers with code 0 and one byte. *)
Inductive echo : Type :=
| echo_request.

#[global] Instance echo_handler : node_instance.BaseRequest echo database := {|
  node_instance.deserialize h parameters :=
    match parameters with
    | [] => None
    | _ => Some h
    end;
  node_instance.process h userId _ _ d :=
    {| node_instance.resultCode := 0; node_instance.userId := userId;
       node_instance.after := d; node_instance.handler := h |};
  node_instance.serialize h response := response ++ [node_instance.byte 1]
|}.

(** The handler creator: every request gets an [echo] handler. *)
Definition echo_creator (category method userId : N) : N * option echo :=
  (0%N, Some echo_request).

Definition guest : node_instance.Client :=
  {| node_instance.authenticatedId := 0; node_instance.id := 2;
     node_instance.ipAddress := [127; 0; 0; 1]%N |}.

End scenario.

(** * Properties of the cache *)

Module cache_facts.
Import objects cache_provider invariant window.

(** ** Loops *)

Lemma elem_of_range (lo hi c : Z) : c ∈ range lo hi ↔ lo ≤ c < hi.
Proof. unfold range. rewrite elem_of_seqZ. lia. Qed.

Lemma elem_of_scan (x0 x1 y0 y1 x y : Z) :
  (x, y) ∈ scan x0 x1 y0 y1 ↔ (x0 ≤ x < x1) ∧ (y0 ≤ y < y1).
Proof.
  unfold scan. rewrite list_elem_of_bind. split.
  - intros (a & Hin & Ha). apply list_elem_of_bind in Hin.
    destruct Hin as (b & Hb & Hy). apply list_elem_of_singleton in Hb.
    inversion Hb; subst. by rewrite <- !elem_of_range.
  - intros [Hx Hy]. exists x. split; [| by apply elem_of_range].
    apply list_elem_of_bind. exists y. split; [by left|].
    by apply elem_of_range.
Qed.

Lemma elem_of_footprint (m : map_obj) (cx cy : Z) :
  (cx, cy) ∈ footprint m ↔
  (x m ≤ cx < x m + objects.width m) ∧ (y m ≤ cy < y m + objects.height m).
Proof. apply elem_of_scan. Qed.

(** ** The grid under [add_internal] and [remove_internal] *)

Lemma occupied_somewhere (c : t) (cells : list (Z * Z)) :
  existsb (λ '(x, y), bool_decide (get_loc c x y ≠ None)) cells = true ↔
  ∃ x y, (x, y) ∈ cells ∧ get_loc c x y ≠ None.
Proof.
  rewrite existsb_exists. split.
  - intros ([x y] & Hin & Hocc). exists x, y.
    apply list_elem_of_In in Hin. by apply bool_decide_eq_true in Hocc.
  - intros (x & y & Hin & Hocc). exists (x, y).
    split; [by apply list_elem_of_In | by apply bool_decide_eq_true].
Qed.

(** Writing an object to a list of cells: the cells written hold the
    object, the others keep what they held. *)
Lemma get_loc_write (m : map_obj) (cells : list (Z * Z)) (c : t)
    (cx cy : Z) :
  get_loc (foldl (λ c '(x, y), set_loc c x y (Some m)) c cells) cx cy =
  if decide ((cx, cy) ∈ cells) then Some m else get_loc c cx cy.
Proof.
  revert c. induction cells as [| [x y] cells IH]; intros c; cbn [foldl].
  - rewrite decide_False; [done | apply not_elem_of_nil].
  - rewrite IH. destruct (decide ((cx, cy) ∈ cells)) as [Hin | Hout].
    + rewrite decide_True; [done | by right].
    + unfold get_loc, set_loc; simpl.
      destruct (decide ((cx, cy) = (x, y))) as [-> | Hne].
      * rewrite lookup_insert_eq. rewrite decide_True; [done | by left].
      * rewrite lookup_insert_ne by done.
        rewrite decide_False; [done |].
        intros [? | ?]%elem_of_cons; congruence.
Qed.

(** Clearing a list of cells. *)
Lemma get_loc_clear (cells : list (Z * Z)) (c : t) (cx cy : Z) :
  get_loc (foldl (λ c '(x, y), set_loc c x y None) c cells) cx cy =
  if decide ((cx, cy) ∈ cells) then None else get_loc c cx cy.
Proof.
  revert c. induction cells as [| [x y] cells IH]; intros c; cbn [foldl].
  - rewrite decide_False; [done | apply not_elem_of_nil].
  - rewrite IH. destruct (decide ((cx, cy) ∈ cells)) as [Hin | Hout].
    + rewrite decide_True; [done | by right].
    + unfold get_loc, set_loc; simpl.
      destruct (decide ((cx, cy) = (x, y))) as [-> | Hne].
      * rewrite lookup_delete_eq. rewrite decide_True; [done | by left].
      * rewrite lookup_delete_ne by done.
        rewrite decide_False; [done |].
        intros [? | ?]%elem_of_cons; congruence.
Qed.

(** The loops of the mutations touch the grid only. *)
Lemma write_frame (m : option map_obj) (cells : list (Z * Z)) (c : t) :
  let c' := foldl (λ c '(x, y), set_loc c x y m) c cells in
  id_idx c' = id_idx c ∧ owner_idx c' = owner_idx c
  ∧ updatable_idx c' = updatable_idx c ∧ lock_holder c' = lock_holder c
  ∧ mtx_owner c' = mtx_owner c ∧ mtx_depth c' = mtx_depth c.
Proof.
  revert c. induction cells as [| [x y] cells IH]; intros c; simpl;
    [done |].
  specialize (IH (set_loc c x y m)). simpl in IH. apply IH.
Qed.

(** A placement that succeeds found every cell of the rectangle free and
    leaves the object in each of them. *)
Lemma add_internal_map_placed (c c' : t) (m : map_obj) :
  add_internal_map c m = (true, c') →
  (∀ cx cy, (cx, cy) ∈ footprint m → get_loc c cx cy = None)
  ∧ (∀ cx cy, get_loc c' cx cy =
              if decide ((cx, cy) ∈ footprint m) then Some m
              else get_loc c cx cy).
Proof.
  unfold add_internal_map.
  destruct (existsb _ _) eqn:Hocc; [done |].
  intros [= <-]. split.
  - intros cx cy Hin. destruct (get_loc c cx cy) eqn:Hloc; [| done].
    assert (existsb (λ '(x, y), bool_decide (get_loc c x y ≠ None))
              (footprint m) = true) as Habs; [| congruence].
    apply occupied_somewhere. exists cx, cy. split; [done | congruence].
  - intros cx cy. apply get_loc_write.
Qed.

(** A placement that meets an occupied cell changes nothing. *)
Lemma add_internal_map_conflict (c : t) (m : map_obj) (cx cy : Z) :
  (cx, cy) ∈ footprint m → get_loc c cx cy ≠ None →
  add_internal_map c m = (false, c).
Proof.
  intros Hin Hocc. unfold add_internal_map.
  assert (existsb (λ '(x, y), bool_decide (get_loc c x y ≠ None))
            (footprint m) = true) as ->; [| done].
  apply occupied_somewhere. by exists cx, cy.
Qed.

(** ** Placement *)

(** C1: [add] of a positioned object [B] whose rectangle covers a cell
    that an earlier object occupies fails with [PlacementConflict], and
    the cache it returns is the cache it was given: the Registry, the
    Owner Index, the Grid and the updatable index are the same, so every
    query answers as before.  The placement step [add_internal] itself
    reports [false] without a write. *)
Theorem add_conflict_unchanged (c : t) (B : map_obj) (cx cy : Z) :
  (cx, cy) ∈ footprint B → get_loc c cx cy ≠ None →
  add_internal_map c B = (false, c)
  ∧ add c (on_map B) = (Some PlacementConflict, c).
Proof.
  intros Hin Hocc.
  pose proof (add_internal_map_conflict c B cx cy Hin Hocc) as Hfail.
  split; [done |]. unfold add; simpl. by rewrite Hfail.
Qed.

Lemma add_conflict_unchanged_witness :
  add scenario.with_O1 (on_map scenario.O2)
  = (Some PlacementConflict, scenario.with_O1).
Proof.
  refine (proj2 (add_conflict_unchanged scenario.with_O1 scenario.O2 5 5 _ _)).
  - apply elem_of_footprint. simpl. lia.
  - by vm_compute.
Defined.

(** Placement exclusivity: once [A] has been placed, the [add] of an
    object [B] that shares a cell with [A] fails with [PlacementConflict]
    and returns the cache as it was. *)
Theorem add_overlapping_fails (c c' : t) (A B : map_obj) (cx cy : Z) :
  add c (on_map A) = (None, c') →
  (cx, cy) ∈ footprint A → (cx, cy) ∈ footprint B →
  add c' (on_map B) = (Some PlacementConflict, c').
Proof.
  unfold add at 1; simpl.
  destruct (add_internal_map c A) as [[|] c1] eqn:Hplace; [| done].
  intros [= <-] HA HB.
  apply add_internal_map_placed in Hplace as [_ Hgrid].
  unfold add; simpl.
  rewrite (add_internal_map_conflict _ B cx cy HB); [done |].
  unfold get_loc, add_internal; simpl.
  specialize (Hgrid cx cy). unfold get_loc in Hgrid. rewrite Hgrid.
  by rewrite decide_True.
Qed.

Lemma add_overlapping_fails_witness :
  add scenario.with_O1 (on_map scenario.O2)
  = (Some PlacementConflict, scenario.with_O1).
Proof.
  apply (add_overlapping_fails scenario.area scenario.with_O1 scenario.O1
           scenario.O2 5 5).
  - vm_compute. reflexivity.
  - apply elem_of_footprint. simpl. lia.
  - apply elem_of_footprint. simpl. lia.
Defined.

(** ** The guard and [get_next_updatable] *)

(** The mutations leave the mutex and the recorded holder alone. *)
Lemma add_guard (c : t) (o : base_obj) :
  lock_holder (add c o).2 = lock_holder c
  ∧ mtx_owner (add c o).2 = mtx_owner c.
Proof.
  unfold add. destruct (as_map_obj o) as [m |]; [| done].
  unfold add_internal_map. destruct (existsb _ _); [done |]. simpl.
  pose proof (write_frame (Some m) (footprint m) c) as Hframe.
  simpl in Hframe. tauto.
Qed.

Lemma remove_guard (c : t) (o : base_obj) :
  lock_holder (remove c o) = lock_holder c
  ∧ mtx_owner (remove c o) = mtx_owner c.
Proof.
  unfold remove. destruct (as_map_obj o) as [m |]; [| done].
  unfold remove_internal_map.
  pose proof (write_frame None (footprint m) (remove_internal c o))
    as Hframe.
  simpl in Hframe. tauto.
Qed.

Lemma step_guard_consistent (c c' : t) (me : positive) (k : run.call) :
  guard_consistent c → run.step c me k = Some c' → guard_consistent c'.
Proof.
  intros Hinv. destruct k as [x y w h | | o | o]; simpl.
  - unfold begin_update, lock. destruct (mtx_owner c) as [o |].
    + case_decide; [| done]. intros [= <-] thread; simpl. done.
    + intros [= <-] thread; simpl. done.
  - unfold end_update, unlock. destruct (mtx_owner c) as [o |]; [| done].
    case_decide; [| done].
    destruct (mtx_depth c) as [| [| d]]; intros [= <-] thread; done.
  - intros [= <-] thread. destruct (add_guard c o) as [-> ->]. apply Hinv.
  - intros [= <-] thread. destruct (remove_guard c o) as [-> ->].
    apply Hinv.
Qed.

Lemma steps_guard_consistent (trace : list (positive * run.call))
    (c c' : t) :
  guard_consistent c → run.steps c trace = Some c' → guard_consistent c'.
Proof.
  revert c. induction trace as [| [me k] trace IH]; intros c Hinv; simpl.
  - by intros [= <-].
  - destruct (run.step c me k) as [c1 |] eqn:Hstep; [| done].
    apply IH. by eapply step_guard_consistent.
Qed.

(** Inside a scope: as long as no [end_update] is called, the thread
    that opened it stays the recorded holder. *)
Lemma steps_in_scope (scope : list (positive * run.call)) (c c' : t)
    (me : positive) :
  lock_holder c = Some me → mtx_owner c = Some me →
  Forall (λ e, run.is_end_update e.2 = false) scope →
  run.steps c scope = Some c' →
  lock_holder c' = Some me.
Proof.
  revert c. induction scope as [| [thread k] scope IH];
    intros c Hholder Howner Hscope; simpl.
  - by intros [= <-].
  - apply Forall_cons in Hscope as [Hk Hscope]. simpl in Hk.
    destruct k as [x y w h | | o | o]; simpl; [| done | |].
    + unfold begin_update, lock. rewrite Howner.
      case_decide as Hme; [| done]. subst thread. by apply IH.
    + destruct (add_guard c o) as [Hh Ho]. apply IH; congruence.
    + destruct (remove_guard c o) as [Hh Ho]. apply IH; congruence.
Qed.

Lemma begin_update_holds (c c' : t) (me : positive) (x y w h : Z) :
  begin_update c me x y w h = Some c' →
  lock_holder c' = Some me ∧ mtx_owner c' = Some me.
Proof.
  unfold begin_update, lock. destruct (mtx_owner c) as [o |].
  - case_decide; [| done]. by intros [= <-].
  - by intros [= <-].
Qed.

Lemma get_next_updatable_holder (c : t) (me : positive) (position : nat) :
  lock_holder c = Some me →
  get_next_updatable c me position = inr (updatable_idx c !! position).
Proof.
  intros Hholder. unfold get_next_updatable.
  rewrite decide_False by (intros Hne; by apply Hne).
  case_decide as Hpos; [done |].
  by rewrite lookup_ge_None_2 by lia.
Qed.

(** ** Index consistency *)

Lemma erase_first_subseteq (o a : base_obj) (v : list base_obj) :
  a ∈ erase_first o v → a ∈ v.
Proof.
  induction v as [| b v IH]; simpl; [done |].
  case_decide; [by right |].
  intros [-> | Hin]%elem_of_cons; [by left | right; by apply IH].
Qed.

Lemma erase_first_other (o a : base_obj) (v : list base_obj) :
  a ∈ v → address (fields a) ≠ address (fields o) → a ∈ erase_first o v.
Proof.
  induction v as [| b v IH]; simpl; [done |].
  intros [-> | Hin]%elem_of_cons Hne.
  - rewrite decide_False by done. by left.
  - case_decide; [done | right; by apply IH].
Qed.

Lemma erase_first_NoDup (o : base_obj) (v : list base_obj) :
  NoDup v → NoDup (erase_first o v).
Proof.
  induction 1 as [| b v Hb Hv IH]; simpl; [constructor |].
  case_decide as Hbo; [done |].
  constructor; [| done]. intros Hin. by apply Hb, (erase_first_subseteq o).
Qed.

(** Where the address of [o] is that of [o] alone, erasing the pointer
    erases [o]. *)
Lemma erase_first_gone (o : base_obj) (v : list base_obj) :
  (∀ a, a ∈ v → address (fields a) = address (fields o) → a = o) →
  NoDup v → o ∉ erase_first o v.
Proof.
  intros Halone. induction 1 as [| b v Hb Hv IH]; simpl.
  - apply not_elem_of_nil.
  - case_decide as Hbo.
    + rewrite <- (Halone b) by (by left || done). done.
    + intros [-> | Hin]%elem_of_cons; [done |].
      revert Hin. apply IH. intros a Ha. apply Halone. by right.
Qed.

Lemma owned_by_add_internal (c : t) (o : base_obj) (k : N) :
  owned_by (add_internal c o) k =
  if decide (k = owner (fields o)) then owned_by c k ++ [o] else owned_by c k.
Proof.
  unfold owned_by, add_internal; simpl. case_decide as Hk.
  - subst k. by rewrite lookup_insert_eq.
  - by rewrite lookup_insert_ne.
Qed.

Lemma owned_by_remove_internal (c : t) (o : base_obj) (k : N) :
  owner (fields o) ≠ 0%N →
  owned_by (remove_internal c o) k =
  if decide (k = owner (fields o)) then erase_first o (owned_by c k)
  else owned_by c k.
Proof.
  intros Howner. unfold owned_by, remove_internal; simpl.
  rewrite decide_True by done. case_decide as Hk.
  - subst k. by rewrite lookup_insert_eq.
  - by rewrite lookup_insert_ne.
Qed.

(** What a successful [add] does to the three indices. *)
Lemma add_done (c c' : t) (o : base_obj) :
  add c o = (None, c') →
  id_idx c' = <[id (fields o) := o]> (id_idx c)
  ∧ (∀ k, owned_by c' k =
          if decide (k = owner (fields o)) then owned_by c k ++ [o]
          else owned_by c k)
  ∧ match as_map_obj o with
    | Some m =>
        (∀ cx cy, (cx, cy) ∈ footprint m → get_loc c cx cy = None)
        ∧ (∀ cx cy, get_loc c' cx cy =
                    if decide ((cx, cy) ∈ footprint m) then Some m
                    else get_loc c cx cy)
    | None => ∀ cx cy, get_loc c' cx cy = get_loc c cx cy
    end.
Proof.
  unfold add. destruct (as_map_obj o) as [m |] eqn:Hmap.
  - destruct (add_internal_map c m) as [[|] c1] eqn:Hplace; [| done].
    intros [= <-].
    pose proof Hplace as Hgrid. apply add_internal_map_placed in Hgrid.
    assert (id_idx c1 = id_idx c ∧ owner_idx c1 = owner_idx c) as [Hid Hown].
    { revert Hplace. unfold add_internal_map.
      destruct (existsb _ _); [done |]. intros [= <-].
      pose proof (write_frame (Some m) (footprint m) c) as Hframe.
      simpl in Hframe. tauto. }
    split; [simpl; by rewrite Hid |]. split.
    + intros k. rewrite owned_by_add_internal. unfold owned_by.
      by rewrite Hown.
    + exact Hgrid.
  - intros [= <-]. split; [done |]. split; [| done].
    intros k. apply owned_by_add_internal.
Qed.

Lemma as_map_obj_Some (o : base_obj) (m : map_obj) :
  as_map_obj o = Some m ↔ o = on_map m.
Proof. destruct o; simpl; split; congruence. Qed.

Lemma add_consistent (c c' : t) (o : base_obj) :
  consistent c → allowed c (run.add_call o) →
  add c o = (None, c') → consistent c'.
Proof.
  intros [Hreg Hown Hdup Hgrid] (Howner & Hfresh & _) Hadd.
  apply add_done in Hadd as (Hid & Hlist & Hloc).
  (* the cells of the new object were free, so no old object is there *)
  assert (∀ cx cy, get_loc c' cx cy = get_loc c cx cy
                   ∨ (get_loc c cx cy = None ∧ ∃ m, o = on_map m
                        ∧ (cx, cy) ∈ footprint m
                        ∧ get_loc c' cx cy = Some m)) as Hcell.
  { intros cx cy. destruct (as_map_obj o) as [m |] eqn:Hmap.
    - destruct Hloc as [Hfree Hloc]. rewrite Hloc. case_decide as Hin.
      + right. split; [by apply Hfree |]. exists m.
        by apply as_map_obj_Some in Hmap.
      + by left.
    - left. apply Hloc. }
  split.
  - intros i o' Hi. rewrite Hid in Hi.
    destruct (decide (id (fields o) = i)) as [<- | Hne].
    + rewrite lookup_insert_eq in Hi. injection Hi as <-.
      split; [done |]. split; [done |]. split.
      * rewrite Hlist, decide_True by done.
        apply elem_of_app. right. by apply list_elem_of_singleton.
      * intros m ->. simpl in Hloc. destruct Hloc as [_ Hloc].
        intros cx cy Hin. by rewrite Hloc, decide_True.
    + rewrite lookup_insert_ne in Hi by done.
      destruct (Hreg i o' Hi) as (Hid' & Howner' & Hin' & Hcells).
      split; [done |]. split; [done |]. split.
      * rewrite Hlist. case_decide; [| done]. apply elem_of_app. by left.
      * intros m' -> cx cy Hin. specialize (Hcells m' eq_refl cx cy Hin).
        destruct (Hcell cx cy) as [-> | [Hfree _]]; [done | congruence].
  - intros k o' Hin. rewrite Hlist in Hin. rewrite Hid.
    assert (o' = o ∧ k = owner (fields o) ∨ o' ∈ owned_by c k)
      as [[-> ->] | Hold].
    { case_decide; [| by right].
      apply elem_of_app in Hin as [Hin | Hin%list_elem_of_singleton];
        [by right | by left]. }
    + split; [done | by rewrite lookup_insert_eq].
    + destruct (Hown k o' Hold) as [Hk Hid'].
      split; [done |]. rewrite lookup_insert_ne; [done |]. congruence.
  - intros k. rewrite Hlist. case_decide as Hk; [| done].
    apply NoDup_app. split; [done |]. split; [| apply NoDup_singleton].
    intros o' Hin ->%list_elem_of_singleton.
    destruct (Hown k o Hin) as [_ Hid']. congruence.
  - intros cx cy m Hm. rewrite Hid.
    destruct (Hcell cx cy) as [Hsame | (_ & m' & -> & Hin & Hnew)].
    + rewrite Hsame in Hm. destruct (Hgrid cx cy m Hm) as [Hin Hid'].
      split; [done |]. rewrite lookup_insert_ne; [done |].
      simpl in *. congruence.
    + assert (m = m') as -> by congruence.
      split; [done |]. simpl. by rewrite lookup_insert_eq.
Qed.

(** What [remove] does to the three indices, for an object with an
    owner. *)
Lemma remove_done (c : t) (o : base_obj) :
  owner (fields o) ≠ 0%N →
  id_idx (remove c o) = delete (id (fields o)) (id_idx c)
  ∧ (∀ k, owned_by (remove c o) k =
          if decide (k = owner (fields o)) then erase_first o (owned_by c k)
          else owned_by c k)
  ∧ (∀ cx cy, get_loc (remove c o) cx cy =
              match as_map_obj o with
              | Some m =>
                  if decide ((cx, cy) ∈ footprint m) then None
                  else get_loc c cx cy
              | None => get_loc c cx cy
              end).
Proof.
  intros Howner. unfold remove. destruct (as_map_obj o) as [m |] eqn:Hmap.
  - unfold remove_internal_map.
    pose proof (write_frame None (footprint m) (remove_internal c o))
      as Hframe.
    simpl in Hframe. destruct Hframe as (Hid & Hown & _).
    split; [by rewrite Hid |]. split.
    + intros k. rewrite <- owned_by_remove_internal by done.
      unfold owned_by. by rewrite Hown.
    + intros cx cy. by rewrite get_loc_clear.
  - split; [done |]. split; [| done].
    intros k. by apply owned_by_remove_internal.
Qed.

Lemma remove_grid (c : t) (o : base_obj) :
  id_idx (remove c o) = delete (id (fields o)) (id_idx c)
  ∧ (∀ cx cy,
       get_loc (remove c o) cx cy =
       match as_map_obj o with
       | Some m =>
           if decide ((cx, cy) ∈ footprint m) then None
           else get_loc c cx cy
       | None => get_loc c cx cy
       end).
Proof.
  unfold remove. destruct (as_map_obj o) as [m |] eqn:Hmap; [| done].
  unfold remove_internal_map.
  pose proof (write_frame None (footprint m) (remove_internal c o))
    as Hframe.
  simpl in Hframe. destruct Hframe as (Hid & _).
  split; [by rewrite Hid |]. intros cx cy. by rewrite get_loc_clear.
Qed.

Lemma add_apart (c c' : t) (o : base_obj) :
  apart c → allowed c (run.add_call o) → add c o = (None, c') → apart c'.
Proof.
  intros Hapart (_ & _ & Hnew) Hadd.
  apply add_done in Hadd as (Hid & _). unfold apart. rewrite Hid.
  intros i j a b Ha Hb Haddr.
  destruct (decide (id (fields o) = i)) as [<- | Hi];
    destruct (decide (id (fields o) = j)) as [<- | Hj].
  - rewrite lookup_insert_eq in Ha, Hb. congruence.
  - rewrite lookup_insert_eq in Ha. rewrite lookup_insert_ne in Hb by done.
    injection Ha as <-. by destruct (Hnew j b Hb).
  - rewrite lookup_insert_eq in Hb. rewrite lookup_insert_ne in Ha by done.
    injection Hb as <-. by destruct (Hnew i a Ha).
  - rewrite lookup_insert_ne in Ha, Hb by done. by apply (Hapart i j).
Qed.

Lemma remove_apart (c : t) (o : base_obj) : apart c → apart (remove c o).
Proof.
  intros Hapart i j a b. destruct (remove_grid c o) as [-> _].
  intros [_ Ha]%lookup_delete_Some [_ Hb]%lookup_delete_Some.
  by apply (Hapart i j).
Qed.

Lemma remove_consistent (c : t) (o : base_obj) :
  consistent c → apart c → allowed c (run.remove_call o) →
  consistent (remove c o).
Proof.
  intros [Hreg Hown Hdup Hgrid] Hapart Hstored. simpl in Hstored.
  destruct (Hreg _ _ Hstored) as (_ & Howner & Hlisted & Hcells).
  destruct (remove_done c o Howner) as (Hid & Hlist & Hloc).
  (* a cell that is cleared held the object that is removed *)
  assert (∀ cx cy m', get_loc c cx cy = Some m' → on_map m' ≠ o →
                      get_loc (remove c o) cx cy = Some m') as Hkept.
  { intros cx cy m' Hm' Hne. rewrite Hloc.
    destruct (as_map_obj o) as [m |] eqn:Hmap; [| done].
    apply as_map_obj_Some in Hmap. subst o.
    case_decide as Hin; [| done].
    rewrite (Hcells m eq_refl cx cy Hin) in Hm'. congruence. }
  split.
  - intros i o' Hi. rewrite Hid in Hi.
    apply lookup_delete_Some in Hi as [Hne Hi].
    destruct (Hreg i o' Hi) as (Hid' & Howner' & Hin' & Hcells').
    assert (o' ≠ o) as Hdiff by congruence.
    split; [done |]. split; [done |]. split.
    + rewrite Hlist. case_decide; [| done].
      apply erase_first_other; [done |]. intros Haddr.
      by apply Hdiff, (Hapart i (id (fields o))).
    + intros m' -> cx cy Hin. apply Hkept; [| done]. by apply Hcells'.
  - intros k o' Hin. rewrite Hlist in Hin. rewrite Hid.
    assert (o' ∈ owned_by c k ∧ o' ≠ o) as [Hold Hdiff].
    { case_decide as Hk.
      - split; [by eapply erase_first_subseteq |]. intros ->.
        revert Hin. apply erase_first_gone; [| apply Hdup].
        intros a Ha Haddr. destruct (Hown k a Ha) as [_ Hrega].
        by apply (Hapart (id (fields a)) (id (fields o))).
      - split; [done |]. intros ->.
        destruct (Hown k o Hin) as [Hk' _]. congruence. }
    destruct (Hown k o' Hold) as [Hk Hid'].
    split; [done |]. rewrite lookup_delete_ne; [done |].
    intros Heq. rewrite <- Heq in Hid'. congruence.
  - intros k. rewrite Hlist. case_decide; [| done].
    by apply erase_first_NoDup.
  - intros cx cy m' Hm'. rewrite Hid.
    assert (get_loc c cx cy = Some m' ∧ on_map m' ≠ o) as [Hold Hdiff].
    { rewrite Hloc in Hm'. destruct (as_map_obj o) as [m |] eqn:Hmap.
      - case_decide as Hin; [done |]. split; [done |].
        apply as_map_obj_Some in Hmap. subst o. intros [= ->].
        by destruct (Hgrid cx cy m Hm').
      - split; [done |]. intros <-. done. }
    destruct (Hgrid cx cy m' Hold) as [Hin Hid'].
    split; [done |]. rewrite lookup_delete_ne; [done |].
    intros Heq. rewrite <- Heq in Hid'. simpl in Hid'. congruence.
Qed.

Lemma consistent_same_indices (c c' : t) :
  id_idx c' = id_idx c → owner_idx c' = owner_idx c →
  loc_idx c' = loc_idx c → consistent c → consistent c'.
Proof.
  intros Hid Hown Hloc [Hreg Hlisted Hdup Hgrid].
  split; unfold owned_by, get_loc in *; by rewrite ?Hid, ?Hown, ?Hloc.
Qed.

Lemma new_consistent (sx sy w h r : Z) : consistent (new sx sy w h r).
Proof.
  split; unfold owned_by, get_loc; simpl.
  - intros i o Hi. by rewrite lookup_empty in Hi.
  - intros k o Hin. rewrite lookup_empty in Hin. by apply elem_of_nil in Hin.
  - intros k. rewrite lookup_empty. constructor.
  - intros cx cy m Hm. by rewrite lookup_empty in Hm.
Qed.

Lemma add_failed (c c' : t) (o : base_obj) (e : error) :
  add c o = (Some e, c') → c' = c ∧ e = PlacementConflict.
Proof.
  unfold add. destruct (as_map_obj o) as [m |]; [| done].
  unfold add_internal_map. destruct (existsb _ _); [| done].
  by intros [= <- <-].
Qed.

Lemma apart_same_indices (c c' : t) :
  id_idx c' = id_idx c → apart c → apart c'.
Proof. unfold apart. by intros ->. Qed.

Lemma new_apart (sx sy w h r : Z) : apart (new sx sy w h r).
Proof. intros i j o o' Hi. simpl in Hi. by rewrite lookup_empty in Hi. Qed.

Lemma step_apart (c c' : t) (me : positive) (k : run.call) :
  apart c → allowed c k → run.step c me k = Some c' → apart c'.
Proof.
  intros Hinv Hok. destruct k as [x y w h | | o | o]; simpl.
  - unfold begin_update, lock. destruct (mtx_owner c) as [holder |].
    + case_decide; [| done]. intros [= <-].
      by apply (apart_same_indices c).
    + intros [= <-]. by apply (apart_same_indices c).
  - unfold end_update, unlock. destruct (mtx_owner c) as [holder |]; [| done].
    case_decide; [| done].
    destruct (mtx_depth c) as [| [| d]]; intros [= <-];
      by apply (apart_same_indices c).
  - intros [= <-]. destruct (add c o) as [[e |] c1] eqn:Hadd; simpl.
    + apply add_failed in Hadd as [-> _]. done.
    + by eapply add_apart.
  - intros [= <-]. by apply remove_apart.
Qed.

Lemma step_consistent (c c' : t) (me : positive) (k : run.call) :
  consistent c → apart c → allowed c k → run.step c me k = Some c' →
  consistent c'.
Proof.
  intros Hinv Hapart Hok. destruct k as [x y w h | | o | o]; simpl.
  - unfold begin_update, lock. destruct (mtx_owner c) as [holder |].
    + case_decide; [| done]. intros [= <-].
      by apply (consistent_same_indices c).
    + intros [= <-]. by apply (consistent_same_indices c).
  - unfold end_update, unlock. destruct (mtx_owner c) as [holder |]; [| done].
    case_decide; [| done].
    destruct (mtx_depth c) as [| [| d]]; intros [= <-];
      by apply (consistent_same_indices c).
  - intros [= <-]. destruct (add c o) as [[e |] c1] eqn:Hadd; simpl.
    + apply add_failed in Hadd as [-> _]. done.
    + by eapply add_consistent.
  - intros [= <-]. by apply remove_consistent.
Qed.

Lemma steps_consistent (trace : list (positive * run.call)) (c c' : t) :
  consistent c → apart c → all_allowed c trace →
  run.steps c trace = Some c' →
  consistent c' ∧ apart c'.
Proof.
  revert c. induction trace as [| [me k] trace IH]; intros c Hinv Hapart;
    simpl.
  - by intros _ [= <-].
  - intros [Hok Hrest]. destruct (run.step c me k) as [c1 |] eqn:Hstep;
      [| done].
    apply IH; [by eapply step_consistent | by eapply step_apart | done].
Qed.

(** Index consistency: along every sequence of [begin_update],
    [end_update], [add] and [remove] calls in which each object added has
    an owner, an id that is not in use and an address of its own, and each
    object removed is the one the Registry holds, passed by the pointer
    that is stored, Registry, Owner Index and Grid agree: an object of the
    Registry is listed once under its owner and is in every cell of its
    rectangle, and every entry of the Owner Index and of the Grid is an
    object of the Registry. *)
Theorem indices_consistent (sx sy w h r : Z)
    (trace : list (positive * run.call)) (c : t) :
  all_allowed (new sx sy w h r) trace →
  run.steps (new sx sy w h r) trace = Some c →
  consistent c.
Proof.
  intros Hok Hrun.
  apply (steps_consistent trace (new sx sy w h r) c); [| | done | done].
  - apply new_consistent.
  - apply new_apart.
Qed.

Lemma indices_consistent_witness : consistent scenario.busy.
Proof.
  apply (indices_consistent 0 0 10 10 2 scenario.busy_trace).
  - apply (bool_decide_unpack _). vm_compute. reflexivity.
  - vm_compute. reflexivity.
Defined.

Lemma with_O1_consistent : consistent scenario.with_O1.
Proof.
  apply (steps_consistent [(1%positive, run.add_call (on_map scenario.O1))]
           scenario.area).
  - apply new_consistent.
  - apply new_apart.
  - repeat split; [done | apply map_Forall_empty].
  - reflexivity.
Qed.

(** ** Scans *)

Lemma emplace_lookup {V : Type} (k i : N) (v : V) (result : gmap N V) :
  emplace k v result !! i =
  match result !! i with
  | Some w => Some w
  | None => if decide (k = i) then Some v else None
  end.
Proof.
  unfold emplace. destruct (result !! k) as [w |] eqn:Hk.
  - destruct (result !! i) eqn:Hi; [done |]. case_decide; [congruence | done].
  - destruct (decide (k = i)) as [<- | Hne].
    + by rewrite lookup_insert_eq, Hk.
    + rewrite lookup_insert_ne by done. by destruct (result !! i).
Qed.

Lemma is_root_object_true (m : map_obj) (cx cy : Z) :
  is_root_object m cx cy = true ↔ x m = cx ∧ y m = cy.
Proof.
  unfold is_root_object. rewrite andb_true_iff, !bool_decide_eq_true. done.
Qed.

(** An entry of the result so far stays. *)
Lemma collect_root_keeps (c : t) (cells : list (Z * Z))
    (acc : gmap N map_obj) (i : N) (m : map_obj) :
  acc !! i = Some m → foldl (collect_root c) acc cells !! i = Some m.
Proof.
  revert acc. induction cells as [| [cx cy] cells IH]; intros acc Hacc;
    cbn [foldl]; [done |].
  apply IH. unfold collect_root.
  destruct (get_loc c cx cy) as [current |]; [| done].
  destruct (is_root_object current cx cy); [| done].
  by rewrite emplace_lookup, Hacc.
Qed.

(** An entry of the result was there before or is a root object found in
    one of the cells. *)
Lemma collect_root_sound (c : t) (cells : list (Z * Z))
    (acc : gmap N map_obj) (i : N) (m : map_obj) :
  foldl (collect_root c) acc cells !! i = Some m →
  acc !! i = Some m
  ∨ ((x m, y m) ∈ cells ∧ get_loc c (x m) (y m) = Some m
     ∧ id (base m) = i).
Proof.
  revert acc. induction cells as [| [cx cy] cells IH]; intros acc;
    cbn [foldl]; [by left |].
  intros Hres. apply IH in Hres as [Hacc | (Hin & Hloc & Hid)].
  - unfold collect_root in Hacc.
    destruct (get_loc c cx cy) as [current |] eqn:Hloc; [| by left].
    destruct (is_root_object current cx cy) eqn:Hroot; [| by left].
    rewrite emplace_lookup in Hacc.
    destruct (acc !! i) as [w |]; [by left |].
    case_decide as Hid; [| done]. injection Hacc as ->.
    apply is_root_object_true in Hroot as [<- <-].
    right. split; [by left | done].
  - right. split; [by right | done].
Qed.

(** A root object in one of the cells leaves an entry under its id. *)
Lemma collect_root_complete (c : t) (cells : list (Z * Z))
    (acc : gmap N map_obj) (m : map_obj) :
  (x m, y m) ∈ cells → get_loc c (x m) (y m) = Some m →
  is_Some (foldl (collect_root c) acc cells !! id (base m)).
Proof.
  revert acc. induction cells as [| [cx cy] cells IH]; intros acc Hin Hloc;
    cbn [foldl]; [by apply elem_of_nil in Hin |].
  apply elem_of_cons in Hin as [[= <- <-] | Hin]; [| by apply IH].
  unfold collect_root at 2. rewrite Hloc.
  assert (is_root_object m (x m) (y m) = true) as ->
    by by apply is_root_object_true.
  destruct (emplace (id (base m)) m acc !! id (base m)) as [w |] eqn:Hw.
  - exists w. by apply collect_root_keeps.
  - rewrite emplace_lookup in Hw. destruct (acc !! id (base m)); [done |].
    by rewrite decide_True in Hw.
Qed.

(** In a consistent cache an id names one object of the grid. *)
Lemma grid_ids_unique (c : t) (cx cy cx' cy' : Z) (m m' : map_obj) :
  consistent c → get_loc c cx cy = Some m → get_loc c cx' cy' = Some m' →
  id (base m) = id (base m') → m = m'.
Proof.
  intros Hinv Hm Hm' Hid.
  destruct (grid_entry c Hinv cx cy m Hm) as [_ Hreg].
  destruct (grid_entry c Hinv cx' cy' m' Hm') as [_ Hreg'].
  rewrite Hid in Hreg. congruence.
Qed.

Lemma get_in_area_scan (c : t) (x y width height : Z) :
  get_in_area c x y width height
  = foldl (collect_root c) ∅ (get_in_area_cells c x y width height).
Proof.
  unfold get_in_area, get_in_area_cells.
  by destruct (clamp c x y (x + width) (y + height)) as [[[? ?] ?] ?].
Qed.

Lemma get_in_area_lookup (c : t) (x y width height : Z) (i : N)
    (m : map_obj) :
  consistent c →
  get_in_area c x y width height !! i = Some m ↔
  id (base m) = i ∧ get_at_location c (objects.x m) (objects.y m) = Some m
  ∧ (objects.x m, objects.y m) ∈ get_in_area_cells c x y width height.
Proof.
  intros Hinv. rewrite get_in_area_scan. unfold get_at_location. split.
  - intros [Habs | (Hin & Hloc & Hid)]%collect_root_sound; [done | done].
  - intros (Hid & Hloc & Hin).
    destruct (collect_root_complete c _ ∅ m Hin Hloc) as [m' Hm'].
    rewrite Hid in Hm'. rewrite Hm'. f_equal.
    apply collect_root_sound in Hm' as [Habs | (_ & Hloc' & Hid')]; [done |].
    eapply grid_ids_unique; [done | exact Hloc' | exact Hloc | congruence].
Qed.

(** A rectangle that lies inside the bounds without touching their upper
    edges is scanned as it is. *)
Lemma get_in_area_cells_inside (c : t) (x y width height cx cy : Z) :
  start_x c ≤ x → start_y c ≤ y →
  x + width < end_x c → y + height < end_y c →
  (cx, cy) ∈ get_in_area_cells c x y width height ↔
  (x ≤ cx < x + width) ∧ (y ≤ cy < y + height).
Proof.
  intros Hx Hy Hw Hh. unfold get_in_area_cells, clamp.
  rewrite !bool_decide_eq_false_2 by lia.
  rewrite elem_of_scan. lia.
Qed.

(** Inside the bounds [get_in_area] is exact: for a consistent cache and
    a rectangle that starts within the bounds and ends before their upper
    edges, the result maps an id to an object if and only if the object
    has that id, is the object at its own root cell and has its root cell
    in the rectangle; the result being a map, each such object is in it
    once. *)
Theorem get_in_area_inside (c : t) (x y width height : Z) (i : N)
    (m : map_obj) :
  consistent c →
  start_x c ≤ x → start_y c ≤ y →
  x + width < end_x c → y + height < end_y c →
  get_in_area c x y width height !! i = Some m ↔
  id (base m) = i ∧ get_at_location c (objects.x m) (objects.y m) = Some m
  ∧ (x ≤ objects.x m < x + width) ∧ (y ≤ objects.y m < y + height).
Proof.
  intros Hinv Hx Hy Hw Hh. rewrite get_in_area_lookup by done.
  by rewrite get_in_area_cells_inside.
Qed.

Lemma get_in_area_inside_witness :
  get_in_area scenario.with_O1 4 4 3 3 !! 1%N = Some scenario.O1 ↔
  id (base scenario.O1) = 1%N
  ∧ get_at_location scenario.with_O1 (x scenario.O1) (y scenario.O1)
    = Some scenario.O1
  ∧ (4 ≤ x scenario.O1 < 4 + 3) ∧ (4 ≤ y scenario.O1 < 4 + 3).
Proof.
  apply (get_in_area_inside scenario.with_O1 4 4 3 3 1 scenario.O1).
  - apply with_O1_consistent.
  - by vm_compute.
  - by vm_compute.
  - by vm_compute.
  - by vm_compute.
Defined.

Lemma get_users_with_los_at_scan (c : t) (x y : Z) :
  get_users_with_los_at c x y =
  foldl (collect_owner c) ∅ (los_cells c x y).
Proof.
  unfold get_users_with_los_at, los_cells.
  by destruct (clamp c _ _ _ _) as [[[? ?] ?] ?].
Qed.

Lemma owners_found (c : t) (cells : list (Z * Z)) (acc : gset N) (o : N) :
  o ∈ foldl (collect_owner c) acc cells ↔
  o ∈ acc
  ∨ (o ≠ 0%N
     ∧ ∃ cx cy m, (cx, cy) ∈ cells ∧ get_loc c cx cy = Some m
                  ∧ owner (base m) = o).
Proof.
  revert acc. induction cells as [| [cx cy] cells IH]; intros acc;
    cbn [foldl].
  - split; [by left |]. intros [Hacc | (_ & ? & ? & ? & Hin & _)]; [done |].
    by apply elem_of_nil in Hin.
  - rewrite IH. unfold collect_owner. split.
    + intros [Hacc | (Hne & cx' & cy' & m & Hin & Hloc & Ho)].
      * destruct (get_loc c cx cy) as [current |] eqn:Hloc; [| by left].
        case_decide as Howner; [| by left].
        apply elem_of_union in Hacc as [Hnew%elem_of_singleton | Hacc];
          [| by left].
        right. split; [congruence |].
        exists cx, cy, current. split; [by left | done].
      * right. split; [done |]. exists cx', cy', m. split; [by right | done].
    + intros [Hacc | (Hne & cx' & cy' & m & Hin & Hloc & Ho)].
      * left. destruct (get_loc c cx cy) as [current |]; [| done].
        case_decide; [| done]. apply elem_of_union. by right.
      * apply elem_of_cons in Hin as [[= -> ->] | Hin].
        -- left. rewrite Hloc, decide_True by congruence.
           apply elem_of_union. left. by apply elem_of_singleton.
        -- right. split; [done |]. exists cx', cy', m. done.
Qed.

Lemma elem_of_los_cells (c : t) (x y cx cy : Z) :
  (cx, cy) ∈ los_cells c x y ↔
  (x - los_radius c ≤ cx < x + los_radius c ∧ start_x c ≤ cx < end_x c
   ∧ (x + los_radius c >= end_x c → cx < end_x c - 1))
  ∧ (y - los_radius c ≤ cy < y + los_radius c ∧ start_y c ≤ cy < end_y c
     ∧ (y + los_radius c >= end_y c → cy < end_y c - 1)).
Proof.
  unfold los_cells, clamp. rewrite elem_of_scan.
  repeat case_bool_decide; lia.
Qed.

(** What [get_users_with_los_at] guarantees: every owner it returns is
    not 0 and has an object in a cell of the area at most [los_radius] away
    from [(x, y)] on each axis; and it returns every owner other than 0 of
    an object in a cell less than [los_radius] away on each axis that is
    not in the last column or row of the area. *)
Theorem get_users_with_los_at_reach (c : t) (x y : Z) :
  (∀ o, o ∈ get_users_with_los_at c x y →
     o ≠ 0%N
     ∧ ∃ cx cy m, get_at_location c cx cy = Some m ∧ owner (base m) = o
                  ∧ Z.abs (cx - x) ≤ los_radius c
                  ∧ Z.abs (cy - y) ≤ los_radius c
                  ∧ is_location_in_bounds c cx cy 1 1 = true)
  ∧ (∀ cx cy m,
       get_at_location c cx cy = Some m → owner (base m) ≠ 0%N →
       Z.abs (cx - x) < los_radius c → Z.abs (cy - y) < los_radius c →
       is_location_in_bounds c cx cy 2 2 = true →
       owner (base m) ∈ get_users_with_los_at c x y).
Proof.
  rewrite get_users_with_los_at_scan. unfold get_at_location. split.
  - intros o [Habs | (Hne & cx & cy & m & Hin & Hloc & Ho)]%owners_found;
      [done |].
    split; [done |]. exists cx, cy, m. apply elem_of_los_cells in Hin.
    repeat split; try done; try lia.
    unfold is_location_in_bounds.
    rewrite !andb_true_iff, !bool_decide_eq_true. lia.
  - intros cx cy m Hloc Howner Hx Hy Hin. apply owners_found. right.
    split; [done |]. exists cx, cy, m. split; [| done].
    unfold is_location_in_bounds in Hin.
    rewrite !andb_true_iff, !bool_decide_eq_true in Hin.
    apply elem_of_los_cells. lia.
Qed.

(** The scenarios of the design document: bounds [(0, 0, 10, 10)],
    radius 2, [O1] of owner 7 at [(5, 5)].  [(6, 6)] is in the line of
    sight of owner 7 and [(8, 8)] is not; the owners with line of sight at
    [(6, 6)] are owner 7 alone; once [O1] is removed its cell is empty.  An
    object overlapping [O1] is refused, and [get_in_area] over the union of
    the two rectangles returns [O1] alone. *)
Theorem design_scenarios :
  is_location_in_los scenario.with_O1 6 6 7 = true
  ∧ is_location_in_los scenario.with_O1 8 8 7 = false
  ∧ get_users_with_los_at scenario.with_O1 6 6 = {[7%N]}
  ∧ is_area_empty (remove scenario.with_O1 (on_map scenario.O1)) 5 5 1 1
    = true
  ∧ (add scenario.with_O1 (on_map scenario.O2)).1 = Some PlacementConflict
  ∧ get_in_area (add scenario.with_O1 (on_map scenario.O2)).2 4 4 2 2
    = {[1%N := scenario.O1]}.
Proof. by vm_compute. Qed.

(** ** Where the code leaves the design *)

(** C2: an object without owner is entered in the Owner Index under
    owner 0 by [add_internal], and [remove_internal] does not take it out
    again: after the object has been added and removed within one update
    scope the Registry is empty while the Owner Index still holds the
    object, and [get_by_owner 0] returns it. *)
Theorem unowned_object_stays_in_owner_index :
  owner_idx (add_internal scenario.area scenario.unowned) !! 0%N
  = Some [scenario.unowned]
  ∧ owner_idx
      (remove_internal (add_internal scenario.area scenario.unowned)
         scenario.unowned) !! 0%N
    = Some [scenario.unowned]
  ∧ ∃ c, scenario.unowned_added_and_removed = Some c
         ∧ id_idx c = ∅
         ∧ get_by_id c 1 = None
         ∧ owner_idx c !! 0%N = Some [scenario.unowned]
         ∧ get_by_owner c 0 = {[1%N := scenario.unowned]}
         ∧ ¬ consistent c.
Proof.
  split; [by vm_compute |]. split; [by vm_compute |].
  eexists. split; [vm_compute; reflexivity |].
  repeat (split; [by vm_compute |]).
  intros Hinv.
  destruct (owner_entry _ Hinv 0%N scenario.unowned) as [_ Habs].
  - vm_compute. by left.
  - by vm_compute in Habs.
Qed.

(** C3: with bounds [(0, 0, 10, 10)] and one object at [(5, 5)],
    [get_in_area 5 8 1 5] returns that object although its root cell is
    not in the rectangle asked for: the rows scanned are 4 to 8.  With
    one object at [(9, 9)], [get_in_area 0 0 10 10] returns nothing: the
    last column and row of the area are not scanned. *)
Theorem get_in_area_scans_other_cells :
  get_in_area scenario.with_O1 5 8 1 5 = {[1%N := scenario.O1]}
  ∧ is_location_in_bounds scenario.area 9 9 1 1 = true
  ∧ get_at_location scenario.with_corner 9 9 = Some scenario.corner
  ∧ get_in_area scenario.with_corner 0 0 10 10 = ∅.
Proof. by vm_compute. Qed.

(** C4: the rectangle [(5, 8, 1, 5)] exceeds the bounds
    [(0, 0, 10, 10)]; [clamp] turns its edges into [(5, 8)] and [(6, 9)],
    the rectangle [(5, 8, 1, 1)].  With one object at [(5, 5)],
    [get_in_area] returns the object for the former and nothing for the
    latter. *)
Theorem get_in_area_differs_from_clamped :
  clamp scenario.area 5 8 (5 + 1) (8 + 5) = (5, 8, 6, 9)
  ∧ get_in_area scenario.with_O1 5 8 1 5 = {[1%N := scenario.O1]}
  ∧ get_in_area scenario.with_O1 5 8 (6 - 5) (9 - 8) = ∅.
Proof. by vm_compute. Qed.

(** C8: with bounds [(0, 0, 10, 10)], a radius of 2 and one object of
    owner 7 at [(5, 5)], [get_users_with_los_at 6 6] is the set of owner
    7.  The object is two cells away from [(3, 3)] and from [(7, 7)] on
    both axes: [get_users_with_los_at] returns owner 7 at [(7, 7)] and no
    owner at [(3, 3)]. *)
Theorem get_users_with_los_at_one_sided :
  get_users_with_los_at scenario.with_O1 6 6 = {[7%N]}
  ∧ get_users_with_los_at scenario.with_O1 7 7 = {[7%N]}
  ∧ get_users_with_los_at scenario.with_O1 3 3 = ∅.
Proof. by vm_compute. Qed.

(** C9: removing an object that the cache does not hold creates an
    entry for its owner in the Owner Index: [is_user_present] answers
    [false] before and [true] after. *)
Theorem remove_absent_makes_owner_present :
  get_by_id scenario.area 9 = None
  ∧ is_user_present scenario.area 7 = false
  ∧ is_user_present (remove_internal scenario.area scenario.stranger) 7
    = true
  ∧ is_user_present (remove scenario.area scenario.stranger) 7 = true
  ∧ get_by_owner (remove scenario.area scenario.stranger) 7
    = get_by_owner scenario.area 7.
Proof. by vm_compute. Qed.

Import upkeep.

(** ** Clamping *)

(** [clamp] leaves edges that [clamp] does not move again: the lower
    edges are at or above the start of the bounds and not below what they
    were, the upper edges are below the end of the bounds and not above
    what they were, and an edge that was inside the bounds already is
    left as it is. *)
Theorem clamp_settles (c : t) (sx sy ex ey : Z) :
  ∃ sx' sy' ex' ey',
    clamp c sx sy ex ey = (sx', sy', ex', ey')
    ∧ clamp c sx' sy' ex' ey' = (sx', sy', ex', ey')
    ∧ (start_x c ≤ sx' ∧ sx ≤ sx') ∧ (start_y c ≤ sy' ∧ sy ≤ sy')
    ∧ (ex' < end_x c ∧ ex' ≤ ex) ∧ (ey' < end_y c ∧ ey' ≤ ey)
    ∧ (start_x c ≤ sx → sx' = sx) ∧ (start_y c ≤ sy → sy' = sy)
    ∧ (ex < end_x c → ex' = ex) ∧ (ey < end_y c → ey' = ey).
Proof.
  unfold clamp. eexists _, _, _, _. split; [reflexivity |].
  split; [| repeat case_bool_decide; lia].
  repeat case_bool_decide; try reflexivity; lia.
Qed.

(** ** What a mutation leaves behind *)

(** After an [add] that succeeds, [get_by_id] finds the object under its
    id and nothing else has changed in the Registry, the owner of the
    object is present, and [get_at_location] finds the object in every
    cell of its rectangle and what was there before in every other
    cell. *)
Theorem add_then_lookup (c c' : t) (o : base_obj) :
  add c o = (None, c') →
  get_by_id c' (id (fields o)) = Some o
  ∧ is_user_present c' (owner (fields o)) = true
  ∧ (∀ i, i ≠ id (fields o) → get_by_id c' i = get_by_id c i)
  ∧ (∀ cx cy,
       get_at_location c' cx cy =
       match as_map_obj o with
       | Some m =>
           if decide ((cx, cy) ∈ footprint m) then Some m
           else get_at_location c cx cy
       | None => get_at_location c cx cy
       end).
Proof.
  intros Hadd. pose proof (add_done c c' o Hadd) as (Hid & Hlist & Hloc).
  unfold get_by_id, get_at_location, is_user_present. rewrite Hid.
  split; [by rewrite lookup_insert_eq |]. split.
  - apply bool_decide_eq_true. specialize (Hlist (owner (fields o))).
    rewrite decide_True in Hlist by done. unfold owned_by in Hlist.
    destruct (owner_idx c' !! owner (fields o)); [done |].
    by destruct (default [] (owner_idx c !! owner (fields o))).
  - split; [intros i Hi; by rewrite lookup_insert_ne |].
    intros cx cy. destruct (as_map_obj o) as [m |]; [| done].
    by destruct Hloc as [_ Hloc].
Qed.

Lemma add_then_lookup_witness :
  get_by_id scenario.with_O1 1 = Some (on_map scenario.O1)
  ∧ is_user_present scenario.with_O1 7 = true.
Proof.
  destruct (add_then_lookup scenario.area scenario.with_O1
              (on_map scenario.O1)) as (Hid & Hpresent & _).
  - vm_compute. reflexivity.
  - by split.
Defined.

Lemma remove_owner_keys (c : t) (o : base_obj) (k : N) :
  owner_idx c !! k ≠ None → owner_idx (remove c o) !! k ≠ None.
Proof.
  intros Hk.
  assert (owner_idx (remove_internal c o) !! k ≠ None) as Hkept.
  { unfold remove_internal; simpl. case_decide; [| done].
    destruct (decide (owner (fields o) = k)) as [-> | Hne].
    - by rewrite lookup_insert_eq.
    - by rewrite lookup_insert_ne. }
  unfold remove. destruct (as_map_obj o) as [m |]; [| done].
  unfold remove_internal_map.
  pose proof (write_frame None (footprint m) (remove_internal c o))
    as Hframe.
  simpl in Hframe. destruct Hframe as (_ & -> & _). done.
Qed.

Lemma add_owner_idx (c c' : t) (o : base_obj) :
  add c o = (None, c') →
  owner_idx c' =
  <[owner (fields o) := owned_by c (owner (fields o)) ++ [o]]> (owner_idx c)
  ∧ updatable_idx c' =
    (if is_updatable (fields o) then updatable_idx c ++ [o]
     else updatable_idx c).
Proof.
  unfold add. destruct (as_map_obj o) as [m |].
  - unfold add_internal_map. destruct (existsb _ _); [done |].
    intros [= <-]. unfold owned_by; simpl.
    pose proof (write_frame (Some m) (footprint m) c) as Hframe.
    simpl in Hframe. destruct Hframe as (_ & -> & -> & _). done.
  - by intros [= <-].
Qed.

Lemma add_owner_keys (c : t) (o : base_obj) (k : N) :
  owner_idx c !! k ≠ None → owner_idx (add c o).2 !! k ≠ None.
Proof.
  intros Hk. destruct (add c o) as [[e |] c'] eqn:Hadd; simpl.
  - by apply add_failed in Hadd as [-> _].
  - apply add_owner_idx in Hadd as [-> _].
    destruct (decide (owner (fields o) = k)) as [-> | Hne].
    + by rewrite lookup_insert_eq.
    + by rewrite lookup_insert_ne.
Qed.

(** After a [remove], whatever the cache held, [get_by_id] finds
    nothing under the id of the object and what it found before under
    every other id, every cell of the rectangle of the object is empty and
    every other cell is as before, and every owner that was present still
    is. *)
Theorem remove_then_lookup (c : t) (o : base_obj) :
  get_by_id (remove c o) (id (fields o)) = None
  ∧ (∀ i, i ≠ id (fields o) → get_by_id (remove c o) i = get_by_id c i)
  ∧ (∀ cx cy,
       get_at_location (remove c o) cx cy =
       match as_map_obj o with
       | Some m =>
           if decide ((cx, cy) ∈ footprint m) then None
           else get_at_location c cx cy
       | None => get_at_location c cx cy
       end)
  ∧ (∀ k, is_user_present c k = true →
          is_user_present (remove c o) k = true).
Proof.
  destruct (remove_grid c o) as [Hid Hloc].
  unfold get_by_id, get_at_location, is_user_present. rewrite Hid.
  split; [by rewrite lookup_delete_eq |].
  split; [intros i Hi; by rewrite lookup_delete_ne |].
  split; [done |].
  intros k Hk%bool_decide_eq_true. apply bool_decide_eq_true.
  by apply remove_owner_keys.
Qed.

Lemma erase_first_last (o : base_obj) (v : list base_obj) :
  Forall (λ a, address (fields a) ≠ address (fields o)) v →
  erase_first o (v ++ [o]) = v.
Proof.
  induction 1 as [| a v Hne Hout IH]; simpl.
  - by rewrite decide_True.
  - rewrite decide_False by done. by rewrite IH.
Qed.

Lemma erase_first_absent (o : base_obj) (v : list base_obj) :
  Forall (λ a, address (fields a) ≠ address (fields o)) v →
  erase_first o v = v.
Proof.
  induction 1 as [| a v Hne Hout IH]; simpl; [done |].
  rewrite decide_False by done. by rewrite IH.
Qed.

Lemma remove_updatable_idx (c : t) (o : base_obj) :
  updatable_idx (remove c o) =
  if is_updatable (fields o) then erase_first o (updatable_idx c)
  else updatable_idx c.
Proof.
  unfold remove. destruct (as_map_obj o) as [m |]; [| done].
  unfold remove_internal_map.
  pose proof (write_frame None (footprint m) (remove_internal c o))
    as Hframe.
  simpl in Hframe. destruct Hframe as (_ & _ & -> & _). done.
Qed.

(** [remove_internal] finds an object by its address: called with a copy
    of a stored object, which is at another address, it takes the entry
    out of the Registry and leaves the Owner Index and the updatable
    index as they are. *)
Lemma remove_internal_other_address (c : t) (o : base_obj) :
  Forall (λ a, address (fields a) ≠ address (fields o))
    (owned_by c (owner (fields o))) →
  Forall (λ a, address (fields a) ≠ address (fields o)) (updatable_idx c) →
  id_idx (remove_internal c o) = delete (id (fields o)) (id_idx c)
  ∧ (∀ k, owned_by (remove_internal c o) k = owned_by c k)
  ∧ updatable_idx (remove_internal c o) = updatable_idx c.
Proof.
  intros Howned Hupd. split; [done |]. split.
  - intros k. unfold owned_by, remove_internal; simpl.
    case_decide as Howner; [| done].
    destruct (decide (k = owner (fields o))) as [-> | Hk].
    + rewrite lookup_insert_eq. simpl. by apply erase_first_absent.
    + by rewrite lookup_insert_ne.
  - unfold remove_internal; simpl.
    destruct (is_updatable (fields o)); [| done].
    by apply erase_first_absent.
Qed.

Lemma new_updatables_listed (sx sy w h r : Z) :
  updatables_listed (new sx sy w h r).
Proof.
  split; simpl; [constructor |]. intros o. split.
  - by intros Hin%elem_of_nil.
  - intros [Hid _]. by rewrite lookup_empty in Hid.
Qed.

Lemma add_updatables_listed (c c' : t) (o : base_obj) :
  updatables_listed c → allowed c (run.add_call o) →
  add c o = (None, c') → updatables_listed c'.
Proof.
  intros [Hdup Hentry] (_ & Hfresh & _) Hadd.
  pose proof (add_done c c' o Hadd) as (Hid & _).
  pose proof (add_owner_idx c c' o Hadd) as [_ Hupd].
  assert (o ∉ updatable_idx c) as Hnew.
  { intros [Hreg _]%Hentry. congruence. }
  split.
  - rewrite Hupd. destruct (is_updatable (fields o)); [| done].
    apply NoDup_app. split; [done |]. split; [| apply NoDup_singleton].
    by intros o' Hin ->%list_elem_of_singleton.
  - intros o'. rewrite Hid, Hupd.
    destruct (decide (id (fields o) = id (fields o'))) as [Heq | Hne].
    + rewrite Heq, lookup_insert_eq. split.
      * destruct (is_updatable (fields o)) eqn:Hcap.
        -- intros [Hold | ->%list_elem_of_singleton]%elem_of_app; [| done].
           apply Hentry in Hold as [Hreg _]. congruence.
        -- intros [Hreg _]%Hentry. congruence.
      * intros [[= ->] Hcap]. rewrite Hcap. apply elem_of_app. right.
        by apply list_elem_of_singleton.
    + rewrite lookup_insert_ne by done. rewrite <- Hentry.
      destruct (is_updatable (fields o)); [| done].
      rewrite elem_of_app, list_elem_of_singleton. split; [| by left].
      intros [Hold | ->]; done.
Qed.

Lemma remove_updatables_listed (c : t) (o : base_obj) :
  updatables_listed c → apart c → allowed c (run.remove_call o) →
  updatables_listed (remove c o).
Proof.
  intros [Hdup Hentry] Hapart Hstored. simpl in Hstored.
  destruct (remove_grid c o) as [Hid _].
  assert (∀ a, a ∈ updatable_idx c →
               address (fields a) = address (fields o) → a = o) as Halone.
  { intros a [Hrega _]%Hentry Haddr.
    by apply (Hapart (id (fields a)) (id (fields o))). }
  assert (∀ o', o' ∈ updatable_idx (remove c o) ↔
                o' ∈ updatable_idx c ∧ o' ≠ o) as Hleft.
  { intros o'. rewrite remove_updatable_idx.
    destruct (is_updatable (fields o)) eqn:Hcap.
    - split.
      + intros Hin. split; [by eapply erase_first_subseteq |]. intros ->.
        revert Hin. by apply erase_first_gone.
      + intros [Hin Hne]. apply erase_first_other; [done |].
        intros Haddr. by apply Hne, Halone.
    - split; [| tauto]. intros Hin. split; [done |]. intros ->.
      apply Hentry in Hin as [_ Hcap']. congruence. }
  split.
  - rewrite remove_updatable_idx. destruct (is_updatable (fields o)); [| done].
    by apply erase_first_NoDup.
  - intros o'. rewrite Hleft, Hid, Hentry, lookup_delete_Some. split.
    + intros [[Hreg Hcap] Hne]. split; [| done]. split; [| done].
      intros Heq. rewrite Heq in Hstored. congruence.
    + intros [[Hne Hreg] Hcap]. split; [done |]. by intros ->.
Qed.

Lemma step_updatables_listed (c c' : t) (me : positive) (k : run.call) :
  updatables_listed c → apart c → allowed c k → run.step c me k = Some c' →
  updatables_listed c'.
Proof.
  intros Hinv Hapart Hok. destruct k as [x y w h | | o | o]; simpl.
  - unfold begin_update, lock. destruct Hinv as [Hdup Hentry].
    destruct (mtx_owner c) as [holder |].
    + case_decide; [| done]. by intros [= <-].
    + by intros [= <-].
  - unfold end_update, unlock. destruct Hinv as [Hdup Hentry].
    destruct (mtx_owner c) as [holder |]; [| done].
    case_decide; [| done].
    by destruct (mtx_depth c) as [| [| d]]; intros [= <-].
  - intros [= <-]. destruct (add c o) as [[e |] c1] eqn:Hadd; simpl.
    + apply add_failed in Hadd as [-> _]. done.
    + by eapply add_updatables_listed.
  - intros [= <-]. by apply remove_updatables_listed.
Qed.

Lemma steps_updatables_listed (trace : list (positive * run.call))
    (c c' : t) :
  updatables_listed c → apart c → all_allowed c trace →
  run.steps c trace = Some c' →
  updatables_listed c'.
Proof.
  revert c. induction trace as [| [me k] trace IH];
    intros c Hinv Hapart; simpl.
  - by intros _ [= <-].
  - intros [Hok Hrest]. destruct (run.step c me k) as [c1 |] eqn:Hstep;
      [| done].
    apply IH; [by eapply step_updatables_listed | by eapply step_apart
              | done].
Qed.

(** Along every sequence of calls in which each object added has an
    owner, an id that is not in use and an address of its own, and each
    object removed is the one the Registry holds, passed by the pointer
    that is stored: walking [get_next_updatable] from position 0 visits
    the updatable objects of the Registry, each at one position. *)
Theorem get_next_updatable_walk (sx sy w h r : Z)
    (trace : list (positive * run.call)) (c : t) (me : positive) :
  all_allowed (new sx sy w h r) trace →
  run.steps (new sx sy w h r) trace = Some c →
  lock_holder c = Some me →
  (∀ o, (∃ position, get_next_updatable c me position = inr (Some o)) ↔
        get_by_id c (id (fields o)) = Some o
        ∧ is_updatable (fields o) = true)
  ∧ (∀ p q o,
       get_next_updatable c me p = inr (Some o) →
       get_next_updatable c me q = inr (Some o) → p = q).
Proof.
  intros Hok Hrun Hholder.
  destruct (steps_updatables_listed trace _ c
              (new_updatables_listed sx sy w h r) (new_apart sx sy w h r)
              Hok Hrun)
    as [Hdup Hentry].
  split.
  - intros o. unfold get_by_id. rewrite <- Hentry, list_elem_of_lookup.
    split; intros [position Hp]; exists position.
    + rewrite get_next_updatable_holder in Hp by done. congruence.
    + rewrite get_next_updatable_holder by done. congruence.
  - intros p q o. rewrite !get_next_updatable_holder by done.
    intros [= Hp] [= Hq]. by eapply NoDup_lookup.
Qed.

Lemma get_next_updatable_walk_witness :
  (∀ o, (∃ position,
           get_next_updatable scenario.scoped 1 position = inr (Some o)) ↔
        get_by_id scenario.scoped (id (fields o)) = Some o
        ∧ is_updatable (fields o) = true)
  ∧ (∀ p q o,
       get_next_updatable scenario.scoped 1 p = inr (Some o) →
       get_next_updatable scenario.scoped 1 q = inr (Some o) → p = q).
Proof.
  apply (get_next_updatable_walk 0 0 10 10 2
           [(1%positive, run.begin_update_call 0 0 10 10);
            (1%positive, run.add_call scenario.ticking)]
           scenario.scoped 1).
  - apply (bool_decide_unpack _). vm_compute. reflexivity.
  - vm_compute. reflexivity.
  - by vm_compute.
Defined.

(** ** Objects by owner *)

Lemma get_by_owner_owned (c : t) (k : N) :
  get_by_owner c k =
  foldl (λ result i, emplace (id (fields i)) i result) ∅ (owned_by c k).
Proof. unfold get_by_owner, owned_by. by destruct (owner_idx c !! k). Qed.

Lemma emplace_all_lookup (l : list base_obj) (acc : gmap N base_obj) (i : N)
    (o : base_obj) :
  (∀ a b, a ∈ l → b ∈ l → id (fields a) = id (fields b) → a = b) →
  foldl (λ result i, emplace (id (fields i)) i result) acc l !! i = Some o ↔
  acc !! i = Some o ∨ (acc !! i = None ∧ o ∈ l ∧ id (fields o) = i).
Proof.
  revert acc. induction l as [| a l IH]; intros acc Huniq; cbn [foldl].
  - split; [by left |]. intros [Hacc | (_ & Hin & _)]; [done |].
    by apply elem_of_nil in Hin.
  - rewrite IH by (intros ? ? ? ?; apply Huniq; by right).
    rewrite !emplace_lookup. split.
    + intros [Hacc | (Hacc & Hin & Hid)].
      * destruct (acc !! i) as [w |] eqn:Hw; [by left |].
        case_decide as Ha; [| done]. injection Hacc as <-.
        right. split; [done |]. split; [by left | done].
      * destruct (acc !! i) as [w |] eqn:Hw; [done |].
        right. split; [done |]. split; [by right | done].
    + intros [Hacc | (Hacc & Hin & Hid)].
      * left. by rewrite Hacc.
      * rewrite Hacc. apply elem_of_cons in Hin as [-> | Hin].
        -- left. by rewrite decide_True.
        -- destruct (decide (id (fields a) = i)) as [Ha | Ha].
           ++ left. f_equal. apply Huniq; [by left | by right | congruence].
           ++ right. done.
Qed.

(** In a consistent cache the objects of an owner are the objects of
    the Registry that name this owner. *)
Theorem get_by_owner_registry (c : t) (k i : N) (o : base_obj) :
  consistent c →
  get_by_owner c k !! i = Some o ↔
  get_by_id c i = Some o ∧ owner (fields o) = k.
Proof.
  intros Hinv. rewrite get_by_owner_owned, emplace_all_lookup.
  - rewrite lookup_empty. unfold get_by_id. split.
    + intros [Habs | (_ & Hin & Hid)]; [done |].
      destruct (owner_entry c Hinv k o Hin) as [Hk Hreg].
      by rewrite <- Hid.
    + intros [Hreg <-]. right. split; [done |].
      destruct (registry_entry c Hinv i o Hreg) as (Hid & _ & Hin & _).
      done.
  - intros a b Ha Hb Hid.
    destruct (owner_entry c Hinv k a Ha) as [_ Hrega].
    destruct (owner_entry c Hinv k b Hb) as [_ Hregb].
    rewrite Hid in Hrega. congruence.
Qed.

Lemma get_by_owner_registry_witness :
  get_by_owner scenario.with_O1 7 !! 1%N = Some (on_map scenario.O1) ↔
  get_by_id scenario.with_O1 1 = Some (on_map scenario.O1)
  ∧ owner (fields (on_map scenario.O1)) = 7%N.
Proof.
  apply (get_by_owner_registry scenario.with_O1 7 1 (on_map scenario.O1)).
  apply with_O1_consistent.
Defined.

(** In a consistent cache whose updatable index lists the updatable
    objects of the Registry, adding an object that has an owner, an id
    that is not in use and an address of its own, and removing it again by
    the same pointer, gives back the Registry, the Grid, the updatable
    index and the objects of every owner. *)
Theorem add_then_remove (c c' : t) (o : base_obj) :
  consistent c → updatables_listed c → allowed c (run.add_call o) →
  add c o = (None, c') →
  id_idx (remove c' o) = id_idx c
  ∧ loc_idx (remove c' o) = loc_idx c
  ∧ updatable_idx (remove c' o) = updatable_idx c
  ∧ (∀ k, get_by_owner (remove c' o) k = get_by_owner c k).
Proof.
  intros Hinv Hupd (Howner & Hfresh & Hnew) Hadd.
  pose proof (add_done c c' o Hadd) as (Hid & Hlist & Hloc).
  pose proof (add_owner_idx c c' o Hadd) as [_ Hupd'].
  destruct (remove_done c' o Howner) as (Hid' & Hlist' & Hloc').
  assert (Forall (λ a, address (fields a) ≠ address (fields o))
            (updatable_idx c)) as Hunticked.
  { apply Forall_forall. intros a [Hreg _]%(updatable_entry c Hupd).
    by apply (Hnew _ _ Hreg). }
  assert (Forall (λ a, address (fields a) ≠ address (fields o))
            (owned_by c (owner (fields o)))) as Hunlisted.
  { apply Forall_forall. intros a Hin.
    destruct (owner_entry c Hinv _ a Hin) as [_ Hreg].
    by apply (Hnew _ _ Hreg). }
  split; [| split; [| split]].
  - rewrite Hid', Hid. by apply delete_insert_id.
  - apply map_eq. intros [cx cy].
    change (get_loc (remove c' o) cx cy = get_loc c cx cy).
    rewrite Hloc'. destruct (as_map_obj o) as [m |]; [| by rewrite Hloc].
    destruct Hloc as [Hfree Hloc]. rewrite Hloc.
    case_decide; [symmetry; by apply Hfree | done].
  - rewrite remove_updatable_idx, Hupd'.
    destruct (is_updatable (fields o)); [| done]. by apply erase_first_last.
  - intros k. rewrite !get_by_owner_owned. f_equal.
    rewrite Hlist', Hlist. case_decide; [| done].
    subst k. by apply erase_first_last.
Qed.

Lemma add_then_remove_witness :
  id_idx (remove scenario.with_O1 (on_map scenario.O1))
  = id_idx scenario.area
  ∧ loc_idx (remove scenario.with_O1 (on_map scenario.O1))
    = loc_idx scenario.area.
Proof.
  destruct (add_then_remove scenario.area scenario.with_O1
              (on_map scenario.O1)) as (Hid & Hloc & _).
  - apply new_consistent.
  - apply new_updatables_listed.
  - apply (bool_decide_unpack _). vm_compute. reflexivity.
  - vm_compute. reflexivity.
  - by split.
Defined.

(** ** Presence of an owner *)

(** An owner that is present stays present, whatever is called. *)
Theorem is_user_present_stays (trace : list (positive * run.call))
    (c c' : t) (k : N) :
  run.steps c trace = Some c' →
  is_user_present c k = true → is_user_present c' k = true.
Proof.
  unfold is_user_present. rewrite !bool_decide_eq_true.
  revert c. induction trace as [| [me call] trace IH]; intros c; simpl.
  - by intros [= <-].
  - destruct (run.step c me call) as [c1 |] eqn:Hstep; [| done].
    intros Hrun Hk. apply (IH c1 Hrun). revert Hstep.
    destruct call as [x y w h | | o | o]; simpl.
    + unfold begin_update, lock. destruct (mtx_owner c) as [holder |].
      * case_decide; [| done]. by intros [= <-].
      * by intros [= <-].
    + unfold end_update, unlock. destruct (mtx_owner c) as [holder |];
        [| done].
      case_decide; [| done].
      by destruct (mtx_depth c) as [| [| d]]; intros [= <-].
    + intros [= <-]. by apply add_owner_keys.
    + intros [= <-]. by apply remove_owner_keys.
Qed.

Lemma is_user_present_stays_witness :
  is_user_present scenario.without_O1 7 = true.
Proof.
  apply (is_user_present_stays
           [(1%positive, run.remove_call (on_map scenario.O1))]
           scenario.with_O1 scenario.without_O1 7).
  - reflexivity.
  - by vm_compute.
Defined.

(** ** The bounds under the mutations *)

Lemma write_bounds (m : option map_obj) (cells : list (Z * Z)) (c : t) :
  let c' := foldl (λ c '(x, y), set_loc c x y m) c cells in
  start_x c' = start_x c ∧ start_y c' = start_y c
  ∧ end_x c' = end_x c ∧ end_y c' = end_y c
  ∧ los_radius c' = los_radius c.
Proof.
  revert c. induction cells as [| [x y] cells IH]; intros c; simpl;
    [done |].
  specialize (IH (set_loc c x y m)). simpl in IH. apply IH.
Qed.

Lemma remove_bounds (c : t) (o : base_obj) :
  start_x (remove c o) = start_x c ∧ start_y (remove c o) = start_y c
  ∧ end_x (remove c o) = end_x c ∧ end_y (remove c o) = end_y c
  ∧ los_radius (remove c o) = los_radius c.
Proof.
  unfold remove. destruct (as_map_obj o) as [m |]; [| done].
  apply (write_bounds None (footprint m) (remove_internal c o)).
Qed.

Lemma add_bounds (c : t) (o : base_obj) :
  start_x (add c o).2 = start_x c ∧ start_y (add c o).2 = start_y c
  ∧ end_x (add c o).2 = end_x c ∧ end_y (add c o).2 = end_y c
  ∧ los_radius (add c o).2 = los_radius c.
Proof.
  unfold add. destruct (as_map_obj o) as [m |]; [| done].
  unfold add_internal_map. destruct (existsb _ _); [done |]. simpl.
  apply (write_bounds (Some m) (footprint m) c).
Qed.

(** ** Empty areas *)

Lemma is_area_empty_cells (c : t) (x y width height : Z) :
  is_area_empty c x y width height = true ↔
  ∀ cx cy, (cx, cy) ∈ get_in_area_cells c x y width height →
           get_at_location c cx cy = None.
Proof.
  unfold is_area_empty, get_in_area_cells, get_at_location.
  destruct (clamp c x y (x + width) (y + height)) as [[[x' y'] ex] ey].
  rewrite negb_true_iff. split.
  - intros Hnone cx cy Hin. destruct (get_loc c cx cy) eqn:Hloc; [| done].
    assert (existsb (λ '(x, y), bool_decide (get_loc c x y ≠ None))
              (scan x' ex (ey - height) ey) = true) as Habs; [| congruence].
    apply occupied_somewhere. exists cx, cy. split; [done | congruence].
  - intros Hfree. apply not_true_is_false.
    intros (cx & cy & Hin & Hocc)%occupied_somewhere.
    by apply Hocc, Hfree.
Qed.

(** The cells scanned when only the upper [y] edge is known not to be
    clamped. *)
Lemma get_in_area_cells_upto (c : t) (x y width height cx cy : Z) :
  y + height < end_y c →
  (cx, cy) ∈ get_in_area_cells c x y width height →
  (x ≤ cx < x + width) ∧ (y ≤ cy < y + height).
Proof.
  intros Hh. unfold get_in_area_cells, clamp.
  rewrite (bool_decide_eq_false_2 (y + height >= end_y c)) by lia.
  rewrite elem_of_scan. repeat case_bool_decide; lia.
Qed.

(** For a rectangle that is not clamped, [is_area_empty] says whether
    an object with this rectangle can be added. *)
Theorem is_area_empty_add (c : t) (m : map_obj) :
  start_x c ≤ x m → start_y c ≤ y m →
  x m + objects.width m < end_x c → y m + objects.height m < end_y c →
  is_area_empty c (x m) (y m) (objects.width m) (objects.height m) = true ↔
  (add c (on_map m)).1 = None.
Proof.
  intros Hx Hy Hw Hh. rewrite is_area_empty_cells.
  assert (∀ cx cy,
            (cx, cy) ∈ get_in_area_cells c (x m) (y m) (objects.width m)
                         (objects.height m)
            ↔ (cx, cy) ∈ footprint m) as Hcells.
  { intros cx cy. rewrite get_in_area_cells_inside by done.
    by rewrite elem_of_footprint. }
  unfold add; simpl. unfold add_internal_map, get_at_location. split.
  - intros Hfree.
    destruct (existsb _ _) eqn:Hocc; [| done].
    apply occupied_somewhere in Hocc as (cx & cy & Hin & Hocc).
    by apply Hcells, Hfree in Hin.
  - destruct (existsb _ _) eqn:Hocc; [done |]. intros _ cx cy Hin.
    destruct (get_loc c cx cy) eqn:Hloc; [| done].
    assert (existsb (λ '(x, y), bool_decide (get_loc c x y ≠ None))
              (footprint m) = true) as Habs; [| congruence].
    apply occupied_somewhere. exists cx, cy.
    split; [by apply Hcells | congruence].
Qed.

Lemma is_area_empty_add_witness :
  is_area_empty scenario.area 5 5 1 1 = true ↔
  (add scenario.area (on_map scenario.O1)).1 = None.
Proof.
  apply (is_area_empty_add scenario.area scenario.O1); by vm_compute.
Defined.

(** Once an object is removed, the area of its rectangle is empty,
    provided the rectangle ends below the upper [y] edge of the bounds. *)
Theorem remove_then_area_empty (c : t) (m : map_obj) :
  y m + objects.height m < end_y c →
  is_area_empty (remove c (on_map m)) (x m) (y m) (objects.width m)
    (objects.height m) = true.
Proof.
  intros Hh. apply is_area_empty_cells. intros cx cy Hin.
  destruct (remove_bounds c (on_map m)) as (_ & _ & _ & Hend & _).
  apply get_in_area_cells_upto in Hin; [| by rewrite Hend].
  destruct (remove_grid c (on_map m)) as [_ Hloc].
  unfold get_at_location. rewrite Hloc; simpl.
  rewrite decide_True; [done |].
  by apply elem_of_footprint.
Qed.

Lemma remove_then_area_empty_witness :
  is_area_empty (remove scenario.with_O1 (on_map scenario.O1)) 5 5 1 1
  = true.
Proof.
  apply (remove_then_area_empty scenario.with_O1 scenario.O1).
  by vm_compute.
Defined.

(** ** Line of sight *)

Lemma is_location_in_los_scan (c : t) (x y : Z) (o : N) :
  is_location_in_los c x y o = true ↔
  ∃ m, (objects.x m, objects.y m) ∈ los_cells c x y
       ∧ get_loc c (objects.x m) (objects.y m) = Some m
       ∧ owner (base m) = o.
Proof.
  unfold is_location_in_los, los_cells.
  destruct (clamp c _ _ _ _) as [[[sx sy] ex] ey].
  rewrite existsb_exists. split.
  - intros ([cx cy] & Hin%list_elem_of_In & Hfound).
    destruct (get_loc c cx cy) as [m |] eqn:Hloc; [| done].
    apply andb_true_iff in Hfound as [Hroot Howner].
    apply is_root_object_true in Hroot as [<- <-].
    apply bool_decide_eq_true in Howner. by exists m.
  - intros (m & Hin & Hloc & Howner). exists (objects.x m, objects.y m).
    split; [by apply list_elem_of_In |]. rewrite Hloc.
    apply andb_true_iff. split; [by apply is_root_object_true |].
    by apply bool_decide_eq_true.
Qed.

(** An owner other than 0 for whom a location is in line of sight is
    among the owners with line of sight at that location. *)
Theorem is_location_in_los_user (c : t) (x y : Z) (o : N) :
  o ≠ 0%N → is_location_in_los c x y o = true →
  o ∈ get_users_with_los_at c x y.
Proof.
  intros Ho (m & Hin & Hloc & Howner)%is_location_in_los_scan.
  rewrite get_users_with_los_at_scan. apply owners_found. right.
  split; [done |]. by exists (objects.x m), (objects.y m), m.
Qed.

Lemma is_location_in_los_user_witness :
  7%N ∈ get_users_with_los_at scenario.with_O1 6 6.
Proof.
  apply (is_location_in_los_user scenario.with_O1 6 6 7).
  - done.
  - by vm_compute.
Defined.

(** The scan around one object of an owner, as [get_in_owner_los]
    makes it. *)
Lemma get_in_owner_los_scan (c : t) (o : N) :
  get_in_owner_los c o =
  foldl
    (λ result object,
       match as_map_obj object with
       | None => result
       | Some p =>
           foldl (collect_root c) result
             (los_cells c (objects.x p) (objects.y p))
       end)
    ∅ (owned_by c o).
Proof.
  unfold get_in_owner_los, owned_by.
  destruct (owner_idx c !! o) as [l |]; [| done]. simpl.
  generalize (∅ : gmap N map_obj). induction l as [| a l IH]; intros acc;
    [done |].
  cbn [foldl]. rewrite IH. f_equal.
Qed.

Lemma around_all_keeps (c : t) (l : list base_obj) (acc : gmap N map_obj)
    (i : N) (m : map_obj) :
  acc !! i = Some m →
  foldl
    (λ result object,
       match as_map_obj object with
       | None => result
       | Some p =>
           foldl (collect_root c) result
             (los_cells c (objects.x p) (objects.y p))
       end)
    acc l !! i = Some m.
Proof.
  revert acc. induction l as [| a l IH]; intros acc Hacc; cbn [foldl];
    [done |].
  apply IH. destruct (as_map_obj a); [| done]. by apply collect_root_keeps.
Qed.

Lemma around_all_sound (c : t) (l : list base_obj) (acc : gmap N map_obj)
    (i : N) (m : map_obj) :
  foldl
    (λ result object,
       match as_map_obj object with
       | None => result
       | Some p =>
           foldl (collect_root c) result
             (los_cells c (objects.x p) (objects.y p))
       end)
    acc l !! i = Some m →
  acc !! i = Some m
  ∨ (id (base m) = i ∧ get_loc c (objects.x m) (objects.y m) = Some m
     ∧ ∃ p, on_map p ∈ l
            ∧ (objects.x m, objects.y m)
              ∈ los_cells c (objects.x p) (objects.y p)).
Proof.
  revert acc. induction l as [| a l IH]; intros acc; cbn [foldl];
    [by left |].
  intros [Hacc | (Hid & Hloc & p & Hin & Hcell)]%IH.
  - destruct (as_map_obj a) as [p |] eqn:Hmap; [| by left].
    apply collect_root_sound in Hacc as [Hacc | (Hin & Hloc & Hid)];
      [by left |].
    right. split; [done |]. split; [done |]. exists p.
    apply as_map_obj_Some in Hmap. subst a. split; [by left | done].
  - right. split; [done |]. split; [done |]. exists p.
    split; [by right | done].
Qed.

Lemma around_all_complete (c : t) (l : list base_obj)
    (acc : gmap N map_obj) (p m : map_obj) :
  on_map p ∈ l →
  (objects.x m, objects.y m) ∈ los_cells c (objects.x p) (objects.y p) →
  get_loc c (objects.x m) (objects.y m) = Some m →
  is_Some
    (foldl
       (λ result object,
          match as_map_obj object with
          | None => result
          | Some p =>
              foldl (collect_root c) result
                (los_cells c (objects.x p) (objects.y p))
          end)
       acc l !! id (base m)).
Proof.
  revert acc. induction l as [| a l IH]; intros acc Hin Hcell Hloc;
    cbn [foldl]; [by apply elem_of_nil in Hin |].
  apply elem_of_cons in Hin as [<- | Hin]; [| by apply IH].
  simpl.
  destruct (collect_root_complete c _ acc m Hcell Hloc) as [w Hw].
  exists w. by apply around_all_keeps.
Qed.

Lemma get_in_owner_los_lookup (c : t) (o i : N) (m : map_obj) :
  consistent c →
  get_in_owner_los c o !! i = Some m ↔
  id (base m) = i
  ∧ get_at_location c (objects.x m) (objects.y m) = Some m
  ∧ ∃ p, get_by_id c (id (base p)) = Some (on_map p)
         ∧ owner (base p) = o
         ∧ (objects.x m, objects.y m)
           ∈ los_cells c (objects.x p) (objects.y p).
Proof.
  intros Hinv. rewrite get_in_owner_los_scan.
  unfold get_at_location, get_by_id. split.
  - intros [Habs | (Hid & Hloc & p & Hin & Hcell)]%around_all_sound;
      [done |].
    split; [done |]. split; [done |]. exists p.
    destruct (owner_entry c Hinv o _ Hin) as [Howner Hreg]. done.
  - intros (Hid & Hloc & p & Hreg & Howner & Hcell).
    destruct (registry_entry c Hinv _ _ Hreg) as (_ & _ & Hin & _).
    simpl in Hin. rewrite Howner in Hin.
    destruct (around_all_complete c _ ∅ p m Hin Hcell Hloc) as [m' Hm'].
    rewrite Hid in Hm'. rewrite Hm'. f_equal.
    apply around_all_sound in Hm' as [Habs | (Hid' & Hloc' & _)]; [done |].
    eapply grid_ids_unique; [done | exact Hloc' | exact Hloc | congruence].
Qed.

(** The line of sight of an owner is the union of the scans around its
    positioned objects. *)
Theorem get_in_owner_los_union (c : t) (o i : N) (m : map_obj) :
  consistent c →
  get_in_owner_los c o !! i = Some m ↔
  id (base m) = i
  ∧ get_at_location c (objects.x m) (objects.y m) = Some m
  ∧ ∃ p, get_by_id c (id (base p)) = Some (on_map p)
         ∧ owner (base p) = o
         ∧ (objects.x m, objects.y m)
           ∈ los_cells c (objects.x p) (objects.y p).
Proof. apply get_in_owner_los_lookup. Qed.

Lemma get_in_owner_los_union_witness :
  get_in_owner_los scenario.with_O1 7 !! 1%N = Some scenario.O1 ↔
  id (base scenario.O1) = 1%N
  ∧ get_at_location scenario.with_O1 (objects.x scenario.O1)
      (objects.y scenario.O1) = Some scenario.O1
  ∧ ∃ p, get_by_id scenario.with_O1 (id (base p)) = Some (on_map p)
         ∧ owner (base p) = 7%N
         ∧ (objects.x scenario.O1, objects.y scenario.O1)
           ∈ los_cells scenario.with_O1 (objects.x p) (objects.y p).
Proof.
  apply (get_in_owner_los_union scenario.with_O1 7 1 scenario.O1).
  apply with_O1_consistent.
Defined.

(** An owner has its own object in line of sight when the radius is
    positive and the object is not in the last column or row. *)
Theorem get_in_owner_los_own (c : t) (p : map_obj) :
  consistent c →
  get_by_id c (id (base p)) = Some (on_map p) →
  0 < objects.width p → 0 < objects.height p → 0 < los_radius c →
  is_location_in_bounds c (objects.x p) (objects.y p) 2 2 = true →
  get_in_owner_los c (owner (base p)) !! id (base p) = Some p.
Proof.
  intros Hinv Hreg Hw Hh Hr Hin. apply get_in_owner_los_lookup; [done |].
  split; [done |].
  destruct (registry_entry c Hinv _ _ Hreg) as (_ & _ & _ & Hcells).
  split.
  - apply (Hcells p eq_refl). apply elem_of_footprint. lia.
  - exists p. split; [done |]. split; [done |].
    unfold is_location_in_bounds in Hin.
    rewrite !andb_true_iff, !bool_decide_eq_true in Hin.
    apply elem_of_los_cells. lia.
Qed.

Lemma get_in_owner_los_own_witness :
  get_in_owner_los scenario.with_O1 7 !! 1%N = Some scenario.O1.
Proof.
  apply (get_in_owner_los_own scenario.with_O1 scenario.O1).
  - apply with_O1_consistent.
  - by vm_compute.
  - by vm_compute.
  - by vm_compute.
  - by vm_compute.
  - by vm_compute.
Defined.

(** ** Update scopes *)

Lemma mutation_guard (c c' : t) (me : positive) (k : run.call) :
  is_mutation k = true → run.step c me k = Some c' →
  lock_holder c' = lock_holder c ∧ mtx_owner c' = mtx_owner c
  ∧ mtx_depth c' = mtx_depth c.
Proof.
  destruct k as [x y w h | | o | o]; simpl; try done; intros _ [= <-].
  - destruct (add_guard c o) as [-> ->]. split; [done |]. split; [done |].
    unfold add. destruct (as_map_obj o) as [m |]; [| done].
    unfold add_internal_map. destruct (existsb _ _); [done |]. simpl.
    pose proof (write_frame (Some m) (footprint m) c) as Hframe.
    simpl in Hframe. tauto.
  - destruct (remove_guard c o) as [-> ->]. split; [done |]. split; [done |].
    unfold remove. destruct (as_map_obj o) as [m |]; [| done].
    unfold remove_internal_map.
    pose proof (write_frame None (footprint m) (remove_internal c o))
      as Hframe.
    simpl in Hframe. tauto.
Qed.

Lemma mutations_guard (body : list (positive * run.call)) (c : t) :
  Forall (λ e, is_mutation e.2 = true) body →
  ∃ c', run.steps c body = Some c'
        ∧ lock_holder c' = lock_holder c ∧ mtx_owner c' = mtx_owner c
        ∧ mtx_depth c' = mtx_depth c.
Proof.
  revert c. induction body as [| [thread k] body IH]; intros c Hbody; simpl.
  - by exists c.
  - apply Forall_cons in Hbody as [Hk Hbody]. simpl in Hk.
    destruct (run.step c thread k) as [c1 |] eqn:Hstep.
    + destruct (mutation_guard c c1 thread k Hk Hstep) as (Hh & Ho & Hd).
      destruct (IH c1 Hbody) as (c' & Hrun & Hh' & Ho' & Hd').
      exists c'. split; [done |]. split; [congruence |].
      split; congruence.
    + by destruct k.
Qed.

(** A scope opened while the mutex is free: whatever mutations it holds,
    the thread that opened it is the holder throughout, no other thread
    gets in, and [end_update] leaves the mutex free. *)
Theorem scope_releases (c : t) (me : positive) (x y width height : Z)
    (body : list (positive * run.call)) :
  mtx_owner c = None →
  Forall (λ e, is_mutation e.2 = true) body →
  ∃ c1 c2,
    run.steps c ((me, run.begin_update_call x y width height) :: body)
    = Some c1
    ∧ lock_holder c1 = Some me
    ∧ (∀ other, other ≠ me →
         begin_update c1 other x y width height = None
         ∧ end_update c1 other = None)
    ∧ end_update c1 me = Some c2
    ∧ mtx_owner c2 = None ∧ lock_holder c2 = None.
Proof.
  intros Hfree Hbody. cbn [run.steps run.step].
  unfold begin_update at 1, lock. rewrite Hfree.
  destruct (mutations_guard body (with_mtx c (Some me) 1 (Some me)) Hbody)
    as (c1 & Hrun & Hholder & Howner & Hdepth).
  simpl in Hholder, Howner, Hdepth.
  exists c1. eexists. split; [exact Hrun |]. split; [done |]. split.
  - intros other Hother. unfold begin_update, end_update, lock, unlock.
    rewrite Howner. by rewrite !decide_False by congruence.
  - unfold end_update, unlock. rewrite Howner, Hdepth.
    rewrite decide_True by done. done.
Qed.

Lemma scope_releases_witness :
  ∃ c1 c2,
    run.steps scenario.area
      [(1%positive, run.begin_update_call 0 0 10 10);
       (2%positive, run.add_call scenario.ticking)]
    = Some c1
    ∧ lock_holder c1 = Some 1%positive
    ∧ (∀ other, other ≠ 1%positive →
         begin_update c1 other 0 0 10 10 = None
         ∧ end_update c1 other = None)
    ∧ end_update c1 1 = Some c2
    ∧ mtx_owner c2 = None ∧ lock_holder c2 = None.
Proof.
  apply (scope_releases scenario.area 1 0 0 10 10
           [(2%positive, run.add_call scenario.ticking)]).
  - reflexivity.
  - repeat constructor.
Defined.

Lemma steps_then (trace tail : list (positive * run.call)) (c c' : t) :
  run.steps c trace = Some c' →
  run.steps c (trace ++ tail) = run.steps c' tail.
Proof.
  revert c. induction trace as [| [thread k] trace IH]; intros c; simpl.
  - by intros [= ->].
  - destruct (run.step c thread k); [apply IH | done].
Qed.

(** Nested scopes lose the holder.  A thread that is inside an update
    scope and opens and closes an inner scope still owns the mutex, at the
    depth it had, but is no longer the recorded holder: whatever [add] and
    [remove] calls follow the inner [end_update], [get_next_updatable]
    fails with [SynchronizationViolation], until the thread calls
    [begin_update] again, after which it returns the entries of the
    updatable index. *)
Theorem nested_scope_forgets_holder (c c1 : t) (me : positive)
    (x y width height : Z) (body rest : list (positive * run.call)) :
  begin_update c me x y width height = Some c1 →
  Forall (λ e, is_mutation e.2 = true) body →
  Forall (λ e, is_mutation e.2 = true) rest →
  ∃ c2,
    run.steps c1
      ((me, run.begin_update_call x y width height) :: body
       ++ (me, run.end_update_call) :: rest)
    = Some c2
    ∧ mtx_owner c2 = Some me ∧ mtx_depth c2 = mtx_depth c1
    ∧ lock_holder c2 = None
    ∧ (∀ position,
         get_next_updatable c2 me position = inl SynchronizationViolation)
    ∧ ∃ c3,
        begin_update c2 me x y width height = Some c3
        ∧ ∀ position,
            get_next_updatable c3 me position
            = inr (updatable_idx c2 !! position).
Proof.
  intros Hbegin Hbody Hrest.
  assert (mtx_owner c1 = Some me ∧ ∃ d, mtx_depth c1 = S d)
    as [Howner [d Hd]].
  { revert Hbegin. unfold begin_update, lock.
    destruct (mtx_owner c) as [o |].
    - case_decide; [| done]. intros [= <-]. simpl. eauto.
    - intros [= <-]. simpl. eauto. }
  assert (begin_update c1 me x y width height
          = Some (with_mtx c1 (Some me) (S (mtx_depth c1)) (Some me)))
    as Hinner.
  { unfold begin_update, lock. rewrite Howner. by rewrite decide_True. }
  cbn [run.steps run.step]. rewrite Hinner.
  destruct (mutations_guard body
              (with_mtx c1 (Some me) (S (mtx_depth c1)) (Some me)) Hbody)
    as (c' & Hrun & Hholder & Howner' & Hdepth).
  simpl in Hholder, Howner', Hdepth.
  rewrite (steps_then _ _ _ _ Hrun). cbn [run.steps run.step].
  assert (end_update c' me = Some (with_mtx c' (Some me) (S d) None))
    as Hend.
  { unfold end_update, unlock. rewrite Howner', Hdepth, Hd.
    by rewrite decide_True. }
  rewrite Hend.
  destruct (mutations_guard rest (with_mtx c' (Some me) (S d) None) Hrest)
    as (c2 & Hrun2 & Hholder2 & Howner2 & Hdepth2).
  simpl in Hholder2, Howner2, Hdepth2.
  exists c2. split; [done |]. split; [done |].
  split; [congruence |]. split; [done |]. split.
  - intros position. unfold get_next_updatable.
    by rewrite Hholder2, decide_True.
  - exists (with_mtx c2 (Some me) (S (mtx_depth c2)) (Some me)). split.
    + unfold begin_update, lock. rewrite Howner2. by rewrite decide_True.
    + intros position. by rewrite get_next_updatable_holder.
Qed.

Lemma nested_scope_forgets_holder_witness :
  ∃ c2,
    run.steps scenario.opened
      [(1%positive, run.begin_update_call 0 0 10 10);
       (1%positive, run.add_call scenario.ticking);
       (1%positive, run.end_update_call);
       (1%positive, run.add_call (on_map scenario.O1))]
    = Some c2
    ∧ mtx_owner c2 = Some 1%positive
    ∧ mtx_depth c2 = mtx_depth scenario.opened
    ∧ lock_holder c2 = None
    ∧ (∀ position,
         get_next_updatable c2 1 position = inl SynchronizationViolation)
    ∧ ∃ c3,
        begin_update c2 1 0 0 10 10 = Some c3
        ∧ ∀ position,
            get_next_updatable c3 1 position
            = inr (updatable_idx c2 !! position).
Proof.
  apply (nested_scope_forgets_holder scenario.area scenario.opened 1
           0 0 10 10 [(1%positive, run.add_call scenario.ticking)]
           [(1%positive, run.add_call (on_map scenario.O1))]).
  - reflexivity.
  - repeat constructor.
  - repeat constructor.
Defined.

(** ** The guard, and the order of [get_next_updatable] *)

Lemma steps_scopes_counted (trace : list (positive * run.call)) (c c' : t)
    (open : positive → nat) :
  scopes_counted c open → run.steps c trace = Some c' →
  scopes_counted c' (λ thread, open_scopes thread trace (open thread)).
Proof.
  revert c open. induction trace as [| [me k] trace IH]; intros c open Hinv;
    simpl.
  - by intros [= <-].
  - destruct (run.step c me k) as [c1 |] eqn:Hstep; [| done].
    intros Hrun. apply (IH c1); [| done]. clear IH Hrun.
    revert Hstep. unfold scopes_counted in *.
    destruct k as [x y w h | | o | o]; simpl.
    + unfold begin_update, lock. destruct (mtx_owner c) as [holder |].
      * case_decide as Hme; [| done]. subst holder. intros [= <-]. simpl.
        destruct Hinv as (Hopen & Hpos & Hothers).
        rewrite decide_True by done. split; [by rewrite Hopen |].
        split; [lia |]. intros thread Hne.
        rewrite decide_False by done. by apply Hothers.
      * intros [= <-]. simpl. rewrite decide_True by done.
        split; [by rewrite Hinv |]. split; [lia |].
        intros thread Hne. by rewrite decide_False.
    + unfold end_update, unlock. destruct (mtx_owner c) as [holder |];
        [| done].
      case_decide as Hme; [| done]. subst holder.
      destruct Hinv as (Hopen & Hpos & Hothers).
      destruct (mtx_depth c) as [| [| d]] eqn:Hd; intros [= <-]; simpl.
      * lia.
      * intros thread. case_decide as Hthread.
        -- subst thread. by rewrite Hopen.
        -- by apply Hothers.
      * rewrite decide_True by done. split; [by rewrite Hopen |].
        split; [lia |]. intros thread Hne.
        rewrite decide_False by done. by apply Hothers.
    + intros Hstep.
      destruct (mutation_guard c c1 me (run.add_call o) eq_refl Hstep)
        as (_ & -> & ->).
      destruct (mtx_owner c) as [holder |].
      * destruct Hinv as (Hopen & Hpos & Hothers).
        split; [by case_decide |]. split; [done |].
        intros thread Hne. case_decide; by apply Hothers.
      * intros thread. by case_decide.
    + intros Hstep.
      destruct (mutation_guard c c1 me (run.remove_call o) eq_refl Hstep)
        as (_ & -> & ->).
      destruct (mtx_owner c) as [holder |].
      * destruct Hinv as (Hopen & Hpos & Hothers).
        split; [by case_decide |]. split; [done |].
        intros thread Hne. case_decide; by apply Hothers.
      * intros thread. by case_decide.
Qed.

Lemma no_scope_no_mutex (sx sy w h r : Z)
    (trace : list (positive * run.call)) (c : t) (me : positive) :
  run.steps (new sx sy w h r) trace = Some c →
  open_scopes me trace 0 = 0%nat → mtx_owner c ≠ Some me.
Proof.
  intros Hrun Hnone Howner.
  pose proof (steps_scopes_counted trace (new sx sy w h r) c (λ _, 0%nat))
    as Hinv.
  unfold scopes_counted in Hinv at 2. rewrite Howner in Hinv.
  destruct Hinv as (Hopen & Hpos & _); [by intros thread | done |].
  rewrite Hnone in Hopen. lia.
Qed.

Lemma erase_first_lookup (o a : base_obj) (v : list base_obj) (p n : nat) :
  v !! p = Some a → address (fields a) = address (fields o) →
  (∀ q b, (q < p)%nat → v !! q = Some b →
          address (fields b) ≠ address (fields o)) →
  erase_first o v !! n = v !! (if decide (n < p)%nat then n else S n).
Proof.
  revert p n. induction v as [| b v IH]; intros p n; [done |].
  destruct p as [| p]; simpl.
  - intros [= ->] Haddr _. by rewrite decide_True.
  - intros Hp Haddr Hfirst.
    rewrite decide_False by (apply (Hfirst 0%nat); [lia | done]).
    destruct n as [| n]; [done |]. simpl.
    rewrite (IH p n Hp Haddr).
    + by repeat case_decide; try lia.
    + intros q b' Hq. apply (Hfirst (S q)). lia.
Qed.

Lemma filter_swap {A : Type} (P Q : A → Prop) `{!∀ x, Decision (P x)}
    `{!∀ x, Decision (Q x)} (l : list A) :
  filter P (filter Q l) = filter Q (filter P l).
Proof.
  induction l as [| a l IH]; [done |].
  rewrite (filter_cons Q), (filter_cons P).
  destruct (decide (Q a)), (decide (P a)).
  - by rewrite (filter_cons P), (filter_cons Q), !decide_True, IH.
  - by rewrite (filter_cons P), decide_False.
  - by rewrite (filter_cons Q), decide_False.
  - done.
Qed.

Lemma filter_elsewhere (o : base_obj) (v : list base_obj) :
  Forall (λ a, address (fields a) ≠ address (fields o)) v →
  filter (λ a, address (fields a) ≠ address (fields o)) v = v.
Proof.
  induction 1 as [| a v Ha Hv IH]; [done |].
  rewrite filter_cons, decide_True by done. by rewrite IH.
Qed.

Lemma erase_first_filter (o : base_obj) (v : list base_obj) :
  NoDup v →
  (∀ a, a ∈ v → address (fields a) = address (fields o) → a = o) →
  erase_first o v = filter (λ a, address (fields a) ≠ address (fields o)) v.
Proof.
  induction 1 as [| b v Hb Hv IH]; intros Halone; simpl; [done |].
  rewrite filter_cons. case_decide as Hbo.
  - rewrite decide_False by (intros Hne; by apply Hne). symmetry.
    assert (b = o) as -> by (apply Halone; [by left | done]).
    apply filter_elsewhere, Forall_forall. intros a Ha Haddr.
    apply Hb. rewrite <- (Halone a); [done | by right | done].
  - rewrite decide_True by done. f_equal. apply IH.
    intros a Ha. apply Halone. by right.
Qed.

Lemma new_in_order (sx sy w h r : Z) : in_order (new sx sy w h r) [].
Proof.
  split; simpl; [constructor | | done].
  intros a Ha. by apply elem_of_nil in Ha.
Qed.

Lemma in_order_same_indices (c c' : t) (l : list base_obj) :
  id_idx c' = id_idx c → updatable_idx c' = updatable_idx c →
  in_order c l → in_order c' l.
Proof. intros Hid Hupd [Hdup Hentry Hlist]. split; by rewrite ?Hid, ?Hupd. Qed.

Lemma add_in_order (c c' : t) (o : base_obj) (l : list base_obj) :
  in_order c l → allowed c (run.add_call o) → add c o = (None, c') →
  in_order c' (l ++ [o]).
Proof.
  intros [Hdup Hentry Hlist] (_ & Hfresh & _) Hadd.
  pose proof (add_done c c' o Hadd) as (Hid & _).
  pose proof (add_owner_idx c c' o Hadd) as [_ Hupd].
  split.
  - apply NoDup_app. split; [done |]. split; [| apply NoDup_singleton].
    intros a Ha ->%list_elem_of_singleton.
    rewrite (Hentry _ Ha) in Hfresh. done.
  - intros a [Ha | ->%list_elem_of_singleton]%elem_of_app; rewrite Hid.
    + rewrite lookup_insert_ne; [by apply Hentry |].
      intros Heq. rewrite Heq, (Hentry _ Ha) in Hfresh. done.
    + by rewrite lookup_insert_eq.
  - rewrite Hupd, Hlist, filter_app, filter_cons.
    destruct (is_updatable (fields o)) eqn:Hcap.
    + by rewrite decide_True.
    + rewrite decide_False by done. by rewrite app_nil_r.
Qed.

Lemma remove_in_order (c : t) (o : base_obj) (l : list base_obj) :
  in_order c l → apart c → allowed c (run.remove_call o) →
  in_order (remove c o)
    (filter (λ a, address (fields a) ≠ address (fields o)) l).
Proof.
  intros [Hdup Hentry Hlist] Hapart Hstored. simpl in Hstored.
  destruct (remove_grid c o) as [Hid _].
  assert (∀ a, a ∈ l → address (fields a) = address (fields o) → a = o)
    as Halone.
  { intros a Ha Haddr.
    by apply (Hapart (id (fields a)) (id (fields o)) a o (Hentry a Ha)). }
  split.
  - by apply NoDup_filter.
  - intros a [Haddr Ha]%list_elem_of_filter. rewrite Hid.
    rewrite lookup_delete_ne; [by apply Hentry |].
    intros Heq. apply Haddr. pose proof (Hentry a Ha) as Hrega.
    rewrite <- Heq in Hrega. congruence.
  - rewrite remove_updatable_idx, Hlist.
    destruct (is_updatable (fields o)) eqn:Hcap.
    + rewrite erase_first_filter.
      * apply filter_swap.
      * by apply NoDup_filter.
      * intros a [_ Ha]%list_elem_of_filter. by apply Halone.
    + clear Hdup Hentry Hlist. induction l as [| a l IH]; [done |].
      rewrite !filter_cons.
      destruct (decide (address (fields a) = address (fields o)))
        as [Haddr | Haddr].
      * assert (a = o) as -> by (apply Halone; [by left | done]).
        rewrite decide_False by congruence.
        rewrite decide_False by (intros Hne; by apply Hne).
        apply IH. intros a Ha. apply Halone. by right.
      * rewrite (decide_True (P := address (fields a) ≠ _)) by done.
        rewrite filter_cons.
        case_decide; [f_equal |]; apply IH; intros b Hb; apply Halone;
          by right.
Qed.

Lemma steps_in_order (trace : list (positive * run.call)) (c c' : t)
    (l : list base_obj) :
  in_order c l → apart c → all_allowed c trace →
  run.steps c trace = Some c' →
  in_order c' (insertion_order c trace l).
Proof.
  revert c l. induction trace as [| [me k] trace IH];
    intros c l Hinv Hapart; simpl.
  - by intros _ [= <-].
  - intros [Hok Hrest]. destruct (run.step c me k) as [c1 |] eqn:Hstep;
      [| done].
    apply IH; [| by eapply step_apart | done]. clear IH Hrest.
    revert Hstep. destruct k as [x y w h | | o | o]; simpl.
    + unfold begin_update, lock. destruct (mtx_owner c) as [holder |].
      * case_decide; [| done]. intros [= <-].
        by apply (in_order_same_indices c).
      * intros [= <-]. by apply (in_order_same_indices c).
    + unfold end_update, unlock. destruct (mtx_owner c) as [holder |];
        [| done].
      case_decide; [| done].
      destruct (mtx_depth c) as [| [| d]]; intros [= <-];
        by apply (in_order_same_indices c).
    + intros [= <-]. destruct (add c o) as [[e |] c1] eqn:Hadd; simpl.
      * apply add_failed in Hadd as [-> _]. done.
      * by eapply add_in_order.
    + intros [= <-]. by apply remove_in_order.
Qed.

(** Whatever is called, the updatable index holds only objects that are
    [updatable]. *)
Lemma steps_updatable_only (trace : list (positive * run.call)) (c c' : t) :
  Forall (λ a, is_updatable (fields a) = true) (updatable_idx c) →
  run.steps c trace = Some c' →
  Forall (λ a, is_updatable (fields a) = true) (updatable_idx c').
Proof.
  revert c. induction trace as [| [me k] trace IH]; intros c Hinv; simpl.
  - by intros [= <-].
  - destruct (run.step c me k) as [c1 |] eqn:Hstep; [| done].
    apply IH. clear IH. revert Hstep.
    destruct k as [x y w h | | o | o]; simpl.
    + unfold begin_update, lock. destruct (mtx_owner c) as [holder |].
      * case_decide; [| done]. by intros [= <-].
      * by intros [= <-].
    + unfold end_update, unlock. destruct (mtx_owner c) as [holder |];
        [| done].
      case_decide; [| done].
      by destruct (mtx_depth c) as [| [| d]]; intros [= <-].
    + intros [= <-]. destruct (add c o) as [[e |] c1] eqn:Hadd; simpl.
      * apply add_failed in Hadd as [-> _]. done.
      * apply add_owner_idx in Hadd as [_ ->].
        destruct (is_updatable (fields o)) eqn:Hcap; [| done].
        apply Forall_app. split; [done |]. by apply Forall_singleton.
    + intros [= <-]. rewrite remove_updatable_idx.
      destruct (is_updatable (fields o)); [| done].
      apply Forall_forall. intros a Ha%erase_first_subseteq.
      revert a Ha. by apply Forall_forall.
Qed.

Lemma end_update_forgets (c c' : t) (thread : positive) :
  end_update c thread = Some c' → lock_holder c' = None.
Proof.
  unfold end_update, unlock. destruct (mtx_owner c) as [holder |]; [| done].
  case_decide; [| done].
  by destruct (mtx_depth c) as [| [| d]]; intros [= <-].
Qed.

Lemma get_next_updatable_stranger (c : t) (me : positive) (position : nat) :
  lock_holder c ≠ Some me →
  get_next_updatable c me position = inl SynchronizationViolation.
Proof. intros Hnot. unfold get_next_updatable. by rewrite decide_True. Qed.

(** C5: in every state the cache reaches from its construction,
    [get_next_updatable] fails with [SynchronizationViolation] for a
    thread that does not own the mutex, for a thread that has no update
    scope open, each [begin_update] of its own being matched by an
    [end_update] of its own, and for every thread once an [end_update]
    has returned.  For the thread that called [begin_update], and as long
    as no [end_update] follows:
    - it returns the entry of the updatable index at the position asked
      for, and none past its end;
    - every object it returns is [updatable];
    - where the calls respect the design's discipline, the objects it
      returns are, position by position, the [updatable] ones among the
      objects inserted and not removed since, in the order of their
      insertion;
    - an [add] that succeeds with an [updatable] object puts it at the
      first position past the end and changes no other position, and any
      other [add] changes none;
    - a [remove] of an [updatable] object takes out the first entry at
      its address and moves every later entry up by one; it changes
      nothing where no entry is at that address, or where the object is
      not [updatable]. *)
Theorem get_next_updatable_guarded (sx sy w h r : Z)
    (trace : list (positive * run.call)) (c : t) (me : positive)
    (position : nat) :
  run.steps (new sx sy w h r) trace = Some c →
  (mtx_owner c ≠ Some me →
     get_next_updatable c me position = inl SynchronizationViolation)
  ∧ (open_scopes me trace 0 = 0%nat →
       get_next_updatable c me position = inl SynchronizationViolation)
  ∧ (∀ thread c',
       end_update c thread = Some c' →
       get_next_updatable c' me position = inl SynchronizationViolation)
  ∧ (∀ x y width height scope c',
       run.steps c ((me, run.begin_update_call x y width height) :: scope)
       = Some c' →
       Forall (λ e, run.is_end_update e.2 = false) scope →
       get_next_updatable c' me position
       = inr (updatable_idx c' !! position)
       ∧ ((length (updatable_idx c') ≤ position)%nat →
            get_next_updatable c' me position = inr None)
       ∧ (∀ object,
            get_next_updatable c' me position = inr (Some object) →
            is_updatable (fields object) = true)
       ∧ (all_allowed (new sx sy w h r)
            (trace ++ (me, run.begin_update_call x y width height) :: scope) →
          get_next_updatable c' me position
          = inr (filter (λ o, is_updatable (fields o) = true)
                   (insertion_order (new sx sy w h r)
                      (trace
                       ++ (me, run.begin_update_call x y width height)
                          :: scope) [])
                 !! position))
       ∧ (∀ object,
            get_next_updatable (add c' object).2 me position =
            match (add c' object).1 with
            | None =>
                if is_updatable (fields object)
                   && bool_decide (position = length (updatable_idx c'))
                then inr (Some object)
                else get_next_updatable c' me position
            | Some _ => get_next_updatable c' me position
            end)
       ∧ (∀ object,
            (is_updatable (fields object) = false →
               get_next_updatable (remove c' object) me position
               = get_next_updatable c' me position)
            ∧ (is_updatable (fields object) = true →
               (∀ q b, get_next_updatable c' me q = inr (Some b) →
                       address (fields b) ≠ address (fields object)) →
               get_next_updatable (remove c' object) me position
               = get_next_updatable c' me position)
            ∧ (is_updatable (fields object) = true →
               ∀ p a,
                 get_next_updatable c' me p = inr (Some a) →
                 address (fields a) = address (fields object) →
                 (∀ q b, (q < p)%nat →
                         get_next_updatable c' me q = inr (Some b) →
                         address (fields b) ≠ address (fields object)) →
                 get_next_updatable (remove c' object) me position
                 = get_next_updatable c' me
                     (if decide (position < p)%nat then position
                      else S position)))).
Proof.
  intros Hrun.
  assert (guard_consistent c) as Hguard.
  { eapply steps_guard_consistent; [| exact Hrun]. intros thread; simpl.
    done. }
  split; [| split; [| split]].
  - intros Hnot. apply get_next_updatable_stranger.
    intros Hholder. by apply Hnot, Hguard.
  - intros Hnone. apply get_next_updatable_stranger.
    intros Hholder%Hguard. revert Hholder.
    by apply (no_scope_no_mutex sx sy w h r trace).
  - intros thread c' Hend. apply get_next_updatable_stranger.
    by rewrite (end_update_forgets c c' thread Hend).
  - intros x y width height scope c' Hscope Hnoend.
    assert (run.steps (new sx sy w h r)
              (trace ++ (me, run.begin_update_call x y width height) :: scope)
            = Some c') as Hwhole.
    { by rewrite (steps_then trace _ _ c Hrun). }
    simpl in Hscope.
    destruct (begin_update c me x y width height) as [c1 |] eqn:Hbegin;
      [| done].
    apply begin_update_holds in Hbegin as [Hholder Howner].
    pose proof (steps_in_scope scope c1 c' me Hholder Howner Hnoend Hscope)
      as Hheld.
    split; [by apply get_next_updatable_holder |].
    split; [| split; [| split; [| split]]].
    + intros Hpast. rewrite get_next_updatable_holder by done.
      by rewrite lookup_ge_None_2.
    + intros object. rewrite get_next_updatable_holder by done.
      intros [= Hat%list_elem_of_lookup_2]. revert object Hat.
      apply Forall_forall.
      apply (steps_updatable_only _ (new sx sy w h r) c' (Forall_nil_2 _)
               Hwhole).
    + intros Hok. rewrite get_next_updatable_holder by done.
      destruct (steps_in_order _ _ c' []
                  (new_in_order sx sy w h r) (new_apart sx sy w h r)
                  Hok Hwhole) as [_ _ ->].
      done.
    + intros object.
      assert (lock_holder (add c' object).2 = Some me) as Hheld'.
      { destruct (add_guard c' object) as [-> _]. done. }
      rewrite !get_next_updatable_holder by done.
      destruct (add c' object) as [[e |] c''] eqn:Hadd; simpl.
      * apply add_failed in Hadd as [-> _]. done.
      * apply add_owner_idx in Hadd as [_ ->].
        destruct (is_updatable (fields object)); simpl; [| done].
        case_bool_decide as Hpos.
        -- subst position. by rewrite list_lookup_middle.
        -- destruct (decide (position < length (updatable_idx c'))%nat).
           ++ by rewrite lookup_app_l.
           ++ rewrite !lookup_ge_None_2; [done | lia |].
              rewrite length_app. simpl. lia.
    + intros object.
      assert (lock_holder (remove c' object) = Some me) as Hheld'.
      { destruct (remove_guard c' object) as [-> _]. done. }
      rewrite !get_next_updatable_holder by done.
      rewrite remove_updatable_idx.
      split; [by intros -> |]. split.
      * intros -> Hnone. rewrite erase_first_absent; [done |].
        apply Forall_forall. intros b [q Hq]%list_elem_of_lookup.
        apply (Hnone q). rewrite get_next_updatable_holder by done.
        by rewrite Hq.
      * intros -> p a. rewrite !get_next_updatable_holder by done.
        intros [= Hp] Haddr Hfirst. f_equal.
        apply (erase_first_lookup object a); [done | done |].
        intros q b Hq Hb. apply (Hfirst q b Hq).
        rewrite get_next_updatable_holder by done. by rewrite Hb.
Qed.

Lemma get_next_updatable_guarded_witness :
  get_next_updatable scenario.scoped 1 0
  = inr (updatable_idx scenario.scoped !! 0%nat)
  ∧ get_next_updatable scenario.scoped 1 0
    = inr (filter (λ o, is_updatable (fields o) = true)
             (insertion_order scenario.area
                [(1%positive, run.begin_update_call 0 0 10 10);
                 (1%positive, run.add_call scenario.ticking)] [])
           !! 0%nat)
  ∧ get_next_updatable (remove scenario.scoped scenario.ticking) 1 0
    = get_next_updatable scenario.scoped 1 1.
Proof.
  destruct (get_next_updatable_guarded 0 0 10 10 2 [] scenario.area 1 0
              eq_refl) as (_ & _ & _ & Hscope).
  destruct (Hscope 0 0 10 10 [(1%positive, run.add_call scenario.ticking)]
              scenario.scoped) as (Hat & _ & _ & Hord & _ & Hremove).
  - vm_compute. reflexivity.
  - repeat constructor.
  - split; [exact Hat |]. split.
    + apply Hord. apply (bool_decide_unpack _). vm_compute. reflexivity.
    + destruct (Hremove scenario.ticking) as (_ & _ & Hfirst).
      apply (Hfirst eq_refl 0%nat scenario.ticking).
      * vm_compute. reflexivity.
      * reflexivity.
      * intros q b Hq. lia.
Defined.

(** ** Bounds *)

(** A rectangle with cells is in bounds exactly when all its cells are
    within the corners of the area. *)
Theorem is_location_in_bounds_cells (c : t) (x y width height : Z) :
  0 < width → 0 < height →
  is_location_in_bounds c x y width height = true ↔
  ∀ cx cy, (cx, cy) ∈ scan x (x + width) y (y + height) →
           (start_x c ≤ cx < end_x c) ∧ (start_y c ≤ cy < end_y c).
Proof.
  intros Hw Hh. unfold is_location_in_bounds.
  rewrite !andb_true_iff, !bool_decide_eq_true. split.
  - intros Hin cx cy Hcell%elem_of_scan. lia.
  - intros Hcells.
    pose proof (Hcells x y) as Hlow.
    pose proof (Hcells (x + width - 1) (y + height - 1)) as Hhigh.
    rewrite elem_of_scan in Hlow, Hhigh. lia.
Qed.

(** ** [get_in_area] for any rectangle *)

(** Whatever the rectangle, an entry of [get_in_area] is keyed by the id
    of its object, the object is the one at its own root cell, and the
    root cell is inside the bounds on the [x] axis, inside the rectangle
    on the [x] axis and below its upper [y] edge; a rectangle without
    cells gives no entry. *)
Theorem get_in_area_sound (c : t) (x y width height : Z) (i : N)
    (m : map_obj) :
  get_in_area c x y width height !! i = Some m →
  id (base m) = i
  ∧ get_at_location c (objects.x m) (objects.y m) = Some m
  ∧ (0 < width ∧ 0 < height)
  ∧ (x ≤ objects.x m < x + width ∧ start_x c ≤ objects.x m < end_x c)
  ∧ (objects.y m < y + height ∧ objects.y m < end_y c
     ∧ (y + height < end_y c → y ≤ objects.y m)).
Proof.
  rewrite get_in_area_scan.
  intros [Habs | (Hin & Hloc & Hid)]%collect_root_sound; [done |].
  split; [done |]. split; [done |].
  revert Hin. unfold get_in_area_cells, clamp. rewrite elem_of_scan.
  repeat case_bool_decide; lia.
Qed.

Lemma get_in_area_sound_witness :
  id (base scenario.O1) = 1%N
  ∧ get_at_location scenario.with_O1 (objects.x scenario.O1)
      (objects.y scenario.O1) = Some scenario.O1
  ∧ (0 < 3 ∧ 0 < 3)
  ∧ (4 ≤ objects.x scenario.O1 < 4 + 3
     ∧ start_x scenario.with_O1 ≤ objects.x scenario.O1
       < end_x scenario.with_O1)
  ∧ (objects.y scenario.O1 < 4 + 3
     ∧ objects.y scenario.O1 < end_y scenario.with_O1
     ∧ (4 + 3 < end_y scenario.with_O1 → 4 ≤ objects.y scenario.O1)).
Proof.
  apply (get_in_area_sound scenario.with_O1 4 4 3 3 1 scenario.O1).
  vm_compute. reflexivity.
Defined.

End cache_facts.

(** * Properties of the router *)

Module router_facts.
Import result_codes processor_node.

Section dispatch.
Context {H : Type} `{!base_handler H}.

(** Keeping the handler touches the handler tables only. *)
Lemma keep_handler_frame (n : t H) (authenticated_id type : N)
    (worker_num : nat) (h : H) :
  let n' := keep_handler n authenticated_id type worker_num h in
  authenticated_clients n' = authenticated_clients n
  ∧ state n' = state n ∧ outgoing n' = outgoing n
  ∧ area_id n' = area_id n ∧ broker n' = broker n.
Proof. unfold keep_handler. by case_decide. Qed.

(** C7: when the processing step of the handler chosen for a request
    signals a synchronization conflict, [on_request] returns
    [retry_later]; the response stream is the one it was given, with
    no result code and no payload added; the client-authentication
    index, the identities of the connections and the outgoing queue
    are unchanged. *)
Theorem conflict_means_retry_later (n : t H) (client : positive)
    (worker_num : nat) (category method : N)
    (parameters response : data_stream) (instances : list H)
    (handler h h' : H) :
  handlers_for n (state_of n client) !! request_type category method
  = Some instances →
  instances !! worker_num = Some handler →
  deserialize handler parameters = parsed h →
  process h (state_of n client) = synchronization_exception h' →
  ∃ n',
    on_request n client worker_num category method parameters response
    = returns (request_server.retry_later, response, n')
    ∧ authenticated_clients n' = authenticated_clients n
    ∧ state n' = state n
    ∧ outgoing n' = outgoing n.
Proof.
  intros Htable Hworker Hread Hconflict.
  eexists. split.
  - unfold on_request. rewrite Htable, Hworker, Hread, Hconflict.
    reflexivity.
  - pose proof (keep_handler_frame n (state_of n client)
                  (request_type category method) worker_num h')
      as Hframe.
    simpl in Hframe. tauto.
Qed.

(** A handler that leaves a new identity other than 0 and a result code
    other than "no response": [on_request] returns [success], the
    connection carries the new identity, is in the client-authentication
    index under it, and is among the connections [send] delivers to. *)
Theorem identity_established (n : t H) (client : positive)
    (worker_num : nat) (category method : N)
    (parameters response : data_stream) (instances : list H)
    (handler h h' : H) (result : result_code) (id : N) :
  handlers_for n (state_of n client) !! request_type category method
  = Some instances →
  instances !! worker_num = Some handler →
  deserialize handler parameters = parsed h →
  process h (state_of n client) = finished result id h' →
  result ≠ result_codes.no_response →
  id ≠ 0%N → id ≠ state_of n client →
  ∃ response' n',
    on_request n client worker_num category method parameters response
    = returns (request_server.success, response', n')
    ∧ state_of n' client = id
    ∧ client ∈ default [] (authenticated_clients n' !! id)
    ∧ ∀ payload, (Some client, payload) ∈ outgoing (send n' id payload).
Proof.
  intros Htable Hworker Hread Hdone Hresult Hid Hchanged.
  unfold on_request. rewrite Htable, Hworker, Hread, Hdone.
  rewrite (decide_False (P := _ ∧ _)) by tauto.
  unfold identity_changed. rewrite !decide_True by done.
  eexists _, _. split; [reflexivity |].
  pose proof (keep_handler_frame n (state_of n client)
                (request_type category method) worker_num h') as Hframe.
  simpl in Hframe. destruct Hframe as (Hclients & Hstate & _).
  unfold add_client. rewrite decide_False by done.
  assert (client ∈ default [] (authenticated_clients n !! id) ++ [client])
    as Hlisted by (apply elem_of_app; right; by apply list_elem_of_singleton).
  split; [| split].
  - unfold state_of; simpl. by rewrite lookup_insert_eq.
  - simpl. rewrite lookup_insert_eq. simpl. by rewrite Hclients.
  - intros payload. unfold send; simpl. rewrite lookup_insert_eq.
    simpl. apply elem_of_app. right.
    apply list_elem_of_fmap. exists client. by rewrite Hclients.
Qed.

End dispatch.

Lemma identity_established_witness :
  ∃ response' n',
    on_request scenario.node 2 0 0 2 [] []
    = returns (request_server.success, response', n')
    ∧ state_of n' 2 = 42%N
    ∧ 2%positive ∈ default [] (authenticated_clients n' !! 42%N)
    ∧ ∀ payload, (Some 2%positive, payload) ∈ outgoing (send n' 42 payload).
Proof.
  apply (identity_established scenario.node 2 0 0 2 [] []
           [scenario.login] scenario.login scenario.login scenario.login
           result_codes.success 42);
    by vm_compute.
Defined.

Lemma conflict_means_retry_later_witness :
  ∃ n',
    on_request scenario.node 2 0 0 3 [] [byte_written 9]
    = returns (request_server.retry_later, [byte_written 9], n')
    ∧ authenticated_clients n' = authenticated_clients scenario.node
    ∧ state n' = state scenario.node
    ∧ outgoing n' = outgoing scenario.node.
Proof.
  apply (conflict_means_retry_later scenario.node 2 0 0 3 [] [byte_written 9]
           [scenario.contended] scenario.contended scenario.contended
           scenario.contended);
    by vm_compute.
Defined.

(** ** Identity 0 and the client-authentication index *)

Section index.
Context {H : Type}.

Lemma add_client_no_zero (n : t H) (id : N) (conn : positive) :
  authenticated_clients n !! 0%N = None →
  authenticated_clients (add_client n id conn) !! 0%N = None.
Proof.
  intros Hzero. unfold add_client. case_decide as Hid; [done |].
  simpl. by rewrite lookup_insert_ne.
Qed.

Lemma del_client_no_zero (n n' : t H) (id : N) (conn : positive) :
  authenticated_clients n !! 0%N = None →
  del_client n id conn = returns n' →
  authenticated_clients n' !! 0%N = None.
Proof.
  intros Hzero. unfold del_client. case_decide as Hid; [congruence |].
  case_decide; [done |].
  destruct (authenticated_clients n !! id) as [list |]; [| congruence].
  destruct (erase_found conn list) as [list' |]; [| done].
  intros [= <-]. simpl. case_decide.
  - by rewrite lookup_delete_ne.
  - by rewrite lookup_insert_ne.
Qed.

Lemma calls_no_zero (l : list clients.call) (n n' : t H) :
  authenticated_clients n !! 0%N = None →
  clients.calls n l = returns n' →
  authenticated_clients n' !! 0%N = None.
Proof.
  revert n. induction l as [| [id conn | id conn] l IH]; intros n Hzero;
    simpl.
  - by intros [= <-].
  - apply IH. by apply add_client_no_zero.
  - destruct (del_client n id conn) as [n1 | |] eqn:Hdel; [| done | done].
    apply IH. by eapply del_client_no_zero.
Qed.

Lemma initial_no_zero (started : bool) (workers : nat) (area_id : N)
    (auth unauth : gmap N (list H)) (conn : positive) :
  authenticated_clients
    (clients.initial started workers area_id auth unauth conn) !! 0%N
  = None.
Proof.
  unfold clients.initial, start. destruct started; [| done].
  case_decide as Harea; [| done]. simpl. by rewrite lookup_insert_ne.
Qed.

(** C10: after any sequence of [add_client] and [del_client] calls on
    a node, started or not, identity 0 is not a key of the
    client-authentication index; [add_client] and [del_client] with
    identity 0 return the node as it is, the latter without the broker
    exception; and [send] to identity 0 returns the node as it is, with
    nothing added to the outgoing queue. *)
Theorem identity_zero_never_indexed (started : bool) (workers : nat)
    (area_id : N) (auth unauth : gmap N (list H)) (broker_conn : positive)
    (l : list clients.call) (n : t H) :
  clients.calls
    (clients.initial started workers area_id auth unauth broker_conn) l
  = returns n →
  authenticated_clients n !! 0%N = None
  ∧ (∀ conn, add_client n 0 conn = n ∧ del_client n 0 conn = returns n)
  ∧ (∀ payload, send n 0 payload = n).
Proof.
  intros Hcalls.
  assert (authenticated_clients n !! 0%N = None) as Hzero.
  { eapply calls_no_zero; [| exact Hcalls]. apply initial_no_zero. }
  split; [done |]. split.
  - intros conn. by unfold add_client, del_client.
  - intros payload. unfold send. by rewrite Hzero.
Qed.

End index.

Lemma identity_zero_never_indexed_witness :
  ∃ n : t scenario.scripted,
    authenticated_clients n !! 42%N = Some [3%positive]
    ∧ authenticated_clients n !! 0%N = None
    ∧ (∀ conn, add_client n 0 conn = n ∧ del_client n 0 conn = returns n)
    ∧ (∀ payload, send n 0 payload = n).
Proof.
  eexists. split; [| apply (identity_zero_never_indexed true 1 5 ∅ ∅ 1
           [clients.add_client_call 0 2; clients.add_client_call 42 2;
            clients.add_client_call 42 3; clients.del_client_call 0 3;
            clients.del_client_call 42 2])].
  2: { vm_compute. reflexivity. }
  by vm_compute.
Defined.

(** ** Where the code leaves the design *)

(** C6: a connection without identity sends a request whose handler
    sets identity 42 and returns the "no response" code: [on_request]
    returns before the index is touched, the connection keeps identity 0
    and [send] to 42 reaches nobody.  A connection that logs in as 42 and
    then sends a request whose handler clears the identity is taken out
    of the index, and its [state] still reads 42. *)
Theorem identity_change_not_carried_over :
  (∃ n,
     on_request scenario.node 2 0 0 1 [] []
     = returns (request_server.no_response, [code_written no_response], n)
     ∧ state_of n 2 = 0%N
     ∧ authenticated_clients n !! 42%N = None
     ∧ send n 42 [byte_written 7] = n)
  ∧ (∃ n1 n2,
       on_request scenario.node 2 0 0 2 [] []
       = returns (request_server.success,
                  [code_written success; byte_written 1], n1)
       ∧ state_of n1 2 = 42%N
       ∧ authenticated_clients n1 !! 42%N = Some [2%positive]
       ∧ on_request n1 2 0 0 1 [] []
         = returns (request_server.success, [code_written success], n2)
       ∧ authenticated_clients n2 !! 42%N = None
       ∧ state_of n2 2 = 42%N).
Proof.
  split.
  - eexists. split; [vm_compute; reflexivity |]. by vm_compute.
  - eexists. eexists. split; [vm_compute; reflexivity |].
    split; [by vm_compute |]. split; [by vm_compute |].
    split; [vm_compute; reflexivity |]. by vm_compute.
Qed.

Import traffic.

(** ** Request types *)

Lemma request_type_value (category method : N) :
  (category < 256)%N → (method < 256)%N →
  request_type category method = (category * 256 + method)%N.
Proof.
  intros Hc Hm. unfold request_type.
  assert (N.land (N.shiftl category 8) method = 0%N) as Hdisjoint.
  { apply N.bits_inj. intros i. rewrite N.land_spec, N.bits_0.
    destruct (decide (i < 8)%N) as [Hlow | Hhigh].
    - rewrite N.shiftl_spec_low by done. done.
    - apply andb_false_intro2.
      destruct (decide (method = 0%N)) as [-> | Hpos];
        [apply N.bits_0 |].
      apply N.bits_above_log2.
      assert (N.log2 method < 8)%N; [| lia].
      apply N.log2_lt_pow2; [lia | done]. }
  rewrite <- N.lxor_lor, <- N.add_nocarry_lxor by done.
  rewrite N.shiftl_mul_pow2. change (2 ^ 8)%N with 256%N.
  apply N.mod_small. lia.
Qed.

(** Two requests have the same type key only if they have the same
    category and the same method. *)
Theorem request_type_distinct (category method category' method' : N) :
  (category < 256)%N → (method < 256)%N →
  (category' < 256)%N → (method' < 256)%N →
  request_type category method = request_type category' method' →
  category = category' ∧ method = method'.
Proof.
  intros Hc Hm Hc' Hm'. rewrite !request_type_value by done. lia.
Qed.

Lemma request_type_distinct_witness : (3 = 3 ∧ 7 = 7)%N.
Proof.
  apply (request_type_distinct 3 7 3 7); [lia | lia | lia | lia |].
  reflexivity.
Defined.

Section traffic_facts.
Context {H : Type} `{!base_handler H}.

Lemma add_client_kept (area : N) (listed : bool) (conn : positive)
    (n : t H) (id : N) (client : positive) :
  kept area listed conn n → kept area listed conn (add_client n id client).
Proof.
  intros (Harea & [Hzero Hfull] & Hbroker). unfold add_client.
  case_decide as Hid; [done |]. split; [done |]. split; [split |]; simpl.
  - by rewrite lookup_insert_ne.
  - intros id' conns. destruct (decide (id = id')) as [<- | Hne].
    + rewrite lookup_insert_eq. intros [= <-].
      by destruct (default [] (authenticated_clients n !! id)).
    + rewrite lookup_insert_ne by done. apply Hfull.
  - intros Hlisted. specialize (Hbroker Hlisted). unfold connections in *.
    simpl. destruct (decide (id = area)) as [-> | Hne].
    + rewrite lookup_insert_eq. simpl. apply elem_of_app. by left.
    + by rewrite lookup_insert_ne.
Qed.

Lemma erase_found_shorter (client : positive) (l l' : list positive) :
  erase_found client l = Some l' → length l = S (length l').
Proof.
  revert l'. induction l as [| a l IH]; intros l'; simpl; [done |].
  case_decide; [by intros [= <-] |].
  destruct (erase_found client l) as [l0 |]; [| done].
  intros [= <-]. simpl. by rewrite (IH l0).
Qed.

Lemma del_client_kept (area : N) (listed : bool) (conn : positive)
    (n n' : t H) (id : N) (client : positive) :
  kept area listed conn n → del_client n id client = returns n' →
  kept area listed conn n'.
Proof.
  intros (Harea & [Hzero Hfull] & Hbroker). unfold del_client.
  case_decide as Hid; [by intros [= <-] |].
  case_decide as Hnotarea; [done |].
  destruct (authenticated_clients n !! id) as [l |] eqn:Hl;
    [| by intros [= <-]].
  destruct (erase_found client l) as [l' |] eqn:Hl'; [| done].
  intros [= <-]. split; [done |]. split; [split |]; simpl.
  - case_decide; [by rewrite lookup_delete_ne | by rewrite lookup_insert_ne].
  - intros id' conns. case_decide as Hlen.
    + intros [_ Hold]%lookup_delete_Some. by eapply Hfull.
    + destruct (decide (id = id')) as [<- | Hne].
      * rewrite lookup_insert_eq. intros [= <-]. by destruct l'.
      * rewrite lookup_insert_ne by done. apply Hfull.
  - intros Hlisted. specialize (Hbroker Hlisted). unfold connections in *.
    simpl. rewrite Harea in Hnotarea.
    case_decide; [by rewrite lookup_delete_ne | by rewrite lookup_insert_ne].
Qed.

Lemma same_index_kept (area : N) (listed : bool) (conn : positive)
    (n n' : t H) :
  area_id n' = area_id n →
  authenticated_clients n' = authenticated_clients n →
  kept area listed conn n → kept area listed conn n'.
Proof.
  intros Harea Hindex (Ha & [Hzero Hfull] & Hbroker).
  unfold kept, tidy, connections. rewrite Harea, Hindex. done.
Qed.

Lemma on_request_kept (area : N) (listed : bool) (conn : positive)
    (n n' : t H) (client : positive) (worker_num : nat)
    (category method : N) (parameters response response' : data_stream)
    (res : request_server.request_result) :
  kept area listed conn n →
  on_request n client worker_num category method parameters response
  = returns (res, response', n') →
  kept area listed conn n'.
Proof.
  intros Hkept. unfold on_request.
  destruct (handlers_for n (state_of n client) !! _) as [instances |];
    [| by intros [= _ _ <-]].
  destruct (instances !! worker_num) as [handler |]; [| done].
  destruct (deserialize handler parameters) as [h | h].
  - destruct (process h (state_of n client)) as [r id h' | h'].
    + pose proof (keep_handler_frame n (state_of n client)
                    (request_type category method) worker_num h')
        as (Hindex & _ & _ & Harea & _).
      pose proof (same_index_kept area listed conn n _ Harea Hindex Hkept)
        as Hkept'.
      case_decide; [by intros [= _ _ <-] |].
      unfold identity_changed. case_decide.
      * case_decide.
        -- intros [= _ _ <-]. by apply add_client_kept.
        -- destruct (del_client _ _ _) as [n1 | |] eqn:Hdel; [| done | done].
           intros [= _ _ <-]. by eapply del_client_kept.
      * by intros [= _ _ <-].
    + intros [= _ _ <-].
      pose proof (keep_handler_frame n (state_of n client)
                    (request_type category method) worker_num h')
        as (Hindex & _ & _ & Harea & _).
      by eapply same_index_kept.
  - intros [= _ _ <-].
    pose proof (keep_handler_frame n (state_of n client)
                  (request_type category method) worker_num h)
      as (Hindex & _ & _ & Harea & _).
    by eapply same_index_kept.
Qed.

Lemma handle_one_kept (area : N) (listed : bool) (conn : positive)
    (n n' : t H) (e : event) :
  kept area listed conn n → handle_one n e = returns n' →
  kept area listed conn n'.
Proof.
  intros Hkept. destruct e as [client w c m p | client | id cl | id cl
                              | id p | id p]; simpl.
  - destruct (on_request n client w c m p [])
      as [[[res response'] n1] | |] eqn:Hreq; [| done | done].
    intros [= <-]. by eapply on_request_kept.
  - by apply del_client_kept.
  - intros [= <-]. by apply add_client_kept.
  - by apply del_client_kept.
  - intros [= <-]. unfold send.
    destruct (authenticated_clients n !! id); [| done].
    by eapply same_index_kept.
  - intros [= <-]. by eapply same_index_kept.
Qed.

Lemma handle_kept (area : N) (listed : bool) (conn : positive)
    (events : list event) (n n' : t H) :
  kept area listed conn n → handle n events = returns n' →
  kept area listed conn n'.
Proof.
  revert n. induction events as [| e events IH]; intros n Hkept; simpl.
  - by intros [= <-].
  - destruct (handle_one n e) as [n1 | |] eqn:Hone; [| done | done].
    apply IH. by eapply handle_one_kept.
Qed.

Lemma initial_kept (started : bool) (workers : nat) (area : N)
    (auth unauth : gmap N (list H)) (conn : positive) :
  kept area (started && bool_decide (area ≠ 0%N)) conn
    (clients.initial started workers area auth unauth conn).
Proof.
  unfold clients.initial, start. destruct started; simpl.
  - case_decide as Harea; simpl.
    + simpl in Harea. rewrite bool_decide_eq_true_2 by done.
      split; [done |]. split; [split |]; simpl.
      * by rewrite lookup_insert_ne.
      * intros id conns. rewrite lookup_insert_Some.
        intros [[_ <-] | [_ Habs]]; [| by rewrite lookup_empty in Habs].
        by destruct (default [] _).
      * intros _. unfold connections; simpl.
        rewrite lookup_insert_eq. simpl. by left.
    + rewrite bool_decide_eq_false_2 by (by intros ?).
      split; [done |]. split; [| simpl; by intros [=]]. split; [done |].
      intros id conns Habs. simpl in Habs. by rewrite lookup_empty in Habs.
  - split; [done |]. split; [| simpl; by intros [=]]. split; [done |].
    intros id conns Habs. simpl in Habs. by rewrite lookup_empty in Habs.
Qed.

(** Whatever the traffic, identity 0 is never a key of the
    client-authentication index, no key is left with an empty list, so
    that [send] to an identity of the index enqueues a message, and the
    broker connection of a started node stays registered under the area
    id. *)
Theorem traffic_keeps_index (started : bool) (workers : nat) (area : N)
    (auth unauth : gmap N (list H)) (conn : positive)
    (events : list event) (n : t H) :
  handle (clients.initial started workers area auth unauth conn) events
  = returns n →
  area_id n = area
  ∧ authenticated_clients n !! 0%N = None
  ∧ (∀ id payload,
       authenticated_clients n !! id ≠ None →
       ∃ client, client ∈ connections n id
                 ∧ (Some client, payload) ∈ outgoing (send n id payload))
  ∧ (started = true → area ≠ 0%N → conn ∈ connections n area).
Proof.
  intros Hrun.
  destruct (handle_kept area _ conn events _ n
              (initial_kept started workers area auth unauth conn) Hrun)
    as (Harea & [Hzero Hfull] & Hbroker).
  split; [done |]. split; [done |]. split.
  - intros id payload Hkey.
    destruct (authenticated_clients n !! id) as [conns |] eqn:Hconns;
      [| done].
    destruct conns as [| client conns]; [by destruct (Hfull id [] Hconns) |].
    exists client. unfold connections, send. rewrite Hconns. simpl.
    split; [by left |]. apply elem_of_app. right. by left.
  - intros -> Hne. apply Hbroker. simpl.
    by apply bool_decide_eq_true.
Qed.

End traffic_facts.

Lemma traffic_keeps_index_witness :
  area_id scenario.after_session = 5%N
  ∧ authenticated_clients scenario.after_session !! 0%N = None
  ∧ (∀ id payload,
       authenticated_clients scenario.after_session !! id ≠ None →
       ∃ client, client ∈ connections scenario.after_session id
                 ∧ (Some client, payload)
                   ∈ outgoing (send scenario.after_session id payload))
  ∧ (true = true → 5%N ≠ 0%N →
     1%positive ∈ connections scenario.after_session 5).
Proof.
  apply (traffic_keeps_index true 1 5 scenario.for_clients
           scenario.for_guests 1 scenario.session scenario.after_session).
  vm_compute. reflexivity.
Defined.


Section more.
Context {H : Type} `{!base_handler H}.

(** ** Registering and deregistering *)

Lemma erase_found_last (conn : positive) (l : list positive) :
  conn ∉ l → erase_found conn (l ++ [conn]) = Some l.
Proof.
  induction l as [| a l IH]; simpl; intros Hout.
  - by rewrite decide_True.
  - apply not_elem_of_cons in Hout as [Hne Hout].
    rewrite decide_False by done. by rewrite IH.
Qed.

Lemma erase_found_None (conn : positive) (l : list positive) :
  erase_found conn l = None ↔ conn ∉ l.
Proof.
  induction l as [| a l IH]; simpl.
  - split; [intros _; apply not_elem_of_nil | done].
  - case_decide as Ha.
    + subst a. split; [done |]. intros Hout. exfalso. apply Hout. by left.
    + rewrite not_elem_of_cons.
      destruct (erase_found conn l) as [l' |]; simpl.
      * split; [done |]. intros [_ Hout%IH]. done.
      * split; [| done]. intros _. split; [congruence | by apply IH].
Qed.

Lemma add_del_client_index (n : t H) (id : N) (conn : positive) :
  id ≠ 0%N → id ≠ area_id n →
  conn ∉ connections n id → authenticated_clients n !! id ≠ Some [] →
  ∃ n',
    del_client (add_client n id conn) id conn = returns n'
    ∧ authenticated_clients n' = authenticated_clients n
    ∧ state_of n' conn = id.
Proof.
  intros Hid Harea Hnew Hfull. unfold connections in Hnew.
  assert (add_client n id conn
          = with_clients n (<[conn := id]> (state n))
              (<[id := default [] (authenticated_clients n !! id) ++ [conn]]>
                 (authenticated_clients n))) as ->.
  { unfold add_client. by rewrite decide_False. }
  unfold del_client. rewrite decide_False by done. simpl.
  rewrite decide_False by done.
  rewrite lookup_insert_eq, erase_found_last by done.
  eexists. split; [reflexivity |]. split.
  - simpl. destruct (authenticated_clients n !! id) as [l |] eqn:Hl; simpl.
    + destruct l as [| a l]; [done |]. simpl.
      rewrite insert_insert_eq. by apply insert_id.
    + by apply delete_insert_id.
  - unfold state_of; simpl. by rewrite lookup_insert_eq.
Qed.

(** Registering a connection and deregistering it again gives back the
    index; the state of the connection keeps the identity. *)
Theorem add_then_del_client (n : t H) (id : N) (conn : positive) :
  id ≠ 0%N → id ≠ area_id n →
  conn ∉ connections n id → authenticated_clients n !! id ≠ Some [] →
  ∃ n',
    del_client (add_client n id conn) id conn = returns n'
    ∧ authenticated_clients n' = authenticated_clients n
    ∧ state_of n' conn = id.
Proof. apply add_del_client_index. Qed.

(** [del_client]: when it returns, when it throws, when it is
    undefined. *)
Theorem del_client_outcomes (n : t H) (id : N) (conn : positive) :
  (del_client n id conn = broker_node_down_exception ↔
   id ≠ 0%N ∧ id = area_id n)
  ∧ (del_client n id conn = undefined ↔
     id ≠ 0%N ∧ id ≠ area_id n
     ∧ authenticated_clients n !! id ≠ None ∧ conn ∉ connections n id)
  ∧ (del_client n id conn = returns n ↔
     id = 0%N ∨ (id ≠ area_id n ∧ authenticated_clients n !! id = None)).
Proof.
  unfold del_client, connections.
  destruct (decide (id = 0%N)) as [Hid | Hid].
  { split; [| split]; split; try done; intuition congruence. }
  destruct (decide (id = area_id n)) as [Harea | Harea].
  { split; [| split]; split; try done; intuition congruence. }
  destruct (authenticated_clients n !! id) as [l |] eqn:Hl; simpl.
  - destruct (erase_found conn l) as [l' |] eqn:Hl'.
    + assert (conn ∈ l) as Hin.
      { destruct (decide (conn ∈ l)) as [| Hout]; [done |].
        apply erase_found_None in Hout. congruence. }
      assert (with_clients n (state n)
                (if decide (length l' = 0%nat)
                 then delete id (authenticated_clients n)
                 else <[id := l']> (authenticated_clients n)) ≠ n) as Hne.
      { intros Hn.
        assert (authenticated_clients n !! id = Some l) as Hl0 by done.
        rewrite <- Hn in Hl0 at 1. simpl in Hl0.
        case_decide as Hlen.
        - by rewrite lookup_delete_eq in Hl0.
        - rewrite lookup_insert_eq in Hl0. injection Hl0 as ->.
          apply erase_found_shorter in Hl'. lia. }
      split; [| split]; split; try done; intuition congruence.
    + apply erase_found_None in Hl'.
      split; [| split]; split; try done; intuition congruence.
  - split; [| split]; split; try done; intuition congruence.
Qed.
End more.

Lemma add_then_del_client_witness :
  ∃ n',
    del_client (add_client scenario.node 42 2) 42 2 = returns n'
    ∧ authenticated_clients n' = authenticated_clients scenario.node
    ∧ state_of n' 2 = 42%N.
Proof.
  apply (add_then_del_client scenario.node 42 2).
  - done.
  - by vm_compute.
  - vm_compute. by inversion 1.
  - by vm_compute.
Defined.


Section dispatch_more.
Context {H : Type} `{!base_handler H}.

(** ** What [on_request] writes and touches *)

(** The response of a request that returns: nothing is written when the
    transport is told to retry; otherwise one result code is written
    after what the stream held, and only the code [success] is followed
    by what the handler serializes.  The transport is told to send no
    response exactly when the handler's code is [no_response]. *)
Theorem response_format (n n' : t H) (client : positive) (worker_num : nat)
    (category method : N) (parameters response response' : data_stream)
    (res : request_server.request_result) :
  on_request n client worker_num category method parameters response
  = returns (res, response', n') →
  (res = request_server.retry_later ∧ response' = response)
  ∨ (∃ r, r ≠ success ∧ response' = response ++ [code_written r]
          ∧ (r = no_response → res = request_server.no_response)
          ∧ (r ≠ no_response → res = request_server.success))
  ∨ (∃ h, res = request_server.success
          ∧ response' = serialize h (response ++ [code_written success])).
Proof.
  unfold on_request.
  destruct (handlers_for n (state_of n client) !! _) as [instances |].
  2: { intros [= <- <- _]. right. left. exists invalid_request_type. done. }
  destruct (instances !! worker_num) as [handler |]; [| done].
  destruct (deserialize handler parameters) as [h | h].
  2: { intros [= <- <- _]. right. left. exists invalid_parameters. done. }
  destruct (process h (state_of n client)) as [r id h' | h'].
  2: { intros [= <- <- _]. by left. }
  destruct (decide (r = success)) as [-> | Hr].
  - rewrite (decide_False (P := _ ∧ _)) by tauto.
    destruct (identity_changed _ _ _ _) as [n1 | |]; [| done | done].
    intros [= <- <- _]. right. right. by exists h'.
  - destruct (decide (r = no_response)) as [-> | Hquiet].
    + rewrite (decide_True (P := _ ∧ _)) by done.
      intros [= <- <- _]. right. left. exists no_response. done.
    + rewrite (decide_False (P := _ ∧ _)) by tauto.
      destruct (identity_changed _ _ _ _) as [n1 | |]; [| done | done].
      intros [= <- <- _]. right. left. exists r. done.
Qed.

Lemma keep_handler_instances (n : t H) (authenticated_id type : N)
    (worker_num : nat) (h : H) (type' : N) (worker' : nat) :
  let n' := keep_handler n authenticated_id type worker_num h in
  (type' ≠ type ∨ worker' ≠ worker_num →
   (authenticated_handlers n' !! type') ≫= (.!! worker')
   = (authenticated_handlers n !! type') ≫= (.!! worker')
   ∧ (unauthenticated_handlers n' !! type') ≫= (.!! worker')
     = (unauthenticated_handlers n !! type') ≫= (.!! worker'))
  ∧ (authenticated_id ≠ 0%N →
     unauthenticated_handlers n' = unauthenticated_handlers n)
  ∧ (authenticated_id = 0%N →
     authenticated_handlers n' = authenticated_handlers n).
Proof.
  unfold keep_handler. case_decide as Hid; simpl.
  - split; [| done]. intros Hother. split; [| done].
    rewrite lookup_alter.
    case_decide as Htype; [| done]. subst type'.
    destruct (authenticated_handlers n !! type) as [l |]; [| done]. simpl.
    apply list_lookup_insert_ne. destruct Hother; congruence.
  - split; [| split; [done | done]]. intros Hother. split; [done |].
    rewrite lookup_alter.
    case_decide as Htype; [| done]. subst type'.
    destruct (unauthenticated_handlers n !! type) as [l |]; [| done]. simpl.
    apply list_lookup_insert_ne. destruct Hother; congruence.
Qed.

Lemma identity_changed_frame (n n' : t H) (start_id authenticated_id : N)
    (client : positive) :
  identity_changed n start_id authenticated_id client = returns n' →
  area_id n' = area_id n ∧ broker n' = broker n ∧ workers n' = workers n
  ∧ outgoing n' = outgoing n
  ∧ authenticated_handlers n' = authenticated_handlers n
  ∧ unauthenticated_handlers n' = unauthenticated_handlers n
  ∧ (∀ conn, conn ≠ client → state n' !! conn = state n !! conn).
Proof.
  unfold identity_changed. case_decide; [| by intros [= <-]].
  case_decide.
  - intros [= <-]. unfold add_client. case_decide; [done |]. simpl.
    repeat split; try done. intros conn Hconn. by rewrite lookup_insert_ne.
  - unfold del_client. case_decide; [by intros [= <-] |].
    case_decide; [done |].
    destruct (authenticated_clients n !! start_id) as [l |];
      [| by intros [= <-]].
    destruct (erase_found client l); [| done]. by intros [= <-].
Qed.

(** Worker affinity and the reach of a request: [on_request] enqueues
    nothing, leaves the identity of every other connection alone, and of
    the handlers changes at most the instance of the request's type and
    worker in the table that the identity of the connection selects. *)
Theorem on_request_reach (n n' : t H) (client : positive) (worker_num : nat)
    (category method : N) (parameters response response' : data_stream)
    (res : request_server.request_result) :
  on_request n client worker_num category method parameters response
  = returns (res, response', n') →
  outgoing n' = outgoing n ∧ area_id n' = area_id n ∧ broker n' = broker n
  ∧ (∀ conn, conn ≠ client → state_of n' conn = state_of n conn)
  ∧ (∀ type' worker',
       type' ≠ request_type category method ∨ worker' ≠ worker_num →
       (authenticated_handlers n' !! type') ≫= (.!! worker')
       = (authenticated_handlers n !! type') ≫= (.!! worker')
       ∧ (unauthenticated_handlers n' !! type') ≫= (.!! worker')
         = (unauthenticated_handlers n !! type') ≫= (.!! worker'))
  ∧ (state_of n client ≠ 0%N →
     unauthenticated_handlers n' = unauthenticated_handlers n)
  ∧ (state_of n client = 0%N →
     authenticated_handlers n' = authenticated_handlers n).
Proof.
  assert (∀ h n1,
            (area_id n1 = area_id (keep_handler n (state_of n client)
                                     (request_type category method)
                                     worker_num h)
             ∧ broker n1 = broker (keep_handler n (state_of n client)
                                     (request_type category method)
                                     worker_num h)
             ∧ workers n1 = workers (keep_handler n (state_of n client)
                                       (request_type category method)
                                       worker_num h)
             ∧ outgoing n1 = outgoing (keep_handler n (state_of n client)
                                         (request_type category method)
                                         worker_num h)
             ∧ authenticated_handlers n1
               = authenticated_handlers
                   (keep_handler n (state_of n client)
                      (request_type category method) worker_num h)
             ∧ unauthenticated_handlers n1
               = unauthenticated_handlers
                   (keep_handler n (state_of n client)
                      (request_type category method) worker_num h)
             ∧ (∀ conn, conn ≠ client →
                  state n1 !! conn
                  = state (keep_handler n (state_of n client)
                             (request_type category method) worker_num h)
                    !! conn)) →
            outgoing n1 = outgoing n ∧ area_id n1 = area_id n
            ∧ broker n1 = broker n
            ∧ (∀ conn, conn ≠ client → state_of n1 conn = state_of n conn)
            ∧ (∀ type' worker',
                 type' ≠ request_type category method
                 ∨ worker' ≠ worker_num →
                 (authenticated_handlers n1 !! type') ≫= (.!! worker')
                 = (authenticated_handlers n !! type') ≫= (.!! worker')
                 ∧ (unauthenticated_handlers n1 !! type') ≫= (.!! worker')
                   = (unauthenticated_handlers n !! type')
                     ≫= (.!! worker'))
            ∧ (state_of n client ≠ 0%N →
               unauthenticated_handlers n1 = unauthenticated_handlers n)
            ∧ (state_of n client = 0%N →
               authenticated_handlers n1 = authenticated_handlers n))
    as Hafter.
  { intros h n1 (Harea & Hbroker & _ & Hout & Hauth & Hunauth & Hstate).
    pose proof (keep_handler_frame n (state_of n client)
                  (request_type category method) worker_num h)
      as (_ & Hst & Hout' & Harea' & Hbroker').
    pose proof (keep_handler_instances n (state_of n client)
                  (request_type category method) worker_num h)
      as Hinst.
    simpl in Hst, Hout', Harea', Hbroker', Hinst.
    split; [congruence |]. split; [congruence |]. split; [congruence |].
    split.
    { intros conn Hconn. unfold state_of. by rewrite Hstate, Hst. }
    rewrite Hauth, Hunauth. split.
    { intros type' worker'. apply Hinst. }
    split; by apply (Hinst 0%N 0%nat). }
  unfold on_request.
  destruct (handlers_for n (state_of n client) !! _) as [instances |].
  2: { intros [= _ _ <-]. repeat split; done. }
  destruct (instances !! worker_num) as [handler |]; [| done].
  destruct (deserialize handler parameters) as [h | h].
  2: { intros [= _ _ <-]. apply (Hafter h). repeat split; done. }
  destruct (process h (state_of n client)) as [r id h' | h'].
  2: { intros [= _ _ <-]. apply (Hafter h'). repeat split; done. }
  case_decide.
  { intros [= _ _ <-]. apply (Hafter h'). repeat split; done. }
  destruct (identity_changed _ _ _ _) as [n1 | |] eqn:Hchanged;
    [| done | done].
  intros [= _ _ <-]. apply (Hafter h').
  by apply identity_changed_frame in Hchanged.
Qed.

End dispatch_more.

Lemma response_format_witness :
  (request_server.success = request_server.retry_later
   ∧ [code_written success; byte_written 1] = [])
  ∨ (∃ r, r ≠ success
          ∧ [code_written success; byte_written 1] = [] ++ [code_written r]
          ∧ (r = no_response →
             request_server.success = request_server.no_response)
          ∧ (r ≠ no_response →
             request_server.success = request_server.success))
  ∨ (∃ h : scenario.scripted,
       request_server.success = request_server.success
       ∧ [code_written success; byte_written 1]
         = serialize h ([] ++ [code_written success])).
Proof.
  apply (response_format scenario.node scenario.logged_in 2 0 0 2 [] []
           [code_written success; byte_written 1] request_server.success).
  vm_compute. reflexivity.
Defined.

Lemma on_request_reach_witness :
  outgoing scenario.logged_in = outgoing scenario.node
  ∧ area_id scenario.logged_in = area_id scenario.node
  ∧ broker scenario.logged_in = broker scenario.node
  ∧ (∀ conn, conn ≠ 2%positive →
       state_of scenario.logged_in conn = state_of scenario.node conn)
  ∧ (∀ type' worker',
       type' ≠ request_type 0 2 ∨ worker' ≠ 0%nat →
       (authenticated_handlers scenario.logged_in !! type') ≫= (.!! worker')
       = (authenticated_handlers scenario.node !! type') ≫= (.!! worker')
       ∧ (unauthenticated_handlers scenario.logged_in !! type')
           ≫= (.!! worker')
         = (unauthenticated_handlers scenario.node !! type')
             ≫= (.!! worker'))
  ∧ (state_of scenario.node 2 ≠ 0%N →
     unauthenticated_handlers scenario.logged_in
     = unauthenticated_handlers scenario.node)
  ∧ (state_of scenario.node 2 = 0%N →
     authenticated_handlers scenario.logged_in
     = authenticated_handlers scenario.node).
Proof.
  apply (on_request_reach scenario.node scenario.logged_in 2 0 0 2 [] []
           [code_written success; byte_written 1] request_server.success).
  vm_compute. reflexivity.
Defined.


Section sessions.
Context {H : Type} `{!base_handler H}.

(** ** Connecting, logging in, disconnecting *)

(** A connection that logs in and then disconnects leaves the
    client-authentication index as it was before the login. *)
Theorem login_then_disconnect (n : t H) (client : positive)
    (worker_num : nat) (category method : N)
    (parameters response : data_stream) (instances : list H)
    (handler h h' : H) (result : result_code) (id : N) :
  handlers_for n (state_of n client) !! request_type category method
  = Some instances →
  instances !! worker_num = Some handler →
  deserialize handler parameters = parsed h →
  process h (state_of n client) = finished result id h' →
  result ≠ result_codes.no_response →
  id ≠ 0%N → id ≠ state_of n client → id ≠ area_id n →
  client ∉ connections n id → authenticated_clients n !! id ≠ Some [] →
  ∃ response' n' n'',
    on_request n client worker_num category method parameters response
    = returns (request_server.success, response', n')
    ∧ on_disconnect n' client = returns n''
    ∧ authenticated_clients n'' = authenticated_clients n.
Proof.
  intros Htable Hworker Hread Hdone Hresult Hid Hchanged Harea Hnew Hfull.
  unfold on_request. rewrite Htable, Hworker, Hread, Hdone.
  rewrite (decide_False (P := _ ∧ _)) by tauto.
  unfold identity_changed. rewrite !decide_True by done.
  set (n1 := keep_handler n (state_of n client)
               (request_type category method) worker_num h').
  pose proof (keep_handler_frame n (state_of n client)
                (request_type category method) worker_num h')
    as (Hindex & Hstate & _ & Harea' & _).
  fold n1 in Hindex, Hstate, Harea'.
  destruct (add_del_client_index n1 id client) as (n2 & Hdel & Hindex2 & _);
    [done | congruence | | congruence |].
  { unfold connections. by rewrite Hindex. }
  eexists _, _, n2. split; [reflexivity |]. split; [| congruence].
  unfold on_disconnect.
  assert (state_of (add_client n1 id client) client = id) as ->; [| done].
  unfold add_client. rewrite decide_False by done.
  unfold state_of; simpl. by rewrite lookup_insert_eq.
Qed.

(** A disconnect: nothing happens for a connection without identity;
    for a connection that carries the area id of the node the broker
    exception is thrown. *)
Theorem on_disconnect_edges (n : t H) (client : positive) :
  (state_of n client = 0%N → on_disconnect n client = returns n)
  ∧ (state_of n client ≠ 0%N → state_of n client = area_id n →
     on_disconnect n client = broker_node_down_exception).
Proof.
  unfold on_disconnect, del_client. split.
  - intros ->. done.
  - intros Hid Harea. rewrite decide_False by done.
    by rewrite decide_True.
Qed.

End sessions.

Lemma login_then_disconnect_witness :
  ∃ response' n' n'',
    on_request scenario.node 2 0 0 2 [] []
    = returns (request_server.success, response', n')
    ∧ on_disconnect n' 2 = returns n''
    ∧ authenticated_clients n'' = authenticated_clients scenario.node.
Proof.
  apply (login_then_disconnect scenario.node 2 0 0 2 [] []
           [scenario.login] scenario.login scenario.login scenario.login
           result_codes.success 42); try by vm_compute.
  vm_compute. by inversion 1.
Defined.


(** [start] on a node with an area: the connection it adopts becomes the
    broker, carries the area id, is alone in the index under it, and is
    sent one message, the system header followed by the area id; its
    disconnect is fatal.  On a node without area [start] does nothing. *)
Theorem start_announces {H : Type} (workers : nat) (area : N)
    (auth unauth : gmap N (list H)) (conn : positive) :
  let n := start (new workers area auth unauth) conn in
  (area ≠ 0%N →
   broker n = Some conn ∧ state_of n conn = area
   ∧ authenticated_clients n = {[area := [conn]]}
   ∧ outgoing n
     = [(Some conn,
         [byte_written 0; byte_written 0; byte_written 0; id_written area])]
   ∧ on_disconnect n conn = broker_node_down_exception)
  ∧ (area = 0%N → n = new workers area auth unauth).
Proof.
  unfold start; simpl. split.
  - intros Harea. rewrite decide_True by done. simpl.
    unfold state_of, on_disconnect, del_client, state_of; simpl.
    rewrite lookup_insert_eq. simpl.
    rewrite decide_False by done. rewrite decide_True by done.
    repeat split; try done.
  - intros ->. done.
Qed.

End router_facts.

(** * Properties of the node instance *)

Module node_instance_facts.
Import node_instance.

Section instance_facts.
Context {R T : Type} `{!BaseRequest R T} `{!DBContext T}.

Lemma create_contexts_counts (contextCreator : N → T) (workers : N)
    (left : nat) (i : N) (dbConnections : gmap N T) :
  (workers ≤ 255)%N → (i ≤ workers)%N →
  (N.of_nat left = workers - i)%N →
  (∀ j, dbConnections !! j =
        if decide (j < i)%N then Some (contextCreator j) else None) →
  ∃ db,
    create_contexts (S left) contextCreator workers i i dbConnections
    = Some db
    ∧ ∀ j, db !! j =
           if decide (j < workers)%N then Some (contextCreator j) else None.
Proof.
  intros Hsmall. revert i dbConnections.
  induction left as [| left IH]; intros i db Hi Hleft Hdb.
  - assert (i = workers) as -> by lia. simpl.
    rewrite decide_False by lia. by exists db.
  - cbn [create_contexts]. rewrite decide_True by lia.
    rewrite N.mod_small by lia. apply IH; [lia | lia |].
    intros j. destruct (decide (j = i)) as [-> | Hne].
    + rewrite lookup_insert_eq. by rewrite decide_True by lia.
    + rewrite lookup_insert_ne by done. rewrite Hdb.
      repeat case_decide; try done; lia.
Qed.

Lemma create_contexts_spins (contextCreator : N → T) (workers : N)
    (fuel : nat) (i calls : N) (dbConnections : gmap N T) :
  (256 ≤ workers)%N → (i < 256)%N →
  create_contexts fuel contextCreator workers i calls dbConnections = None.
Proof.
  intros Hmany. revert i calls dbConnections.
  induction fuel as [| fuel IH]; intros i calls db Hi; [done |].
  cbn [create_contexts]. rewrite decide_True by lia.
  apply IH. by apply N.mod_lt.
Qed.

(** The constructor's loop: with at most 255 workers it ends after
    [workers] iterations with one context per worker; with 256 workers or
    more the 8-bit counter never reaches [workers] and the loop does not
    end. *)
Theorem create_contexts_ends (contextCreator : N → T) (workers : N) :
  ((workers ≤ 255)%N →
   ∃ db,
     create_contexts (S (N.to_nat workers)) contextCreator workers 0 0 ∅
     = Some db
     ∧ ∀ j, db !! j =
            if decide (j < workers)%N then Some (contextCreator j)
            else None)
  ∧ ((256 ≤ workers)%N →
     ∀ fuel, create_contexts fuel contextCreator workers 0 0 ∅ = None).
Proof.
  split.
  - intros Hsmall. apply create_contexts_counts; [done | lia | lia |].
    intros j. rewrite lookup_empty. by rewrite decide_False by lia.
  - intros Hmany fuel. by apply create_contexts_spins.
Qed.

Variable SUCCESS SERVER_ERROR : N.

(** A request whose parameters cannot be read is answered with the code
    [SUCCESS] and nothing else; no transaction is begun and the handler
    is not deleted. *)
Theorem unreadable_parameters_answer (handlerCreator : N → N → N → N * option R)
    (context : T) (client : Client) (requestCategory requestMethod : N)
    (parameters response : list item) (handler : R) :
  handlerCreator requestCategory requestMethod (authenticatedId client)
  = (SUCCESS, Some handler) →
  deserialize handler parameters = None →
  onRequest SUCCESS SERVER_ERROR handlerCreator context client
    requestCategory requestMethod parameters response
  = Some {| returned := true; response := response ++ [code SUCCESS];
            context := context; client := client;
            handler_deleted := false |}.
Proof.
  intros Hcreated Hread. unfold onRequest. rewrite Hcreated.
  rewrite decide_False by (by intros ?). by rewrite Hread.
Qed.

(** A commit that fails: whatever code the handler returned, the answer
    is the code [SERVER_ERROR] alone, and the context is the one the
    rollback leaves. *)
Theorem failed_commit_answer (handlerCreator : N → N → N → N * option R)
    (context failed : T) (client : Client)
    (requestCategory requestMethod : N)
    (parameters response : list item) (handler ready : R) :
  SERVER_ERROR ≠ SUCCESS →
  handlerCreator requestCategory requestMethod (authenticatedId client)
  = (SUCCESS, Some handler) →
  deserialize handler parameters = Some ready →
  commitTransaction
    (after (process ready (authenticatedId client) (id client)
              (ipAddress client) (beginTransaction context)))
  = inr failed →
  ∃ out,
    onRequest SUCCESS SERVER_ERROR handlerCreator context client
      requestCategory requestMethod parameters response
    = Some out
    ∧ returned out = true
    ∧ node_instance.response out = response ++ [code SERVER_ERROR]
    ∧ node_instance.context out = rollbackTransaction failed
    ∧ handler_deleted out = true.
Proof.
  intros Hcodes Hcreated Hread Hcommit. unfold onRequest.
  rewrite Hcreated. rewrite decide_False by (by intros ?).
  rewrite Hread, Hcommit. rewrite decide_False by done.
  eexists. split; [reflexivity |]. done.
Qed.

(** Every request that is answered is answered with one result code,
    written after what the response held, and only the code [SUCCESS] of
    a committed transaction is followed by what the handler serializes;
    the callback returns [true]. *)
Theorem onRequest_answer (handlerCreator : N → N → N → N * option R)
    (context : T) (client : Client) (requestCategory requestMethod : N)
    (parameters response : list item) (out : reply T) :
  onRequest SUCCESS SERVER_ERROR handlerCreator context client
    requestCategory requestMethod parameters response
  = Some out →
  returned out = true
  ∧ ((∃ resultCode,
        node_instance.response out = response ++ [code resultCode]
        ∧ (handler_deleted out = true → resultCode ≠ SUCCESS))
     ∨ (∃ handler,
          handler_deleted out = true
          ∧ node_instance.response out
            = serialize handler (response ++ [code SUCCESS]))).
Proof.
  unfold onRequest.
  destruct (handlerCreator _ _ _) as [created handler].
  case_decide as Hcreated.
  { intros [= <-]. split; [done |]. left. by exists created. }
  destruct handler as [handler |]; [| done].
  destruct (deserialize handler parameters) as [ready |].
  2: { intros [= <-]. split; [done |]. left. by exists created. }
  destruct (commitTransaction _) as [committed | failed].
  - case_decide as Hcode.
    + intros [= <-]. split; [done |]. right. eexists. split; [done |].
      simpl. by rewrite Hcode.
    + intros [= <-]. split; [done |]. left. eexists. split; [done |]. done.
  - case_decide as Hcode.
    + intros [= <-]. split; [done |]. right. eexists. split; [done |].
      simpl. by rewrite Hcode.
    + intros [= <-]. split; [done |]. left. eexists. split; [done |]. done.
Qed.

End instance_facts.

Lemma unreadable_parameters_answer_witness :
  onRequest 0 1 scenario.echo_creator
    {| scenario.refusing := false; scenario.journal := [] |}
    scenario.guest 0 1 [] []
  = Some {| returned := true; response := [] ++ [code 0];
            context := {| scenario.refusing := false;
                          scenario.journal := [] |};
            client := scenario.guest; handler_deleted := false |}.
Proof.
  apply (unreadable_parameters_answer 0 1 scenario.echo_creator
           {| scenario.refusing := false; scenario.journal := [] |}
           scenario.guest 0 1 [] [] scenario.echo_request);
    reflexivity.
Defined.

Lemma failed_commit_answer_witness :
  ∃ out,
    onRequest 0 1 scenario.echo_creator
      {| scenario.refusing := true; scenario.journal := [] |}
      scenario.guest 0 1 [byte 9] []
    = Some out
    ∧ returned out = true
    ∧ response out = [] ++ [code 1]
    ∧ context out
      = rollbackTransaction
          {| scenario.refusing := true;
             scenario.journal := [scenario.began; scenario.commit_refused] |}
    ∧ handler_deleted out = true.
Proof.
  apply (failed_commit_answer 0 1 scenario.echo_creator
           {| scenario.refusing := true; scenario.journal := [] |}
           {| scenario.refusing := true;
              scenario.journal := [scenario.began; scenario.commit_refused] |}
           scenario.guest 0 1 [byte 9] [] scenario.echo_request
           scenario.echo_request).
  - done.
  - reflexivity.
  - reflexivity.
  - reflexivity.
Defined.


End node_instance_facts.
